(** * GatherOperation (motion/operations/gather.py)

    A shallow embedding of the gather stage: grouping chunk records by
    document, ordering each group, and rendering every chunk together with
    a window of its neighbours.  Python dictionaries are finite maps with
    string keys, exceptions are an error result, and the chunk records live
    in a store addressed by references so that aliasing between the input
    list, the groups and the output copies is explicit. *)

From Stdlib Require Import Strings.Ascii Strings.String.
From stdpp Require Import gmap strings list fin_maps pretty sorting.

Open Scope string_scope.
Open Scope list_scope.
Open Scope Z_scope.

(** ** The fragment of Python that gather.py relies on *)
Module Py.

(** Scalar values a record field or a configuration leaf can hold.  Text
    is a sequence of one-byte characters, the code points 0 to 255.
    Floats, booleans and containers are left out, so a count such as
    [2.5] or [True] is not among the values the statements range
    over. *)
Inductive pyval :=
  | PNone
  | PInt (z : Z)
  | PStr (s : string).

#[global] Instance pyval_eq_dec : EqDecision pyval.
Proof. solve_decision. Defined.

#[global] Instance pyval_inhabited : Inhabited pyval := populate PNone.

(** Exceptions.  Messages raised by gather.py itself are verbatim; the
    message of an exception raised by the interpreter is indicative.
    [InvalidRef] is not a Python exception: it marks a reference that
    points outside the store, which no Python program can build. *)
Inductive exn :=
  | KeyError (key : pyval)
  | IndexError
  | ValueError (msg : string)
  | TypeError (msg : string)
  | InvalidRef.

#[global] Instance exn_eq_dec : EqDecision exn.
Proof. solve_decision. Defined.

Inductive result (A : Type) :=
  | Ok (a : A)
  | Err (e : exn).
Arguments Ok {A} a.
Arguments Err {A} e.

#[global] Instance result_ret : MRet result := @Ok.
#[global] Instance result_bind : MBind result := λ A B f m,
  match m with
  | Ok a => f a
  | Err e => Err e
  end.
#[global] Instance result_fmap : FMap result := λ A B f m,
  match m with
  | Ok a => Ok (f a)
  | Err e => Err e
  end.

Definition is_Ok {A} (m : result A) : Prop := ∃ a, m = Ok a.

(** [for x in l: acc = body(acc, i, x)] with the index of [enumerate],
    stopping at the first exception. *)
Fixpoint for_enumerate {A St} (body : St → nat → A → result St)
    (i : nat) (l : list A) (st : St) : result St :=
  match l with
  | [] => Ok st
  | x :: l' => st' ← body st i x; for_enumerate body (S i) l' st'
  end.

(** A comprehension [f(x) for x in l], stopping at the first exception. *)
Fixpoint map_result {A B} (f : A → result B) (l : list A) : result (list B) :=
  match l with
  | [] => Ok []
  | x :: l' => y ← f x; ys ← map_result f l'; Ok (y :: ys)
  end.

(** [list(reversed(l))] *)
Abbreviation reversed := reverse.

Definition nl : string := String "010"%char "".

(** ["sep".join(parts)] *)
Fixpoint join (sep : string) (parts : list string) : string :=
  match parts with
  | [] => ""
  | [p] => p
  | p :: ps => p +:+ sep +:+ join sep ps
  end.

Definition type_name (v : pyval) : string :=
  match v with
  | PNone => "NoneType"
  | PInt _ => "int"
  | PStr _ => "str"
  end.

(** The interpreter converts between integers and decimal text up to
    this number of digits, the value of [sys.get_int_max_str_digits()]
    when the program does not change it, and raises [ValueError] beyond
    it. *)
Definition max_str_digits : Z := 4300.

(** The text of a value. *)
Definition text (v : pyval) : string :=
  match v with
  | PNone => "None"
  | PInt z => pretty z
  | PStr s => s
  end.

(** [str(v)], which is also what an f-string field [{v}] inserts: the
    text of the value, unless the value is an integer of more than
    [max_str_digits] digits. *)
Definition str (v : pyval) : result string :=
  match v with
  | PInt z =>
      if bool_decide (Z.of_nat (String.length (pretty (Z.abs z)))
                      ≤ max_str_digits)
      then Ok (pretty z)
      else Err (ValueError "Exceeds the limit (4300 digits) for integer string conversion; use sys.set_int_max_str_digits() to increase the limit")
  | _ => Ok (text v)
  end.

(** [isinstance(v, str)] *)
Definition isinstance_str (v : pyval) : bool :=
  match v with
  | PStr _ => true
  | _ => false
  end.

(** [len(v)] *)
Definition len (v : pyval) : result Z :=
  match v with
  | PStr s => Ok (Z.of_nat (String.length s))
  | _ => Err (TypeError ("object of type '" +:+ type_name v +:+ "' has no len()"))
  end.

(** [d[k]] on a dictionary with string keys: a key of another hashable
    type is simply absent. *)
Definition getitem (d : gmap string pyval) (k : pyval) : result pyval :=
  match k with
  | PStr s =>
      match d !! s with
      | Some v => Ok v
      | None => Err (KeyError k)
      end
  | _ => Err (KeyError k)
  end.

(** [a < b]: defined between two integers and between two strings. *)
Definition lt (a b : pyval) : result bool :=
  match a, b with
  | PInt x, PInt y => Ok (bool_decide (x < y))
  | PStr s, PStr t => Ok (String.ltb s t)
  | _, _ =>
      Err (TypeError ("'<' not supported between instances of '" +:+
                      type_name a +:+ "' and '" +:+ type_name b +:+ "'"))
  end.

(** *** [int(v)] *)

(** The characters [int] drops at both ends of a text: tab, line feed,
    vertical tab, form feed, carriage return and space, and above 127
    the next-line character and the no-break space.  The separators 28
    to 31, which [str.strip] removes, are not among them. *)
Definition is_space (c : ascii) : bool :=
  let n := N_of_ascii c in
  bool_decide ((9 ≤ n ≤ 13)%N ∨ n = 32%N ∨ n = 133%N ∨ n = 160%N).

Fixpoint lstrip (s : string) : string :=
  match s with
  | String c s' => if is_space c then lstrip s' else s
  | "" => ""
  end.

Definition strip (s : string) : string :=
  String.rev (lstrip (String.rev (lstrip s))).

(** Decimal digits, where single underscores may separate digits.
    [acc] is the value read so far and [after_digit] tells whether the
    previous character was a digit. *)
Fixpoint digits (s : string) (acc : Z) (after_digit : bool) : option Z :=
  match s with
  | "" => if after_digit then Some acc else None
  | String c s' =>
      match Ascii.is_nat c with
      | Some d => digits s' (10 * acc + Z.of_nat d) true
      | None =>
          if bool_decide (c = "_"%char) && after_digit
          then match s' with
               | String c' _ =>
                   if is_Some_dec (Ascii.is_nat c') then digits s' acc false else None
               | "" => None
               end
          else None
      end
  end.

Definition int_of_string (s : string) : option Z :=
  match strip s with
  | String "-" s' => Z.opp <$> digits s' 0 false
  | String "+" s' => digits s' 0 false
  | s' => digits s' 0 false
  end.

(** The digits of a text, leading zeros included. *)
Fixpoint count_digits (s : string) : Z :=
  match s with
  | "" => 0
  | String c s' =>
      (if is_Some_dec (Ascii.is_nat c) then 1 else 0) + count_digits s'
  end.

(** A text is checked to be a literal first and against the limit on
    the number of digits next; interpreters before 3.12 check in the
    other order, so that a text failing both gets the other message. *)
Definition int (v : pyval) : result Z :=
  match v with
  | PInt z => Ok z
  | PStr s =>
      match int_of_string s with
      | Some z =>
          if bool_decide (count_digits s ≤ max_str_digits) then Ok z
          else Err (ValueError ("Exceeds the limit (4300 digits) for integer string conversion: value has " +:+
                                pretty (count_digits s) +:+
                                " digits; use sys.set_int_max_str_digits() to increase the limit"))
      | None => Err (ValueError ("invalid literal for int() with base 10: '" +:+ s +:+ "'"))
      end
  | PNone =>
      Err (TypeError "int() argument must be a string, a bytes-like object or a real number, not 'NoneType'")
  end.

(** *** [list.sort(key=...)]

    The keys are computed first; the list is then sorted on the keys
    alone, stably, with [<].  The model is an insertion sort that puts
    every element in front of the sorted rest and moves it past the
    elements that are strictly smaller: on keys of one comparable type it
    returns the list CPython's sort returns, and with two or more
    elements it raises [TypeError] in the same cases. *)
Section sort.
Context {A : Type}.

Fixpoint insert_keyed (x : pyval * A) (l : list (pyval * A))
    : result (list (pyval * A)) :=
  match l with
  | [] => Ok [x]
  | y :: l' =>
      b ← lt y.1 x.1;
      if b : bool then (l'' ← insert_keyed x l'; Ok (y :: l''))
      else Ok (x :: y :: l')
  end.

Fixpoint sort_keyed (l : list (pyval * A)) : result (list (pyval * A)) :=
  match l with
  | [] => Ok []
  | x :: l' => s ← sort_keyed l'; insert_keyed x s
  end.
End sort.

End Py.
Import Py.

(** ** Data model *)

(** A chunk record, and the dictionaries of the configuration:
    a section such as [{"count": 2, "content_key": "summary"}], a
    direction with its sections [head], [middle], [tail], and
    [peripheral_chunks] with its directions [previous] and [next].
    Every direction and every section is a dictionary: one that the
    configuration file leaves empty, and that is loaded as [None], is not
    among the configurations the statements range over. *)
Abbreviation record := (gmap string pyval).
Abbreviation section_config := (gmap string pyval) (only parsing).
Abbreviation direction_config := (gmap string (gmap string pyval)).
Abbreviation peripheral := (gmap string (gmap string (gmap string pyval))).

(** [self.config].  The entry under ["peripheral_chunks"] is the nested
    dictionary and is kept in a field of its own; every other entry is a
    scalar and lives in [top]. *)
Record config := Config {
  top : gmap string pyval;
  peripheral_chunks : option peripheral;
}.

(** The window buckets.  The first three are the values the variable
    [section] takes; [Skipped] is the [else] branch that ends in
    [continue]. *)
Inductive bucket := Head | Tail | Middle | Skipped.

#[global] Instance bucket_eq_dec : EqDecision bucket.
Proof. solve_decision. Defined.

Definition section_name (b : bucket) : string :=
  match b with
  | Head => "head"
  | Tail => "tail"
  | Middle => "middle"
  | Skipped => ""
  end.

(** ** process_peripheral_chunks *)

(** The variables the loop updates. *)
Record loop_state := LoopState {
  processed_parts : list string;
  included_chunks : list record;
  in_skip : bool;
  skip_char_count : Z;
}.

(** [f"[... {skip_char_count} characters skipped ...]"].  The count is
    the length of a list times a sum of lengths, which stays far below
    the integers [str] refuses to write out. *)
Definition skip_line (n : Z) : string :=
  "[... " +:+ pretty n +:+ " characters skipped ...]".

Section window.
Variables (chunks : list record) (config : direction_config)
          (content_key order_key : pyval).
Variables (head_count tail_count : Z).

Definition total_chunks : Z := Z.of_nat (length chunks).

(** The [if]/[elif] chain on the index. *)
Definition classify (i : nat) : bucket :=
  if bool_decide (Z.of_nat i < head_count) then Head
  else if bool_decide (Z.of_nat i >= total_chunks - tail_count) then Tail
  else if bool_decide (is_Some (config !! "middle")) then Middle
  else Skipped.

(** [sum(len(c[content_key]) for c in chunks)] *)
Definition skipped_chars : result Z :=
  lens ← map_result (λ c, v ← getitem c content_key; len v) chunks;
  Ok (foldr Z.add 0 lens).

(** The rendered line of a chunk shown in [section]. *)
Definition render (section : bucket) (chunk : record) : result string :=
  let section_config := default ∅ (config !! section_name section) in
  let section_content_key := default content_key (section_config !! "content_key") in
  let is_summary := bool_decide (section_content_key ≠ content_key) in
  let summary_suffix := if is_summary then " (Summary)" else "" in
  o ← getitem chunk order_key;
  o ← str o;
  let chunk_prefix := "[Chunk " +:+ o +:+ summary_suffix +:+ "]" in
  c ← getitem chunk section_content_key;
  c ← str c;
  Ok (chunk_prefix +:+ " " +:+ c).

(** The pending placeholder is written out before a rendered line. *)
Definition flush_skip (st : loop_state) : loop_state :=
  if in_skip st
  then LoopState (processed_parts st ++ [skip_line (skip_char_count st)])
                 (included_chunks st) false 0
  else st.

Definition loop_body (st : loop_state) (i : nat) (chunk : record)
    : result loop_state :=
  match classify i with
  | Skipped =>
      n ← skipped_chars;
      Ok (LoopState (processed_parts st) (included_chunks st)
                    true (skip_char_count st + n))
  | section =>
      let st := flush_skip st in
      line ← render section chunk;
      Ok (LoopState (processed_parts st ++ [line])
                    (included_chunks st ++ [chunk])
                    (in_skip st) (skip_char_count st))
  end.
End window.

Definition initial_state : loop_state := LoopState [] [] false 0.

(** The function up to the end of the loop and the trailing placeholder,
    on the list as the loop sees it (already reversed when [reverse] is
    set); it returns the final loop state. *)
Definition process_loop (chunks : list record) (config : direction_config)
    (content_key order_key : pyval) : result loop_state :=
  let head_config := default ∅ (config !! "head") in
  let tail_config := default ∅ (config !! "tail") in
  head_count ← int (default (PInt 0) (head_config !! "count"));
  tail_count ← int (default (PInt 0) (tail_config !! "count"));
  st ← for_enumerate
         (loop_body chunks config content_key order_key head_count tail_count)
         0%nat chunks initial_state;
  Ok (flush_skip st).

Definition process_peripheral_chunks (chunks : list record)
    (config : direction_config) (content_key order_key : pyval)
    (reverse : bool) : result (list string) :=
  let chunks := if reverse then reversed chunks else chunks in
  st ← process_loop chunks config content_key order_key;
  let processed_parts := processed_parts st in
  Ok (if reverse then reversed processed_parts else processed_parts).

(** ** format_chunk_with_context *)

(** [f"{main_chunk_start}\n{main_chunk[content_key]}\n{main_chunk_end}"]:
    the fields are evaluated and converted from left to right. *)
Definition main_block (main_chunk_start : pyval) (main_chunk : record)
    (content_key main_chunk_end : pyval) : result string :=
  start ← str main_chunk_start;
  content ← getitem main_chunk content_key;
  content ← str content;
  end_ ← str main_chunk_end;
  Ok (start +:+ nl +:+ content +:+ nl +:+ end_).

Definition format_chunk_with_context (chunks : list record)
    (current_index : nat) (peripheral_config : peripheral)
    (content_key order_key main_chunk_start main_chunk_end : pyval)
    : result string :=
  previous ← process_peripheral_chunks (take current_index chunks)
                (default ∅ (peripheral_config !! "previous"))
                content_key order_key true;
  main_chunk ← from_option Ok (Err IndexError) (chunks !! current_index);
  main ← main_block main_chunk_start main_chunk content_key main_chunk_end;
  next ← process_peripheral_chunks (drop (S current_index) chunks)
            (default ∅ (peripheral_config !! "next"))
            content_key order_key false;
  Ok (join nl
        (["--- Previous Context ---"] ++ previous ++
         ["--- End Previous Context ---" +:+ nl;
          main;
          nl +:+ "--- Next Context ---"] ++ next ++
         ["--- End Next Context ---"])).

(** ** syntax_check *)

(** A [for] loop whose body only checks, stopping at the first
    exception. *)
Fixpoint for_each {A} (body : A → result ()) (l : list A) : result () :=
  match l with
  | [] => Ok ()
  | x :: l' => body x;; for_each body l'
  end.

Definition check_required_key (cfg : config) (key : string) : result () :=
  if bool_decide (is_Some (top cfg !! key)) then Ok ()
  else Err (ValueError ("Missing required key '" +:+ key +:+
                        "' in GatherOperation configuration")).

Definition check_section (direction : string) (dir_config : direction_config)
    (section : string) : result () :=
  match dir_config !! section with
  | Some section_config =>
      if bool_decide (section ≠ "middle") &&
         bool_decide (section_config !! "count" = None)
      then Err (ValueError ("Missing 'count' in " +:+ direction +:+ "." +:+
                            section +:+ " configuration"))
      else Ok ()
  | None => Ok ()
  end.

Definition check_direction (peripheral_config : peripheral)
    (direction : string) : result () :=
  match peripheral_config !! direction with
  | None => Ok ()
  | Some dir_config =>
      for_each (check_section direction dir_config) ["head"; "middle"; "tail"]
  end.

Definition check_marker (cfg : config) (key : string) : result () :=
  match top cfg !! key with
  | Some v =>
      if isinstance_str v then Ok ()
      else Err (TypeError ("'" +:+ key +:+ "' must be a string"))
  | None => Ok ()
  end.

Definition syntax_check (cfg : config) : result () :=
  for_each (check_required_key cfg) ["content_key"; "doc_id_key"; "order_key"];;
  match peripheral_chunks cfg with
  | None =>
      Err (ValueError "Missing 'peripheral_chunks' configuration in GatherOperation")
  | Some peripheral_config =>
      for_each (check_direction peripheral_config) ["previous"; "next"];;
      check_marker cfg "main_chunk_start";;
      check_marker cfg "main_chunk_end"
  end.

(** ** The store of records *)

(** Records are mutable objects: a reference is an index into the store,
    [dict.copy] allocates at the end, item assignment updates in place.
    The lists that execute builds are fresh and never shared with its
    caller, so they stay ordinary lists of references. *)
Abbreviation loc := nat (only parsing).
Abbreviation heap := (list (gmap string pyval)) (only parsing).

Definition M (A : Type) : Type := heap → result (A * heap).

#[global] Instance M_ret : MRet M := λ A a h, Ok (a, h).
#[global] Instance M_bind : MBind M := λ A B f m h,
  match m h with
  | Ok (a, h') => f a h'
  | Err e => Err e
  end.

Definition lift {A} (r : result A) : M A := λ h,
  match r with
  | Ok a => Ok (a, h)
  | Err e => Err e
  end.

Definition load (l : loc) : M record := λ h,
  match h !! l with
  | Some r => Ok (r, h)
  | None => Err InvalidRef
  end.

(** [r.copy()] *)
Definition copy (l : loc) : M loc := λ h,
  match h !! l with
  | Some r => Ok (length h, h ++ [r])
  | None => Err InvalidRef
  end.

(** [r[k] = v] *)
Definition setitem (l : loc) (k : string) (v : pyval) : M () := λ h,
  match h !! l with
  | Some r => Ok ((), <[l := <[k := v]> r]> h)
  | None => Err InvalidRef
  end.

Fixpoint map_M {A B} (f : A → M B) (l : list A) : M (list B) :=
  match l with
  | [] => mret []
  | x :: l' => y ← f x; ys ← map_M f l'; mret (y :: ys)
  end.

Fixpoint for_M {A St} (body : St → A → M St) (l : list A) (st : St) : M St :=
  match l with
  | [] => mret st
  | x :: l' => st' ← body st x; for_M body l' st'
  end.

Fixpoint for_enumerate_M {A St} (body : St → nat → A → M St)
    (i : nat) (l : list A) (st : St) : M St :=
  match l with
  | [] => mret st
  | x :: l' => st' ← body st i x; for_enumerate_M body (S i) l' st'
  end.

(** ** execute *)

(** [grouped_chunks]: a dictionary in insertion order, from document
    identity to the list of its chunks. *)
Abbreviation groups := (list (pyval * list nat)).

(** [if doc_id not in grouped_chunks: grouped_chunks[doc_id] = []]
    followed by [grouped_chunks[doc_id].append(item)]. *)
Definition append_chunk (doc_id : pyval) (item : loc) (grouped_chunks : groups)
    : groups :=
  let grouped_chunks :=
    if bool_decide (doc_id ∈ grouped_chunks.*1) then grouped_chunks
    else grouped_chunks ++ [(doc_id, [])] in
  (λ g, if bool_decide (g.1 = doc_id) then (g.1, g.2 ++ [item]) else g)
    <$> grouped_chunks.

Definition group_chunks (doc_id_key : pyval) (input_data : list loc)
    : M groups :=
  for_M (λ grouped_chunks item,
           r ← load item;
           doc_id ← lift (getitem r doc_id_key);
           mret (append_chunk doc_id item grouped_chunks))
        input_data [].

(** [chunks.sort(key=lambda x: x[order_key])] *)
Definition sort_chunks (order_key : pyval) (chunks : list loc) : M (list loc) :=
  keys ← map_M (λ x, r ← load x; lift (getitem r order_key)) chunks;
  sorted ← lift (sort_keyed (zip keys chunks));
  mret (sorted.*2).

(** [f"{content_key}_formatted"] *)
Definition formatted_key (content_key : pyval) : string :=
  text content_key +:+ "_formatted".

(** The cost is the constant [0.0]. *)
Definition cost : Type := Z.

Section execute.
Variables (peripheral_config : peripheral).
Variables (content_key order_key main_chunk_start main_chunk_end : pyval).

(** The body of the loop over the chunks of one sorted group.  The
    callee reads the records of the group through their references. *)
Definition process_chunk (chunks : list loc) (results : list loc)
    (i : nat) (chunk : loc) : M (list loc) :=
  records ← map_M load chunks;
  formatted_chunk ← lift (format_chunk_with_context records i
                            peripheral_config content_key order_key
                            main_chunk_start main_chunk_end);
  result ← copy chunk;
  key ← lift (str content_key);
  setitem result (key +:+ "_formatted") (PStr formatted_chunk);;
  mret (results ++ [result]).

Definition process_group (results : list loc) (group : pyval * list loc)
    : M (list loc) :=
  chunks ← sort_chunks order_key group.2;
  for_enumerate_M (process_chunk chunks) 0%nat chunks results.
End execute.

Definition execute (cfg : config) (input_data : list loc)
    : M (list loc * cost) :=
  content_key ← lift (getitem (top cfg) (PStr "content_key"));
  doc_id_key ← lift (getitem (top cfg) (PStr "doc_id_key"));
  order_key ← lift (getitem (top cfg) (PStr "order_key"));
  peripheral_config ←
    lift (from_option Ok (Err (KeyError (PStr "peripheral_chunks")))
                      (peripheral_chunks cfg));
  let main_chunk_start :=
    default (PStr "--- Begin Main Chunk ---") (top cfg !! "main_chunk_start") in
  let main_chunk_end :=
    default (PStr "--- End Main Chunk ---") (top cfg !! "main_chunk_end") in
  grouped_chunks ← group_chunks doc_id_key input_data;
  results ← for_M (process_group peripheral_config content_key order_key
                                 main_chunk_start main_chunk_end)
                  grouped_chunks [];
  mret (results, 0).

(** ** Vocabulary of the statements *)

(** [int(config.get(section, {}).get("count", 0))], the count the window
    loop works with. *)
Definition count_of (config : direction_config) (section : string) : result Z :=
  int (default (PInt 0) (default ∅ (config !! section) !! "count")).

(** The pairs [enumerate] yields, counting from [i]. *)
Definition enumerate {A} (i : nat) (l : list A) : list (nat * A) :=
  zip (seq i (length l)) l.

(** A rendered chunk starts with ["[Chunk "]; a placeholder does not. *)
Fixpoint starts_with (prefix s : string) : bool :=
  match prefix, s with
  | "", _ => true
  | String a prefix', String b s' => Ascii.eqb a b && starts_with prefix' s'
  | String _ _, "" => false
  end.

Definition is_chunk_line (s : string) : bool := starts_with "[Chunk " s.

(** The neighbours that are not skipped, with their index. *)
Definition shown (chunks : list record) (config : direction_config)
    (head_count tail_count : Z) (i : nat) (l : list record)
    : list (nat * record) :=
  filter (λ jc, classify chunks config head_count tail_count jc.1 ≠ Skipped)
         (enumerate i l).

(** The indices below [n] that fall in bucket [b]. *)
Definition indices_of (chunks : list record) (config : direction_config)
    (head_count tail_count : Z) (b : bucket) : list nat :=
  filter (λ i, classify chunks config head_count tail_count i = b)
         (seq 0 (length chunks)).

(** The number of positions of [s] at which [pat] occurs. *)
Fixpoint occurrences (pat s : string) : nat :=
  (if starts_with pat s then 1 else 0) +
  match s with
  | "" => 0
  | String _ s' => occurrences pat s'
  end.

(** The value of field [k] of the record at [l], when there is one. *)
Definition field (h : heap) (k : pyval) (l : loc) : option pyval :=
  match h !! l with
  | Some r => match getitem r k with Ok v => Some v | Err _ => None end
  | None => None
  end.

(** The distinct elements of a list in the order of their first
    occurrence. *)
Definition first_seen {A} `{EqDecision A} (l : list A) : list A :=
  foldl (λ acc x, if bool_decide (x ∈ acc) then acc else acc ++ [x]) [] l.

(** The groups built from the chunks paired with their document
    identity. *)
Definition grouping (ps : list (pyval * loc)) : groups :=
  foldl (λ g p, append_chunk p.1 p.2 g) [] ps.

(** Key [a] may stand before key [b] in ascending order: [b < a] is
    defined and false. *)
Definition ascending (a b : pyval) : Prop := lt b a = Ok false.

(** [s] is what [sort_chunks] makes of the group [g] in store [h]. *)
Definition sorted_from (h : heap) (order_key : pyval) (g s : list loc) : Prop :=
  ∃ keys ks,
    Forall2 (λ l k, field h order_key l = Some k) g keys ∧
    sort_keyed (zip keys g) = Ok ks ∧ s = ks.*2.

(** [rec] is the copy of the chunk at position [jsrc.1] of a sorted group
    with records [records], extended with the formatted text. *)
Definition formatted_copy (h : heap) (peripheral_config : peripheral)
    (content_key order_key main_chunk_start main_chunk_end : pyval)
    (records : list record) (jsrc : nat * loc) (rec : record) : Prop :=
  ∃ r f,
    h !! jsrc.2 = Some r ∧
    format_chunk_with_context records jsrc.1 peripheral_config content_key
      order_key main_chunk_start main_chunk_end = Ok f ∧
    rec = <[formatted_key content_key := PStr f]> r.

(** [ext] holds the copies made for the sorted group [s]. *)
Definition group_copies (h : heap) (peripheral_config : peripheral)
    (content_key order_key main_chunk_start main_chunk_end : pyval)
    (s : list loc) (ext : list record) : Prop :=
  ∃ records,
    Forall2 (λ l r, h !! l = Some r) s records ∧
    Forall2 (formatted_copy h peripheral_config content_key order_key
               main_chunk_start main_chunk_end records)
            (enumerate 0 s) ext.

(** The markers execute works with: the configured ones or the
    defaults. *)
Definition start_marker (cfg : config) : pyval :=
  default (PStr "--- Begin Main Chunk ---") (top cfg !! "main_chunk_start").

Definition end_marker (cfg : config) : pyval :=
  default (PStr "--- End Main Chunk ---") (top cfg !! "main_chunk_end").

(** The copy of the chunk at [src], with the formatted text set under
    the content key, a text, followed by ["_formatted"]. *)
Definition copy_with (h : heap) (ck : pyval) (src : loc) (rec : record) : Prop :=
  ∃ name r f,
    ck = PStr name ∧ h !! src = Some r ∧
    rec = <[name +:+ "_formatted" := PStr f]> r.

(** A value that an f-string can insert: any value but an integer of
    more than [max_str_digits] digits. *)
Definition printable (v : pyval) : Prop := is_Ok (str v).

(** The record holds a printable value under [key]. *)
Definition holds (r : record) (key : pyval) : Prop :=
  ∃ v, getitem r key = Ok v ∧ printable v.

(** What the window loop reads in a neighbour: the order key, the content
    as text, and the content key of each section. *)
Definition shows (config : direction_config) (content_key order_key : pyval)
    (r : record) : Prop :=
  holds r order_key ∧
  (∃ s, getitem r content_key = Ok (PStr s)) ∧
  Forall (λ section,
            holds r (default content_key
                       (default ∅ (config !! section) !! "content_key")))
         ["head"; "middle"; "tail"].

(** A record that holds what execute reads: the document identity and
    what the window of each direction reads. *)
Definition readable_record (pc : peripheral) (ck dk ok : pyval) (r : record)
    : Prop :=
  is_Ok (getitem r dk) ∧
  Forall (λ direction, shows (default ∅ (pc !! direction)) ck ok r)
         ["previous"; "next"].

(** The order keys of the records at [ls] can be compared with one
    another. *)
Definition comparable (h : heap) (ok : pyval) (ls : list loc) : Prop :=
  Forall (λ l1, Forall (λ l2,
            match field h ok l1, field h ok l2 with
            | Some k1, Some k2 => is_Ok (lt k1 k2)
            | _, _ => True
            end) ls) ls.

(** The references of [ls] point to readable records with comparable
    order keys. *)
Definition readable (h : heap) (pc : peripheral) (ck dk ok : pyval)
    (ls : list loc) : Prop :=
  Forall (λ l, ∃ r, h !! l = Some r ∧ readable_record pc ck dk ok r) ls ∧
  comparable h ok ls.

(** The head and tail counts of both directions can be read as
    integers. *)
Definition counts_readable (pc : peripheral) : Prop :=
  Forall (λ direction,
            Forall (λ section,
                      is_Ok (count_of (default ∅ (pc !! direction)) section))
                   ["head"; "tail"])
         ["previous"; "next"].

(** The head and tail counts of both directions are integers, or absent
    and taken as 0. *)
Definition counts_integer (pc : peripheral) : Prop :=
  Forall (λ direction,
            Forall (λ section,
                      ∃ z, default (PInt 0)
                             (default ∅ (default ∅ (pc !! direction) !! section)
                                !! "count") = PInt z)
                   ["head"; "tail"])
         ["previous"; "next"].

(** The violations of the configuration, each with the exception that
    reports it. *)
Inductive config_error (cfg : config) : exn → Prop :=
  | missing_required (key : string) :
      key ∈ ["content_key"; "doc_id_key"; "order_key"] →
      top cfg !! key = None →
      config_error cfg
        (ValueError ("Missing required key '" +:+ key +:+
                     "' in GatherOperation configuration"))
  | missing_peripheral :
      peripheral_chunks cfg = None →
      config_error cfg
        (ValueError "Missing 'peripheral_chunks' configuration in GatherOperation")
  | missing_count (pc : peripheral) (direction section : string)
        (dc : gmap string (gmap string pyval)) (sc : gmap string pyval) :
      peripheral_chunks cfg = Some pc →
      direction ∈ ["previous"; "next"] → section ∈ ["head"; "tail"] →
      pc !! direction = Some dc → dc !! section = Some sc →
      sc !! "count" = None →
      config_error cfg
        (ValueError ("Missing 'count' in " +:+ direction +:+ "." +:+
                     section +:+ " configuration"))
  | bad_marker (key : string) (v : pyval) :
      key ∈ ["main_chunk_start"; "main_chunk_end"] →
      top cfg !! key = Some v → isinstance_str v = false →
      config_error cfg (TypeError ("'" +:+ key +:+ "' must be a string")).

Definition invalid (cfg : config) : Prop := ∃ e, config_error cfg e.

(** The configuration [cfg] with the count of [section] of [direction]
    set to [v]; a configuration that holds [v] there is of this form. *)
Definition with_count (cfg : config) (direction section : string) (v : pyval)
    : config :=
  let pc := default ∅ (peripheral_chunks cfg) in
  let dc := default ∅ (pc !! direction) in
  let sc := default ∅ (dc !! section) in
  Config (top cfg)
         (Some (<[direction := <[section := <["count" := v]> sc]> dc]> pc)).

(** Two direction configurations the window loop cannot tell apart. *)
Definition same_window (c1 c2 : direction_config) : Prop :=
  count_of c1 "head" = count_of c2 "head" ∧
  count_of c1 "tail" = count_of c2 "tail" ∧
  (is_Some (c1 !! "middle") ↔ is_Some (c2 !! "middle")) ∧
  ∀ section, default ∅ (c1 !! section) !! "content_key"
             = default ∅ (c2 !! section) !! "content_key".

(** ** Vocabulary of the window *)

(** Among [n] neighbours, the number classified head and the index of
    the first one classified tail. *)
Definition head_end (n : nat) (head_count : Z) : nat :=
  Z.to_nat (Z.min (Z.of_nat n) head_count).

Definition tail_start (n : nat) (head_count tail_count : Z) : nat :=
  head_end n head_count `max` Z.to_nat (Z.min (Z.of_nat n) (Z.of_nat n - tail_count)).

(** The lines of a window over the list as the loop sees it: the head
    neighbours, then the neighbours between head and tail (rendered when
    a middle section is configured, replaced by one placeholder when
    not), then the tail neighbours. *)
Definition window_lines (l : list record) (config : direction_config)
    (content_key order_key : pyval) (head_count tail_count : Z)
    : result (list string) :=
  let a := head_end (length l) head_count in
  let b := tail_start (length l) head_count tail_count in
  heads ← map_result (render config content_key order_key Head) (take a l);
  between ←
    (if bool_decide (is_Some (config !! "middle"))
     then map_result (render config content_key order_key Middle)
                     (take (b - a) (drop a l))
     else if bool_decide (a < b)%nat
          then total ← skipped_chars l content_key;
               Ok [skip_line (Z.of_nat (b - a) * total)]
          else Ok []);
  tails ← map_result (render config content_key order_key Tail) (drop b l);
  Ok (heads ++ between ++ tails).

(** The lines of a window that do not render a chunk. *)
Definition placeholders (lines : list string) : list string :=
  filter (λ s, ¬ is_chunk_line s) lines.

(** The text of a rendered neighbour: its order value, the label of a
    summary when [key] is not the content key, and the value under
    [key]. *)
Definition chunk_line (content_key key o v : pyval) : string :=
  "[Chunk " +:+ text o +:+
  (if bool_decide (key = content_key) then "" else " (Summary)") +:+
  "] " +:+ text v.

(** The key a section reads the text of a neighbour from. *)
Definition section_key (config : direction_config) (content_key : pyval)
    (section : string) : pyval :=
  default content_key (default ∅ (config !! section) !! "content_key").

(** The keys the window of one direction may read in a neighbour. *)
Definition keys_read (config : direction_config) (content_key order_key : pyval)
    : list pyval :=
  [content_key; order_key] ++
  (section_key config content_key <$> ["head"; "middle"; "tail"]).

(** Two records hold the same under the keys that either direction
    reads. *)
Definition same_fields (pc : peripheral) (content_key order_key : pyval)
    (r1 r2 : record) : Prop :=
  ∀ k, k ∈ keys_read (default ∅ (pc !! "previous")) content_key order_key ++
           keys_read (default ∅ (pc !! "next")) content_key order_key →
       getitem r1 k = getitem r2 k.

(** ** Vocabulary of the validation *)

(** What one check of the validator reports: a required key that is
    missing, a head or tail section declared without a count, a marker
    that is not a string. *)
Definition key_violation (cfg : config) (key : string) : list exn :=
  match top cfg !! key with
  | Some _ => []
  | None => [ValueError ("Missing required key '" +:+ key +:+
                         "' in GatherOperation configuration")]
  end.

Definition count_violation (pc : peripheral) (direction section : string)
    : list exn :=
  match pc !! direction with
  | Some dc =>
      match dc !! section with
      | Some sc =>
          match sc !! "count" with
          | Some _ => []
          | None => [ValueError ("Missing 'count' in " +:+ direction +:+ "." +:+
                                 section +:+ " configuration")]
          end
      | None => []
      end
  | None => []
  end.

Definition marker_violation (cfg : config) (key : string) : list exn :=
  match top cfg !! key with
  | Some (PStr _) | None => []
  | Some _ => [TypeError ("'" +:+ key +:+ "' must be a string")]
  end.

(** The violations of a configuration in the order the validator looks
    for them. *)
Definition violations (cfg : config) : list exn :=
  key_violation cfg "content_key" ++ key_violation cfg "doc_id_key" ++
  key_violation cfg "order_key" ++
  match peripheral_chunks cfg with
  | None => [ValueError "Missing 'peripheral_chunks' configuration in GatherOperation"]
  | Some pc =>
      count_violation pc "previous" "head" ++
      count_violation pc "previous" "tail" ++
      count_violation pc "next" "head" ++ count_violation pc "next" "tail"
  end ++
  marker_violation cfg "main_chunk_start" ++
  marker_violation cfg "main_chunk_end".

(** The validator raises the first violation, and returns when there is
    none. *)
Definition first_violation (vs : list exn) : result () :=
  match vs with
  | [] => Ok ()
  | e :: _ => Err e
  end.

(** ** Vocabulary of the runs *)

(** The first of the four entries both execute and the validator need
    that the configuration lacks. *)
Definition first_missing (cfg : config) : option string :=
  if top cfg !! "content_key" is None then Some "content_key"
  else if top cfg !! "doc_id_key" is None then Some "doc_id_key"
  else if top cfg !! "order_key" is None then Some "order_key"
  else if peripheral_chunks cfg is None then Some "peripheral_chunks"
  else None.

(** The message of the validator for a missing entry. *)
Definition missing_message (key : string) : string :=
  if decide (key = "peripheral_chunks")
  then "Missing 'peripheral_chunks' configuration in GatherOperation"
  else "Missing required key '" +:+ key +:+ "' in GatherOperation configuration".

(** Every chunk of every sorted group with the group it belongs to and
    its position there, group after group. *)
Definition positions (ss : list (list loc)) : list (list loc * nat * loc) :=
  concat ((λ s, (λ jsrc : nat * loc, (s, jsrc.1, jsrc.2)) <$> enumerate 0 s)
            <$> ss).

(** Chunk [a] may stand before chunk [b]: when both belong to one
    document, the order key of [a] may stand before that of [b]. *)
Definition in_order (h : heap) (doc_id_key order_key : pyval) (a b : loc)
    : Prop :=
  ∀ d ka kb,
    field h doc_id_key a = Some d → field h doc_id_key b = Some d →
    field h order_key a = Some ka → field h order_key b = Some kb →
    ascending ka kb.

(** The chunks of a group, each paired with the document identity. *)
Definition pairs_of (g : pyval * list loc) : list (pyval * loc) :=
  (λ l, (g.1, l)) <$> g.2.

(** What a run knows of a sorted group [s] of document [d]: it is not
    empty, its chunks belong to [d], and they stand in ascending order of
    the order keys they hold. *)
Definition sorted_group (h : heap) (doc_id_key order_key : pyval) (d : pyval)
    (s : list loc) : Prop :=
  s ≠ [] ∧ Forall (λ l, field h doc_id_key l = Some d) s ∧
  ∃ ks : list (pyval * loc),
    s = ks.*2 ∧ StronglySorted (λ x y, ascending x.1 y.1) ks ∧
    Forall (λ p, field h order_key p.2 = Some p.1) ks.

(** The keys execute and the windows read in a record. *)
Definition keys_of_run (pc : peripheral) (content_key doc_id_key order_key : pyval)
    : list pyval :=
  doc_id_key :: order_key ::
  keys_read (default ∅ (pc !! "previous")) content_key order_key ++
  keys_read (default ∅ (pc !! "next")) content_key order_key.

(** ** Inputs of the examples *)

Definition chunk_of (doc : string) (n : Z) (text : string) : record :=
  {[ "doc" := PStr doc; "n" := PInt n; "text" := PStr text ]}.

(** The three keys of these records, with no peripheral section
    configured. *)
Definition cfg_plain : config :=
  Config {[ "content_key" := PStr "text"; "doc_id_key" := PStr "doc";
            "order_key" := PStr "n" ]} (Some ∅).

(** Scenario A of the test plan: one neighbour shown on each side. *)
Definition head1 : direction_config := {[ "head" := {[ "count" := PInt 1 ]} ]}.

Definition peripheral_A : peripheral :=
  {[ "previous" := head1; "next" := head1 ]}.

Definition cfg_A : config :=
  Config {[ "content_key" := PStr "text"; "doc_id_key" := PStr "doc";
            "order_key" := PStr "n" ]} (Some peripheral_A).

Definition document_A : list record :=
  [chunk_of "d1" 1 "a"; chunk_of "d1" 2 "bb"; chunk_of "d1" 3 "ccc";
   chunk_of "d1" 4 "dddd"; chunk_of "d1" 5 "eeeee"].

(** Its neighbour lists as the window loop sees them: what follows
    chunk 1, and what precedes chunk 3 (nearest first). *)
Definition next_of_1 : list record :=
  [chunk_of "d1" 2 "bb"; chunk_of "d1" 3 "ccc"; chunk_of "d1" 4 "dddd";
   chunk_of "d1" 5 "eeeee"].

Definition previous_of_3 : list record :=
  [chunk_of "d1" 2 "bb"; chunk_of "d1" 1 "a"].

(** Two chunks with empty text. *)
Definition blanks : list record := [chunk_of "d1" 1 ""; chunk_of "d1" 2 ""].

(** Two neighbours at the near end and three at the far end. *)
Definition head2_tail3 : direction_config :=
  {[ "head" := {[ "count" := PInt 2 ]}; "tail" := {[ "count" := PInt 3 ]} ]}.

(** A document whose first chunk quotes the default start marker. *)
Definition quoting : list record :=
  [chunk_of "d1" 1 "--- Begin Main Chunk ---"; chunk_of "d1" 2 "bb"].

Definition previous_head1 : peripheral := {[ "previous" := head1 ]}.

(** A store with one chunk, and the record execute adds to it under
    [cfg_plain]. *)
Definition solo : heap := [chunk_of "d1" 1 "a"].

Definition solo_text : string :=
  join nl ["--- Previous Context ---"; "--- End Previous Context ---"; "";
           "--- Begin Main Chunk ---"; "a"; "--- End Main Chunk ---"; "";
           "--- Next Context ---"; "--- End Next Context ---"].

Definition solo_out : record :=
  <["text_formatted" := PStr solo_text]> (chunk_of "d1" 1 "a").


(** Two documents whose chunks arrive interleaved and out of order, two
    of them with the same order key. *)
Definition interleaved : heap :=
  [chunk_of "d2" 2 "x"; chunk_of "d1" 2 "b"; chunk_of "d2" 1 "y";
   chunk_of "d1" 2 "c"; chunk_of "d1" 1 "a"].

(** The records a run adds to the store. *)
Definition added (h : heap) (run : result (list loc * cost * heap)) : heap :=
  match run with
  | Ok (_, _, h') => drop (length h) h'
  | Err _ => []
  end.

Definition interleaved_copies : heap :=
  added interleaved (execute cfg_plain [0; 1; 2; 3; 4]%nat interleaved).

(** Two documents whose chunks arrive interleaved, each document in
    ascending order, and the records a run adds for them. *)
Definition alternating : heap :=
  [chunk_of "d1" 1 "a"; chunk_of "d2" 1 "x"; chunk_of "d1" 2 "b";
   chunk_of "d2" 2 "y"].

Definition alternating_copies : heap :=
  added alternating (execute cfg_A [0; 1; 2; 3]%nat alternating).

(** The formatted texts of the results of a run. *)
Definition texts (run : result (list loc * cost * heap))
    : list (option pyval) :=
  match run with
  | Ok (outs, _, h') =>
      (λ o, default ∅ (h' !! o) !! "text_formatted") <$> outs
  | Err _ => []
  end.

(** The document, order key and text of the results of a run. *)
Definition summary (run : result (list loc * cost * heap))
    : result (list (option pyval * option pyval * option pyval)) :=
  match run with
  | Ok (outs, _, h') =>
      Ok ((λ o, let r := default ∅ (h' !! o) in
                (r !! "doc", r !! "n", r !! "text")) <$> outs)
  | Err e => Err e
  end.

(** A count spelled as a word. *)
Definition cfg_word_count : config :=
  Config {[ "content_key" := PStr "text"; "doc_id_key" := PStr "doc";
            "order_key" := PStr "n" ]}
         (Some {[ "previous" := {[ "head" := {[ "count" := PStr "two" ]} ]} ]}).

(** A head section is declared for the previous direction, without a
    count. *)
Definition cfg_no_count : config :=
  Config {[ "content_key" := PStr "text"; "doc_id_key" := PStr "doc";
            "order_key" := PStr "n" ]}
         (Some {[ "previous" := {[ "head" := ∅ ]} ]}).

(** * Properties *)

(** Both sides of an equation evaluate to the same value; the value is
    compared, not written out. *)
Ltac by_evaluation :=
  lazymatch goal with |- _ = ?rhs => vm_cast_no_check (eq_refl rhs) end.

Example int_examples :
  int (PStr "2") = Ok 2 ∧ int (PStr " -1_000 ") = Ok (-1000) ∧
  int (PStr "007") = Ok 7 ∧ int (PInt 5) = Ok 5 ∧
  int (PStr (String "160" "2")) = Ok 2 ∧
  (∃ e, int (PStr (String "028" "2")) = Err e) ∧
  (∃ e, int (PStr "two") = Err e) ∧ (∃ e, int (PStr "") = Err e) ∧
  (∃ e, int (PStr "1__0") = Err e) ∧ (∃ e, int PNone = Err e).
Proof. vm_compute. repeat split; eauto. Qed.

(** The limit on the digits of an integer: a text of 4300 digits is
    converted, one of 4301 digits is not. *)
Example digit_limit_examples :
  int (PStr (string_of_list_ascii (replicate 4300 "1"%char)))
  = Ok ((10 ^ 4300 - 1) / 9) ∧
  (∃ e, int (PStr (string_of_list_ascii (replicate 4301 "1"%char))) = Err e).
Proof. split; [vm_compute; reflexivity|vm_compute; by eexists]. Qed.

Example sort_keyed_example :
  sort_keyed [(PInt 2, "b"); (PInt 1, "x"); (PInt 2, "a"); (PInt 1, "y")]
  = Ok [(PInt 1, "x"); (PInt 1, "y"); (PInt 2, "b"); (PInt 2, "a")].
Proof. reflexivity. Qed.

(** Scenario A, chunk 3: chunk 2 and chunk 4 are shown, chunk 1 and
    chunk 5 are skipped.  The placeholders count the characters of all
    the neighbours on their side. *)
Example scenario_A_chunk_3 :
  format_chunk_with_context document_A 2 peripheral_A (PStr "text") (PStr "n")
    (PStr "--- Begin Main Chunk ---") (PStr "--- End Main Chunk ---")
  = Ok (join nl
          ["--- Previous Context ---";
           "[... 3 characters skipped ...]";
           "[Chunk 2] bb";
           "--- End Previous Context ---";
           "";
           "--- Begin Main Chunk ---";
           "ccc";
           "--- End Main Chunk ---";
           "";
           "--- Next Context ---";
           "[Chunk 4] dddd";
           "[... 9 characters skipped ...]";
           "--- End Next Context ---"]).
Proof. vm_compute. reflexivity. Qed.

(** Groups come out in the order their document is first seen, each
    sorted on the order key, equal keys in input order. *)
Example interleaved_run :
  summary (execute cfg_plain [0; 1; 2; 3; 4]%nat interleaved)
  = Ok [(Some (PStr "d2"), Some (PInt 1), Some (PStr "y"));
        (Some (PStr "d2"), Some (PInt 2), Some (PStr "x"));
        (Some (PStr "d1"), Some (PInt 1), Some (PStr "a"));
        (Some (PStr "d1"), Some (PInt 2), Some (PStr "b"));
        (Some (PStr "d1"), Some (PInt 2), Some (PStr "c"))].
Proof. vm_compute. reflexivity. Qed.

(** The run on two documents whose chunks arrive interleaved and out of
    order. *)
Example interleaved_result :
  execute cfg_plain [0; 1; 2; 3; 4]%nat interleaved
  = Ok (([5; 6; 7; 8; 9]%nat, 0), interleaved ++ interleaved_copies).
Proof. by_evaluation. Qed.

(** ** The error monad and the loops *)

(** Membership of a given element in a list that is written out. *)
Ltac in_list :=
  repeat first [apply list_elem_of_here | apply list_elem_of_further].

Lemma bind_Ok {A B} (m : result A) (f : A → result B) (b : B) :
  m ≫= f = Ok b ↔ ∃ a, m = Ok a ∧ f a = Ok b.
Proof.
  destruct m as [a|e]; simpl; split.
  - intros H. by exists a.
  - by intros (a' & [= <-] & H).
  - intros [=].
  - by intros (a' & [=] & _).
Qed.

Lemma map_result_app {A B} (f : A → result B) (l1 l2 : list A) :
  map_result f (l1 ++ l2)
  = (ys1 ← map_result f l1; ys2 ← map_result f l2; Ok (ys1 ++ ys2)).
Proof.
  induction l1 as [|x l1 IH]; simpl.
  - by destruct (map_result f l2).
  - destruct (f x) as [y|e]; simpl; [|done].
    rewrite IH. destruct (map_result f l1) as [ys1|e]; simpl; [|done].
    by destruct (map_result f l2).
Qed.

Lemma map_result_length {A B} (f : A → result B) (l : list A) (ys : list B) :
  map_result f l = Ok ys → length ys = length l.
Proof.
  revert ys. induction l as [|x l IH]; simpl; intros ys.
  - by intros [= <-].
  - destruct (f x) as [y|e]; simpl; [|done].
    destruct (map_result f l) as [ys'|e]; simpl; [|done].
    intros [= <-]. simpl. f_equal. by apply IH.
Qed.

Lemma for_enumerate_app {A St} (body : St → nat → A → result St)
    (i : nat) (l1 l2 : list A) (st : St) :
  for_enumerate body i (l1 ++ l2) st
  = (st' ← for_enumerate body i l1 st;
     for_enumerate body (i + length l1) l2 st').
Proof.
  revert i st. induction l1 as [|x l1 IH]; intros i st; simpl.
  - by rewrite Nat.add_0_r.
  - destruct (body st i x) as [st'|e]; simpl; [|done].
    rewrite IH. by replace (S i + length l1)%nat with (i + S (length l1))%nat by lia.
Qed.

(** ** The skip accounting (C1) *)

Section skip_accounting.
Variables (chunks : list record) (config : direction_config)
          (content_key order_key : pyval) (head_count tail_count : Z).

Local Abbreviation body :=
  (loop_body chunks config content_key order_key head_count tail_count).
Local Abbreviation bucket_of := (classify chunks config head_count tail_count).

Lemma skipped_chars_app (l1 l2 : list record) :
  skipped_chars (l1 ++ l2) content_key
  = (n1 ← skipped_chars l1 content_key;
     n2 ← skipped_chars l2 content_key; Ok (n1 + n2)).
Proof.
  unfold skipped_chars. rewrite map_result_app.
  destruct (map_result _ l1) as [ys1|e]; simpl; [|done].
  destruct (map_result _ l2) as [ys2|e]; simpl; [|done].
  f_equal. induction ys1 as [|y ys1 IH]; simpl; lia.
Qed.

Lemma skipped_chars_nonneg (l : list record) (n : Z) :
  skipped_chars l content_key = Ok n → 0 ≤ n.
Proof.
  revert n. induction l as [|c l IH]; intros n.
  - by intros [= <-].
  - change (c :: l) with ([c] ++ l). rewrite skipped_chars_app.
    intros (n1 & H1 & (n2 & H2 & [= <-])%bind_Ok)%bind_Ok.
    apply IH in H2. unfold skipped_chars in H1. simpl in H1.
    destruct (getitem c content_key) as [v|e]; simpl in H1; [|done].
    destruct v; simpl in H1; try done.
    injection H1 as <-. lia.
Qed.

(** The characters of a slice are counted within those of the whole
    list. *)
Lemma skipped_chars_slice (i k : nat) (total : Z) :
  skipped_chars chunks content_key = Ok total →
  ∃ s, skipped_chars (take k (drop i chunks)) content_key = Ok s ∧
       0 ≤ s ≤ total.
Proof.
  rewrite <-(take_drop i chunks) at 1.
  rewrite <-(take_drop k (drop i chunks)) at 1.
  rewrite !skipped_chars_app.
  intros (n1 & H1 & (n2 & (n3 & H3 & (n4 & H4 & [= <-])%bind_Ok)%bind_Ok
                        & [= <-])%bind_Ok)%bind_Ok.
  exists n3. split; [done|].
  apply skipped_chars_nonneg in H1, H3, H4. lia.
Qed.

Lemma loop_body_skipped (st : loop_state) (i : nat) (chunk : record) :
  bucket_of i = Skipped →
  body st i chunk
  = (n ← skipped_chars chunks content_key;
     Ok (LoopState (processed_parts st) (included_chunks st) true
                   (skip_char_count st + n))).
Proof. unfold loop_body. by intros ->. Qed.

(** A run of [k] skipped indices adds [k] times the characters of the
    whole list. *)
Lemma skip_run (total : Z) (run : list record) (i : nat) (st : loop_state) :
  skipped_chars chunks content_key = Ok total →
  (∀ j, (i ≤ j < i + length run)%nat → bucket_of j = Skipped) →
  for_enumerate body i run st
  = Ok (LoopState (processed_parts st) (included_chunks st)
                  (bool_decide (run ≠ []) || in_skip st)
                  (skip_char_count st + Z.of_nat (length run) * total)).
Proof.
  intros Htotal. revert i st.
  induction run as [|c run IH]; intros i st Hrun.
  - simpl. destruct st as [p inc b n]; simpl. do 2 f_equal. lia.
  - cbn [for_enumerate]. rewrite loop_body_skipped, Htotal by (apply Hrun; simpl; lia).
    simpl. rewrite IH by (intros j Hj; apply Hrun; simpl; lia).
    simpl. rewrite orb_true_r. do 2 f_equal. lia.
Qed.
End skip_accounting.

(** C1: the count the placeholder reports is not the number of
    characters skipped, which the comment in the loop announces.  At an
    index classified as skipped the loop adds to the accumulator the
    content lengths of the whole neighbour list as the loop sees it,
    whatever the index.  A run of [k] skipped indices entered with no
    pending skip therefore ends with the placeholder reporting [k] times
    that total, where the chunks skipped hold [s] characters; for a run
    of two or more the report is larger than [s] as soon as the list
    holds one character. *)
Theorem C1_skip_accounting (chunks : list record) (config : direction_config)
    (content_key order_key : pyval) (head_count tail_count total : Z)
    (st : loop_state) (i k : nat) :
  skipped_chars chunks content_key = Ok total →
  (i + k ≤ length chunks)%nat →
  (∀ j, (i ≤ j < i + k)%nat →
        classify chunks config head_count tail_count j = Skipped) →
  in_skip st = false →
  skip_char_count st = 0 →
  let body := loop_body chunks config content_key order_key
                        head_count tail_count in
  let run := take k (drop i chunks) in
  (∀ j chunk st0, (i ≤ j < i + k)%nat →
     body st0 j chunk
     = Ok (LoopState (processed_parts st0) (included_chunks st0) true
                     (skip_char_count st0 + total))) ∧
  ((0 < k)%nat →
    flush_skip <$> for_enumerate body i run st
    = Ok (LoopState (processed_parts st ++ [skip_line (Z.of_nat k * total)])
                    (included_chunks st) false 0)) ∧
  ∃ s, skipped_chars run content_key = Ok s ∧
       ((2 ≤ k)%nat → 0 < total → s < Z.of_nat k * total).
Proof.
  intros Htotal Hlen Hrun Hin Hcount body run.
  assert (length run = k) as Hk.
  { unfold run. rewrite length_take, length_drop. lia. }
  split; [|split].
  - intros j chunk st0 Hj. unfold body.
    rewrite loop_body_skipped, Htotal by auto. done.
  - intros Hpos. unfold body.
    rewrite (skip_run _ _ _ _ _ _ total) by (rewrite ?Hk; auto).
    rewrite Hk, Hin, Hcount. simpl.
    rewrite bool_decide_true by (intros E; rewrite E in Hk; simpl in Hk; lia).
    unfold flush_skip. simpl. do 4 f_equal.
  - destruct (skipped_chars_slice chunks content_key i k total Htotal)
      as (s & Hs & Hbound).
    exists s. split; [done|]. nia.
Qed.

Lemma C1_skip_accounting_witness :
  flush_skip <$> for_enumerate
                   (loop_body next_of_1 head1 (PStr "text") (PStr "n") 1 0)
                   1%nat (take 3 (drop 1 next_of_1)) initial_state
  = Ok (LoopState [skip_line 42] [] false 0) ∧
  ∃ s, skipped_chars (take 3 (drop 1 next_of_1)) (PStr "text") = Ok s ∧ s < 42.
Proof.
  destruct (C1_skip_accounting next_of_1 head1 (PStr "text") (PStr "n")
              1 0 14 initial_state 1 3) as (_ & Hrun & s & Hs & Hlt).
  - reflexivity.
  - simpl. lia.
  - intros j Hj.
    assert (j = 1 ∨ j = 2 ∨ j = 3)%nat as [->|[->| ->]] by lia; reflexivity.
  - reflexivity.
  - reflexivity.
  - split.
    + apply Hrun. lia.
    + exists s. split; [exact Hs|]. apply Hlt; lia.
Defined.

(** C1 at an input.  Before chunk 3 of scenario A the neighbours are
    seen as chunk 2 then chunk 1; chunk 1, at index 1, is skipped and the
    loop adds 3, the length of both texts, where the chunk skipped, and
    the neighbours from index 1 onward, hold 1 character.  And a run of
    two skipped chunks with empty text reports 0, which is the sum of
    their lengths. *)
Lemma C1_counterexample :
  classify previous_of_3 head1 1 0 1%nat = Skipped ∧
  skip_char_count <$> loop_body previous_of_3 head1 (PStr "text") (PStr "n")
                                1 0 initial_state 1%nat (chunk_of "d1" 1 "a")
  = Ok 3 ∧
  skipped_chars (drop 1 previous_of_3) (PStr "text") = Ok 1 ∧
  process_peripheral_chunks blanks ∅ (PStr "text") (PStr "n") false
  = Ok [skip_line 0] ∧
  skipped_chars blanks (PStr "text") = Ok 0.
Proof. repeat split; reflexivity. Qed.

(** ** The window: what the loop renders (C4, C5, C6) *)

Lemma render_is_chunk_line (config : direction_config)
    (content_key order_key : pyval) (b : bucket) (c : record) (line : string) :
  render config content_key order_key b c = Ok line → is_chunk_line line = true.
Proof.
  unfold render.
  intros (o & _ & (o' & _ & (v & _ & (v' & _ & [= <-])%bind_Ok)%bind_Ok)%bind_Ok)%bind_Ok.
  reflexivity.
Qed.

Lemma skip_line_not_chunk_line (n : Z) : is_chunk_line (skip_line n) = false.
Proof. reflexivity. Qed.

Lemma enumerate_cons {A} (i : nat) (x : A) (l : list A) :
  enumerate i (x :: l) = (i, x) :: enumerate (S i) l.
Proof. reflexivity. Qed.

Lemma enumerate_snd {A} (i : nat) (l : list A) : (enumerate i l).*2 = l.
Proof. unfold enumerate. apply snd_zip. by rewrite length_seq. Qed.

Section trace.
Variables (chunks : list record) (config : direction_config)
          (content_key order_key : pyval) (head_count tail_count : Z).

Local Abbreviation body :=
  (loop_body chunks config content_key order_key head_count tail_count).
Local Abbreviation bucket_of := (classify chunks config head_count tail_count).
Local Abbreviation rendered :=
  (λ (line : string) (jc : nat * record),
     render config content_key order_key (bucket_of jc.1) jc.2 = Ok line).

Lemma loop_body_shown (st : loop_state) (i : nat) (chunk : record) :
  bucket_of i ≠ Skipped →
  body st i chunk
  = (line ← render config content_key order_key (bucket_of i) chunk;
     Ok (LoopState (processed_parts (flush_skip st) ++ [line])
                   (included_chunks st ++ [chunk])
                   false (skip_char_count (flush_skip st)))).
Proof.
  unfold loop_body. intros Hb.
  assert (included_chunks (flush_skip st) = included_chunks st ∧
          in_skip (flush_skip st) = false) as [-> ->].
  { unfold flush_skip. by destruct (in_skip st) eqn:E. }
  by destruct (bucket_of i).
Qed.

Lemma flush_skip_parts (st : loop_state) :
  ∃ pending, processed_parts (flush_skip st) = processed_parts st ++ pending ∧
             filter is_chunk_line pending = [] ∧
             Forall (λ s, ∃ n, s = skip_line n) pending.
Proof.
  unfold flush_skip. destruct (in_skip st).
  - eexists [_]. simpl. split; [done|]. split; [|by eauto].
    rewrite filter_cons_False; [done|].
    cbv beta. rewrite skip_line_not_chunk_line. auto.
  - exists []. by rewrite app_nil_r.
Qed.

(** Every index that is not skipped contributes its chunk to
    [included_chunks] and one rendered line, in order; the other lines
    are placeholders. *)
Lemma loop_trace (l : list record) (i : nat) (st st' : loop_state) :
  for_enumerate body i l st = Ok st' →
  included_chunks st' = included_chunks st ++ (shown chunks config head_count tail_count i l).*2 ∧
  ∃ lines, processed_parts st' = processed_parts st ++ lines ∧
           Forall2 rendered (filter is_chunk_line lines)
                   (shown chunks config head_count tail_count i l) ∧
           Forall (λ s, is_chunk_line s ∨ ∃ n, s = skip_line n) lines.
Proof.
  revert i st. induction l as [|c l IH]; intros i st.
  - intros [= <-]. rewrite app_nil_r. split; [done|].
    exists []. by rewrite app_nil_r.
  - cbn [for_enumerate]. intros (st1 & Hbody & Hrest)%bind_Ok.
    apply IH in Hrest as (Hinc & lines & Hparts & Hlines & Hkinds).
    unfold shown in *. rewrite enumerate_cons.
    destruct (decide (bucket_of i = Skipped)) as [Hskip|Hshow].
    + rewrite loop_body_skipped in Hbody by done.
      apply bind_Ok in Hbody as (n & _ & [= <-]). simpl in *.
      rewrite filter_cons_False by (simpl; auto).
      split; [done|]. by exists lines.
    + rewrite loop_body_shown in Hbody by done.
      apply bind_Ok in Hbody as (line & Hline & [= <-]).
      cbn [included_chunks processed_parts] in Hinc, Hparts.
      rewrite filter_cons_True by done.
      split; [by rewrite Hinc, <-app_assoc|].
      destruct (flush_skip_parts st) as (pending & Hpend & Hnone & Hpending).
      rewrite Hpend in Hparts.
      exists (pending ++ line :: lines). split.
      { rewrite Hparts. by rewrite <-!app_assoc. }
      split.
      * rewrite filter_app, Hnone. simpl.
        rewrite filter_cons_True
          by (by rewrite (render_is_chunk_line _ _ _ _ _ _ Hline)).
        by constructor.
      * apply Forall_app. split; [by eapply Forall_impl; eauto|].
        constructor; [|done]. left.
        by rewrite (render_is_chunk_line _ _ _ _ _ _ Hline).
Qed.

(** With no skipped index the loop is a plain map. *)
Lemma loop_all_shown (l : list record) (i : nat) (st : loop_state) :
  in_skip st = false →
  (∀ j, (i ≤ j < i + length l)%nat → bucket_of j ≠ Skipped) →
  for_enumerate body i l st
  = (lines ← map_result (λ jc, render config content_key order_key
                                       (bucket_of jc.1) jc.2)
                        (enumerate i l);
     Ok (LoopState (processed_parts st ++ lines) (included_chunks st ++ l)
                   false (skip_char_count st))).
Proof.
  revert i st. induction l as [|c l IH]; intros i st Hin Hall.
  - simpl. rewrite !app_nil_r. by destruct st; simplify_eq/=.
  - rewrite enumerate_cons. cbn [for_enumerate map_result].
    rewrite loop_body_shown by (apply Hall; simpl; lia).
    assert (flush_skip st = st) as -> by (unfold flush_skip; by rewrite Hin).
    simpl. destruct (render _ _ _ _ c) as [line|e]; simpl; [|done].
    rewrite IH by (try done; intros j Hj; apply Hall; simpl; lia).
    simpl. destruct (map_result _ _) as [lines|e]; simpl; [|done].
    by rewrite <-!app_assoc.
Qed.
End trace.

Lemma map_result_Forall2 {A B} (f : A → result B) (l : list A) (ys : list B) :
  map_result f l = Ok ys ↔ Forall2 (λ x y, f x = Ok y) l ys.
Proof.
  revert ys. induction l as [|x l IH]; intros ys; simpl.
  - split; [intros [= <-]; constructor | by inversion 1].
  - split.
    + intros (y & Hy & (ys' & Hys & [= <-])%bind_Ok)%bind_Ok.
      constructor; [done|]. by apply IH.
    + inversion 1 as [|? y ? ys' Hy Hys]; simplify_eq.
      rewrite Hy. simpl. apply IH in Hys. by rewrite Hys.
Qed.

Lemma map_result_ext {A B} (f g : A → result B) (l : list A) :
  (∀ x, x ∈ l → f x = g x) → map_result f l = map_result g l.
Proof.
  induction l as [|x l IH]; intros Hfg; simpl; [done|].
  rewrite Hfg by left. rewrite IH; [done|]. intros y Hy. apply Hfg. by right.
Qed.

Lemma elem_of_enumerate {A} (i j : nat) (x : A) (l : list A) :
  (j, x) ∈ enumerate i l → (i ≤ j < i + length l)%nat.
Proof.
  unfold enumerate. intros H%elem_of_zip_l. apply elem_of_seq in H. lia.
Qed.


(** The final state of the loop: one rendered line for every index that
    is not skipped, in the order of the list; the chunks of these indices
    in [included_chunks]; all other lines placeholders. *)
Lemma process_loop_trace (l : list record) (config : direction_config)
    (content_key order_key : pyval) (st : loop_state) :
  process_loop l config content_key order_key = Ok st →
  ∃ hc tc,
    count_of config "head" = Ok hc ∧ count_of config "tail" = Ok tc ∧
    included_chunks st = (shown l config hc tc 0 l).*2 ∧
    Forall2 (λ line jc, render config content_key order_key
                               (classify l config hc tc jc.1) jc.2 = Ok line)
            (filter is_chunk_line (processed_parts st))
            (shown l config hc tc 0 l) ∧
    Forall (λ s, is_chunk_line s ∨ ∃ n, s = skip_line n) (processed_parts st).
Proof.
  unfold process_loop.
  intros (hc & Hhc & (tc & Htc & (st0 & Hloop & [= <-])%bind_Ok)%bind_Ok)%bind_Ok.
  exists hc, tc. do 2 (split; [done|]).
  apply loop_trace in Hloop as (Hinc & lines & Hparts & Hlines & Hkinds).
  simpl in Hinc, Hparts.
  destruct (flush_skip_parts st0) as (pending & Hpend & Hnone & Hpending).
  rewrite Hpend, Hparts. split; [|split].
  - rewrite <-Hinc. unfold flush_skip. by destruct (in_skip st0).
  - by rewrite filter_app, Hnone, app_nil_r.
  - apply Forall_app. split; [done|]. eapply Forall_impl; eauto.
Qed.

(** C4: when the head and tail counts are not negative and together
    cover the neighbour list, every index is classified head or tail, the
    head test deciding where both hold; the function is then a plain map
    of the rendering over the list, and no line of its result is a
    placeholder. *)
Theorem C4_window_complete (chunks : list record) (config : direction_config)
    (content_key order_key : pyval) (reverse : bool) (hc tc : Z) :
  count_of config "head" = Ok hc →
  count_of config "tail" = Ok tc →
  0 ≤ hc → 0 ≤ tc → Z.of_nat (length chunks) ≤ hc + tc →
  let l := if reverse then reversed chunks else chunks in
  let bucket_at (i : nat) := if bool_decide (Z.of_nat i < hc) then Head else Tail in
  (∀ i, (i < length l)%nat → classify l config hc tc i = bucket_at i) ∧
  process_peripheral_chunks chunks config content_key order_key reverse
  = (lines ← map_result (λ jc, render config content_key order_key
                                      (bucket_at jc.1) jc.2)
                        (enumerate 0 l);
     Ok (if reverse then reversed lines else lines)) ∧
  (∀ lines,
     process_peripheral_chunks chunks config content_key order_key reverse
     = Ok lines →
     length lines = length chunks ∧ ∀ n, skip_line n ∉ lines).
Proof.
  intros Hhc Htc Hh Ht Hcover l bucket_at.
  assert (length l = length chunks) as Hlen.
  { unfold l. destruct reverse; [apply length_reverse|done]. }
  assert (∀ i, (i < length l)%nat → classify l config hc tc i = bucket_at i)
    as Hclass.
  { intros i Hi. unfold classify, bucket_at, total_chunks.
    case_bool_decide; [done|]. rewrite bool_decide_true; [done|lia]. }
  assert (process_peripheral_chunks chunks config content_key order_key reverse
          = (lines ← map_result (λ jc, render config content_key order_key
                                              (bucket_at jc.1) jc.2)
                                (enumerate 0 l);
             Ok (if reverse then reversed lines else lines))) as Heq.
  { unfold process_peripheral_chunks, process_loop. fold l.
    unfold count_of in Hhc, Htc. rewrite Hhc, Htc. simpl.
    rewrite loop_all_shown; [|done|].
    - rewrite (map_result_ext _ (λ jc, render config content_key order_key
                                              (bucket_at jc.1) jc.2)).
      + by destruct (map_result _ _).
      + intros [j c] Hj%elem_of_enumerate. simpl. rewrite Hclass; [done|lia].
    - intros j Hj. rewrite Hclass by lia. unfold bucket_at.
      by case_bool_decide. }
  split; [done|]. split; [done|].
  intros lines. rewrite Heq.
  intros (lines0 & Hmap & [= <-])%bind_Ok.
  assert (length lines0 = length chunks) as Hlen0.
  { apply map_result_length in Hmap. rewrite Hmap. unfold enumerate.
    rewrite length_zip, length_seq. lia. }
  split.
  { destruct reverse; [by rewrite length_reverse|done]. }
  intros n Hin.
  assert (skip_line n ∈ lines0) as Hin0.
  { destruct reverse; [by apply elem_of_reverse|done]. }
  apply map_result_Forall2 in Hmap.
  apply (Forall2_Forall_r _ (λ line, is_chunk_line line = true)) in Hmap.
  - rewrite Forall_forall in Hmap. apply Hmap in Hin0.
    by rewrite skip_line_not_chunk_line in Hin0.
  - apply Forall_forall. intros [j c] _ line Hline.
    by eapply render_is_chunk_line.
Qed.

Lemma C4_window_complete_witness :
  ∃ lines,
    process_peripheral_chunks next_of_1 head2_tail3 (PStr "text") (PStr "n") true
    = Ok lines ∧
    length lines = length next_of_1 ∧ skip_line 14 ∉ lines.
Proof.
  destruct (C4_window_complete next_of_1 head2_tail3 (PStr "text") (PStr "n")
              true 2 3) as (_ & _ & Hno).
  - reflexivity.
  - reflexivity.
  - lia.
  - lia.
  - simpl. lia.
  - eexists. split; [reflexivity|].
    destruct (Hno _ eq_refl) as [Hlen Hnone]. split; [exact Hlen|apply Hnone].
Defined.

Lemma bucket_partition (f : nat → bucket) (l : list nat) :
  concat ((λ b, filter (λ i, f i = b) l) <$> [Head; Tail; Middle; Skipped]) ≡ₚ l.
Proof.
  cbn [fmap list_fmap concat]. rewrite app_nil_r.
  induction l as [|i l IH]; [done|].
  rewrite !filter_cons.
  cbv beta.
  destruct (f i) eqn:E; repeat case_decide; try done;
    rewrite <-?app_comm_cons.
  - by rewrite IH.
  - rewrite <-Permutation_middle. by rewrite IH.
  - rewrite app_assoc, <-Permutation_middle, <-app_assoc. by rewrite IH.
  - rewrite !app_assoc, <-Permutation_middle, <-!app_assoc. by rewrite IH.
Qed.

(** C5: the buckets partition the indices of the neighbour list: listing
    the indices of head, tail, middle and skipped one after the other
    gives every index exactly once, whatever the counts.  The lines of
    the result that render a chunk are, in order, one line for each index
    that is not skipped, rendered in the bucket of that index. *)
Theorem C5_partition (chunks : list record) (config : direction_config)
    (content_key order_key : pyval) (reverse : bool) :
  let l := if reverse then reversed chunks else chunks in
  (∀ hc tc,
     concat (indices_of l config hc tc <$> [Head; Tail; Middle; Skipped])
       ≡ₚ seq 0 (length l) ∧
     ∀ i, (i < length l)%nat →
          ∀ b, i ∈ indices_of l config hc tc b ↔ classify l config hc tc i = b) ∧
  (∀ lines,
     process_peripheral_chunks chunks config content_key order_key reverse
     = Ok lines →
     ∃ hc tc,
       count_of config "head" = Ok hc ∧ count_of config "tail" = Ok tc ∧
       Forall2 (λ line jc, render config content_key order_key
                                  (classify l config hc tc jc.1) jc.2 = Ok line)
               (filter is_chunk_line (if reverse then reversed lines else lines))
               (shown l config hc tc 0 l)).
Proof.
  intros l. split.
  - intros hc tc. split.
    + apply (bucket_partition (classify l config hc tc)).
    + intros i Hi b. unfold indices_of.
      rewrite list_elem_of_filter, elem_of_seq.
      split; [by intros [? _]|]. intros ?. split; [done|lia].
  - intros lines Hrun. unfold process_peripheral_chunks in Hrun.
    cbv zeta in Hrun. apply bind_Ok in Hrun as (st & Hloop & [= <-]).
    fold l in Hloop.
    apply process_loop_trace in Hloop as (hc & tc & Hhc & Htc & _ & Hlines & _).
    exists hc, tc. do 2 (split; [done|]).
    destruct reverse; [by rewrite reverse_involutive|done].
Qed.

Lemma C5_partition_witness :
  concat (indices_of next_of_1 head1 1 0 <$> [Head; Tail; Middle; Skipped])
    ≡ₚ seq 0 (length next_of_1) ∧
  length (filter is_chunk_line
            ["[Chunk 2] bb"; "[... 42 characters skipped ...]"])
  = length (shown next_of_1 head1 1 0 0 next_of_1).
Proof.
  destruct (C5_partition next_of_1 head1 (PStr "text") (PStr "n") false)
    as [Hpartition Hlines].
  split; [exact (proj1 (Hpartition 1 0))|].
  destruct (Hlines ["[Chunk 2] bb"; "[... 42 characters skipped ...]"])
    as (hc & tc & Hhc & Htc & Hrendered).
  - reflexivity.
  - injection Hhc as <-. injection Htc as <-.
    exact (Forall2_length _ _ _ Hrendered).
Defined.




(** ** The assembled block (C7) *)

Lemma string_app_assoc (s1 s2 s3 : string) :
  (s1 +:+ s2) +:+ s3 = s1 +:+ (s2 +:+ s3).
Proof.
  induction s1 as [|a s1 IH]; [done|].
  change (String a ((s1 +:+ s2) +:+ s3) = String a (s1 +:+ s2 +:+ s3)).
  by rewrite IH.
Qed.

Lemma join_cons (sep p : string) (ps : list string) :
  ps ≠ [] → join sep (p :: ps) = p +:+ sep +:+ join sep ps.
Proof. by destruct ps. Qed.

Lemma join_app (sep : string) (l1 l2 : list string) :
  l1 ≠ [] → l2 ≠ [] →
  join sep (l1 ++ l2) = join sep l1 +:+ sep +:+ join sep l2.
Proof.
  intros H1 H2. induction l1 as [|p l1 IH]; [done|].
  destruct l1 as [|q l1].
  - simpl. by destruct l2.
  - change ((p :: q :: l1) ++ l2) with (p :: ((q :: l1) ++ l2)).
    rewrite !join_cons by done. rewrite IH by done.
    by rewrite !string_app_assoc.
Qed.

Lemma starts_with_app (pat s : string) : starts_with pat (pat +:+ s) = true.
Proof.
  induction pat as [|a pat IH]; [done|].
  change (Ascii.eqb a a && starts_with pat (pat +:+ s) = true).
  by rewrite Ascii.eqb_refl, IH.
Qed.

Lemma occurrences_app (pat before after : string) :
  (1 ≤ occurrences pat (before +:+ pat +:+ after))%nat.
Proof.
  induction before as [|a before IH].
  - change ("" +:+ pat +:+ after) with (pat +:+ after).
    destruct (pat +:+ after) eqn:E; cbn [occurrences];
      rewrite <-E, starts_with_app; lia.
  - change (String a before +:+ pat +:+ after)
      with (String a (before +:+ pat +:+ after)).
    cbn [occurrences]. lia.
Qed.

Lemma join_context (previous next : list string) (main : string) :
  join nl (["--- Previous Context ---"] ++ previous ++
           ["--- End Previous Context ---" +:+ nl; main;
            nl +:+ "--- Next Context ---"] ++ next ++
           ["--- End Next Context ---"])
  = (join nl ("--- Previous Context ---" :: previous) +:+ nl +:+
     "--- End Previous Context ---" +:+ nl +:+ nl) +:+ main +:+
    (nl +:+ nl +:+ "--- Next Context ---" +:+ nl +:+
     join nl (next ++ ["--- End Next Context ---"])).
Proof.
  assert (next ++ ["--- End Next Context ---"] ≠ []) by (by destruct next).
  rewrite (app_assoc _ previous), join_app; [|by intros []%app_eq_nil..].
  rewrite (join_app _ [_; _; _]); [|done..].
  change (["--- Previous Context ---"] ++ previous)
    with ("--- Previous Context ---" :: previous).
  change (join nl ["--- End Previous Context ---" +:+ nl; main;
                   nl +:+ "--- Next Context ---"])
    with (("--- End Previous Context ---" +:+ nl) +:+ nl +:+ main +:+ nl +:+
          (nl +:+ "--- Next Context ---")).
  by rewrite !string_app_assoc.
Qed.

(** Only a text finds an entry in a dictionary with text keys. *)
Lemma getitem_text_key (d : gmap string pyval) (k v : pyval) :
  getitem d k = Ok v → ∃ name, k = PStr name.
Proof. destruct k; [done..|]. by eexists. Qed.

Lemma str_Ok (v : pyval) (s : string) : str v = Ok s → s = text v.
Proof.
  destruct v as [|z|t]; simpl; [congruence| |congruence].
  case_bool_decide; congruence.
Qed.

Lemma str_text (v : pyval) : printable v → str v = Ok (text v).
Proof. intros [s Hs]. by rewrite Hs, (str_Ok _ _ Hs). Qed.

Lemma main_block_Ok (main_chunk_start : pyval) (main_chunk : record)
    (content_key main_chunk_end : pyval) (block : string) :
  main_block main_chunk_start main_chunk content_key main_chunk_end = Ok block ↔
  ∃ content,
    getitem main_chunk content_key = Ok content ∧
    printable main_chunk_start ∧ printable content ∧ printable main_chunk_end ∧
    block = text main_chunk_start +:+ nl +:+ text content +:+ nl +:+
            text main_chunk_end.
Proof.
  unfold main_block. split.
  - intros (start & Hstart & (content & Hcontent & (body & Hbody &
              (end_ & Hend & [= <-])%bind_Ok)%bind_Ok)%bind_Ok)%bind_Ok.
    exists content. split; [done|].
    do 3 (split; [by eexists|]).
    by rewrite (str_Ok _ _ Hstart), (str_Ok _ _ Hbody), (str_Ok _ _ Hend).
  - intros (content & Hcontent & Hstart & Hbody & Hend & ->).
    rewrite (str_text _ Hstart). simpl. rewrite Hcontent. simpl.
    rewrite (str_text _ Hbody). simpl. by rewrite (str_text _ Hend).
Qed.

(** The parts a returned string is made of. *)
Lemma format_chunk_with_context_Ok (chunks : list record) (current_index : nat)
    (peripheral_config : peripheral)
    (content_key order_key main_chunk_start main_chunk_end : pyval)
    (out : string) :
  format_chunk_with_context chunks current_index peripheral_config
    content_key order_key main_chunk_start main_chunk_end = Ok out →
  ∃ main_chunk content previous next,
    chunks !! current_index = Some main_chunk ∧
    getitem main_chunk content_key = Ok content ∧
    process_peripheral_chunks (take current_index chunks)
      (default ∅ (peripheral_config !! "previous")) content_key order_key true
    = Ok previous ∧
    process_peripheral_chunks (drop (S current_index) chunks)
      (default ∅ (peripheral_config !! "next")) content_key order_key false
    = Ok next ∧
    out = (join nl ("--- Previous Context ---" :: previous) +:+ nl +:+
           "--- End Previous Context ---" +:+ nl +:+ nl) +:+
          (text main_chunk_start +:+ nl +:+ text content +:+ nl +:+
           text main_chunk_end) +:+
          (nl +:+ nl +:+ "--- Next Context ---" +:+ nl +:+
           join nl (next ++ ["--- End Next Context ---"])).
Proof.
  unfold format_chunk_with_context.
  intros (previous & Hprev & (main_chunk & Hmain & (main & Hblock &
            (next & Hnext & Hout)%bind_Ok)%bind_Ok)%bind_Ok)%bind_Ok.
  destruct (chunks !! current_index) as [c|] eqn:Hc; [|done].
  injection Hmain as ->.
  apply main_block_Ok in Hblock as (content & Hcontent & _ & _ & _ & ->).
  rewrite join_context in Hout. injection Hout as <-.
  by exists main_chunk, content, previous, next.
Qed.

(** C7, as the code has it.  The returned string is the previous-context
    lines under their header, the footer and a blank line, the block made
    of the start marker, a newline, the content of the current chunk, a
    newline and the end marker, then a blank line and the next-context
    lines between header and footer.  The start marker therefore occurs in
    it, followed by the content and the end marker; nothing keeps it from
    occurring elsewhere too. *)
Theorem C7_main_block (chunks : list record) (current_index : nat)
    (peripheral_config : peripheral)
    (content_key order_key main_chunk_start main_chunk_end : pyval)
    (out : string) :
  format_chunk_with_context chunks current_index peripheral_config
    content_key order_key main_chunk_start main_chunk_end = Ok out →
  ∃ main_chunk content before after,
    chunks !! current_index = Some main_chunk ∧
    getitem main_chunk content_key = Ok content ∧
    out = before +:+
          (text main_chunk_start +:+ nl +:+ text content +:+ nl +:+
           text main_chunk_end) +:+ after ∧
    (∃ previous, before = join nl ("--- Previous Context ---" :: previous) +:+
                          nl +:+ "--- End Previous Context ---" +:+ nl +:+ nl) ∧
    (∃ next, after = nl +:+ nl +:+ "--- Next Context ---" +:+ nl +:+
                     join nl (next ++ ["--- End Next Context ---"])) ∧
    (1 ≤ occurrences (text main_chunk_start) out)%nat.
Proof.
  intros (main_chunk & content & previous & next & Hmain & Hcontent & _ & _
          & ->)%format_chunk_with_context_Ok.
  exists main_chunk, content. eexists _, _.
  do 3 (split; [done|]). split; [by eexists|]. split; [by eexists|].
  rewrite (string_app_assoc (text main_chunk_start)). apply occurrences_app.
Qed.

Lemma C7_main_block_witness :
  ∃ out,
    format_chunk_with_context quoting 1 previous_head1 (PStr "text") (PStr "n")
      (PStr "<<") (PStr ">>") = Ok out ∧
    (1 ≤ occurrences "<<" out)%nat.
Proof.
  eexists. split; [reflexivity|].
  destruct (C7_main_block quoting 1 previous_head1 (PStr "text") (PStr "n")
              (PStr "<<") (PStr ">>") _ eq_refl)
    as (? & ? & ? & ? & _ & _ & _ & _ & _ & Hocc).
  exact Hocc.
Defined.

(** C7 as stated fails: with the default markers, the chunk before the
    current one quotes the start marker and is shown in the previous
    context, so the marker occurs twice in the result. *)
Lemma C7_counterexample :
  occurrences "--- Begin Main Chunk ---"
    <$> format_chunk_with_context quoting 1 previous_head1
          (PStr "text") (PStr "n")
          (PStr "--- Begin Main Chunk ---") (PStr "--- End Main Chunk ---")
  = Ok 2%nat.
Proof. vm_compute. reflexivity. Qed.

(** ** Grouping (C2, C3) *)

Section first_seen.
Context {A : Type} `{EqDecision A}.
Implicit Types l : list A.

Lemma first_seen_snoc l x :
  first_seen (l ++ [x])
  = if bool_decide (x ∈ first_seen l) then first_seen l
    else first_seen l ++ [x].
Proof. unfold first_seen. by rewrite foldl_snoc. Qed.

Lemma elem_of_first_seen l x : x ∈ first_seen l ↔ x ∈ l.
Proof.
  induction l as [|y l IH] using rev_ind; [done|].
  rewrite first_seen_snoc. case_bool_decide as Hy.
  - rewrite elem_of_app, list_elem_of_singleton, IH.
    split; [by left|]. intros [?| ->]; [done|]. by apply IH.
  - rewrite !elem_of_app, IH. done.
Qed.

Lemma NoDup_first_seen l : NoDup (first_seen l).
Proof.
  induction l as [|y l IH] using rev_ind; [constructor|].
  rewrite first_seen_snoc. case_bool_decide as Hy; [done|].
  apply NoDup_app. split; [done|]. split; [|apply NoDup_singleton].
  intros x Hx ->%list_elem_of_singleton. done.
Qed.

(** An element listed before another has an occurrence before every
    occurrence of the other. *)
Lemma first_seen_order l (i j : nat) (d e : A) :
  (i < j)%nat → first_seen l !! i = Some d → first_seen l !! j = Some e →
  ∃ p, l !! p = Some d ∧ ∀ q, l !! q = Some e → (p < q)%nat.
Proof.
  revert i j d e. induction l as [|y l IH] using rev_ind; [done|].
  intros i j d e Hij. rewrite first_seen_snoc. case_bool_decide as Hy.
  - intros Hi Hj. destruct (IH i j d e Hij Hi Hj) as (p & Hp & Hlt).
    exists p. split; [by apply lookup_app_l_Some|].
    intros q [Hq|[Hq _]]%lookup_app_Some; [by apply Hlt|].
    apply lookup_lt_Some in Hp. lia.
  - intros Hi Hj.
    apply lookup_app_Some in Hj as [Hj|[Hlen Hj]].
    + rewrite lookup_app_l in Hi by (apply lookup_lt_Some in Hj; lia).
      destruct (IH i j d e Hij Hi Hj) as (p & Hp & Hlt).
      exists p. split; [by apply lookup_app_l_Some|].
      intros q [Hq|[Hq _]]%lookup_app_Some; [by apply Hlt|].
      apply lookup_lt_Some in Hp. lia.
    + apply list_lookup_singleton_Some in Hj as [Hj0 <-].
      rewrite lookup_app_l in Hi by lia.
      assert (d ∈ l) as [p Hp]%list_elem_of_lookup_1.
      { apply elem_of_first_seen. by eapply list_elem_of_lookup_2. }
      exists p. split; [by apply lookup_app_l_Some|].
      intros q [Hq|[Hq _]]%lookup_app_Some.
      * destruct Hy. apply elem_of_first_seen.
        by eapply list_elem_of_lookup_2.
      * apply lookup_lt_Some in Hp. lia.
Qed.
End first_seen.

Lemma filter_none {A} (P : A → Prop) `{∀ x, Decision (P x)} (l : list A) :
  (∀ x, x ∈ l → ¬ P x) → filter P l = [].
Proof.
  induction l as [|x l IH]; intros Hl; [done|].
  rewrite filter_cons_False by (apply Hl; left).
  apply IH. intros y Hy. apply Hl. by right.
Qed.

(** The chunks of document [d] among the pairs, in their order. *)
Local Abbreviation members ps d :=
  ((filter (λ p : pyval * loc, p.1 = d) ps).*2).

Lemma grouping_snoc (ps : list (pyval * loc)) (d : pyval) (item : loc) :
  grouping (ps ++ [(d, item)]) = append_chunk d item (grouping ps).
Proof. unfold grouping. by rewrite foldl_snoc. Qed.

(** The groups are the documents in the order they are first seen, each
    with its chunks in input order. *)
Lemma grouping_spec (ps : list (pyval * loc)) :
  grouping ps = (λ d, (d, members ps d)) <$> first_seen ps.*1.
Proof.
  induction ps as [|[d item] ps IH] using rev_ind; [done|].
  replace ((ps ++ [(d, item)]).*1) with (ps.*1 ++ [d]) by (by rewrite fmap_app).
  rewrite grouping_snoc, IH, first_seen_snoc.
  unfold append_chunk. cbn [fst snd].
  assert (((λ d0, (d0, members ps d0)) <$> first_seen ps.*1).*1
          = first_seen ps.*1) as ->.
  { rewrite <-list_fmap_compose. apply list_fmap_id. }
  assert (∀ d', members (ps ++ [(d, item)]) d'
                = members ps d' ++ (if bool_decide (d' = d) then [item] else []))
    as Hmem.
  { intros d'. rewrite filter_app, fmap_app. f_equal.
    rewrite filter_cons. simpl. destruct (decide (d = d')) as [->|Hne].
    - by rewrite bool_decide_true.
    - by rewrite bool_decide_false. }
  case_bool_decide as Hd.
  - rewrite <-list_fmap_compose. apply list_fmap_ext. intros _ d' _. simpl.
    rewrite Hmem. case_bool_decide; [done|]. by rewrite app_nil_r.
  - rewrite !fmap_app. f_equal.
    + rewrite <-list_fmap_compose. apply list_fmap_ext. intros i d' Hd'. simpl.
      rewrite Hmem. rewrite bool_decide_false.
      * by rewrite app_nil_r.
      * intros ->. destruct Hd. by eapply list_elem_of_lookup_2.
    + simpl. rewrite bool_decide_true by done. rewrite Hmem.
      rewrite bool_decide_true by done. do 3 f_equal.
      assert (filter (λ p : pyval * loc, p.1 = d) ps = []) as ->; [|done].
      apply filter_none. intros p Hp Hpd. destruct Hd.
      apply elem_of_first_seen, list_elem_of_fmap. by exists p.
Qed.

(** ** Sorting (C3) *)

Lemma ltb_leb (s t : string) : String.ltb t s = false ↔ String.leb s t = true.
Proof.
  unfold String.ltb, String.leb. rewrite (String.compare_antisym s t).
  by destruct (String.compare t s).
Qed.

Lemma lt_asym (a b : pyval) : lt a b = Ok true → lt b a = Ok false.
Proof.
  destruct a as [|x|s], b as [|y|t]; simpl; try done; intros [= H]; f_equal.
  - apply bool_decide_eq_true in H. apply bool_decide_eq_false. lia.
  - unfold String.ltb in *. rewrite (String.compare_antisym t s).
    by destruct (String.compare s t).
Qed.

Lemma lt_irrefl (a : pyval) : lt a a ≠ Ok true.
Proof.
  intros H. pose proof (lt_asym _ _ H) as H'. congruence.
Qed.

Lemma ascending_trans (a b c : pyval) :
  ascending a b → ascending b c → ascending a c.
Proof.
  unfold ascending.
  destruct a as [|x|s], b as [|y|t], c as [|z|u]; simpl; try done;
    intros [= H1] [= H2]; f_equal.
  - apply bool_decide_eq_false in H1, H2. apply bool_decide_eq_false. lia.
  - apply ltb_leb in H1, H2. apply ltb_leb.
    apply Is_true_true. apply Is_true_true in H1, H2.
    exact (transitivity (R:=String.le) H1 H2).
Qed.

Section sorting.
Context {A : Type}.
Implicit Types (x : pyval * A) (l : list (pyval * A)).

Local Abbreviation before := (λ x y : pyval * A, ascending x.1 y.1).

(** The element goes in after the elements that are strictly smaller,
    in front of the first that is not. *)
Lemma insert_keyed_Ok x l l' :
  insert_keyed x l = Ok l' →
  ∃ l1 l2, l = l1 ++ l2 ∧ l' = l1 ++ x :: l2 ∧
           Forall (λ y, lt y.1 x.1 = Ok true) l1 ∧
           (∀ y, head l2 = Some y → lt y.1 x.1 = Ok false).
Proof.
  revert l'. induction l as [|y l IH]; intros l'; simpl.
  - intros [= <-]. by exists [], [].
  - intros ([] & Hlt & Hrest)%bind_Ok.
    + apply bind_Ok in Hrest as (l'' & Hins & [= <-]).
      destruct (IH _ Hins) as (l1 & l2 & -> & -> & Hl1 & Hl2).
      exists (y :: l1), l2. split; [done|]. split; [done|].
      split; [by constructor|done].
    + injection Hrest as <-. exists [], (y :: l).
      split; [done|]. split; [done|]. split; [constructor|].
      by intros ? [= <-].
Qed.

Lemma insert_keyed_sorted x l l' :
  insert_keyed x l = Ok l' →
  StronglySorted before l → StronglySorted before l'.
Proof.
  intros (l1 & l2 & -> & -> & Hl1 & Hl2)%insert_keyed_Ok Hsorted.
  apply StronglySorted_app in Hsorted as (Hcross & Hs1 & Hs2).
  apply StronglySorted_app. split; [|split; [done|]].
  - intros y z Hy [->|Hz]%elem_of_cons; [|by apply Hcross].
    rewrite Forall_forall in Hl1. by apply lt_asym, Hl1.
  - apply StronglySorted_cons. split; [|done].
    destruct l2 as [|y l2]; [constructor|].
    specialize (Hl2 y eq_refl).
    apply StronglySorted_cons in Hs2 as [Hy _].
    constructor; [done|].
    eapply Forall_impl; [exact Hy|]. intros z Hz.
    by eapply ascending_trans.
Qed.

Lemma insert_keyed_stable x l l' (v : pyval) :
  insert_keyed x l = Ok l' →
  filter (λ y, y.1 = v) l' = filter (λ y, y.1 = v) (x :: l).
Proof.
  intros (l1 & l2 & -> & -> & Hl1 & _)%insert_keyed_Ok.
  rewrite !filter_app, !filter_cons. destruct (decide (x.1 = v)) as [<-|]; [|by rewrite filter_app].
  rewrite filter_app.
  assert (filter (λ y, y.1 = x.1) l1 = []) as ->; [|done].
  apply filter_none. intros y Hy Heq.
  rewrite Forall_forall in Hl1. apply Hl1 in Hy. rewrite Heq in Hy.
  by apply lt_irrefl in Hy.
Qed.

Lemma insert_keyed_perm x l l' : insert_keyed x l = Ok l' → l' ≡ₚ x :: l.
Proof.
  intros (l1 & l2 & -> & -> & _)%insert_keyed_Ok.
  by rewrite Permutation_middle.
Qed.

(** The sort returns the elements in ascending order of their keys, and
    keeps the order of the elements that have the same key. *)
Lemma sort_keyed_Ok l l' :
  sort_keyed l = Ok l' →
  l' ≡ₚ l ∧ StronglySorted before l' ∧
  ∀ v, filter (λ y, y.1 = v) l' = filter (λ y, y.1 = v) l.
Proof.
  revert l'. induction l as [|x l IH]; intros l'; simpl.
  - intros [= <-]. split; [done|]. split; [constructor|done].
  - intros (s & Hs & Hins)%bind_Ok.
    destruct (IH _ Hs) as (Hperm & Hsorted & Hstable).
    split; [|split].
    + rewrite (insert_keyed_perm _ _ _ Hins). by constructor.
    + by eapply insert_keyed_sorted.
    + intros v. rewrite (insert_keyed_stable _ _ _ _ Hins).
      rewrite !filter_cons, Hstable. done.
Qed.
End sorting.

(** ** The store monad *)

Lemma bind_M_Ok {A B} (m : M A) (f : A → M B) (h h' : heap) (b : B) :
  (m ≫= f) h = Ok (b, h') ↔ ∃ a h1, m h = Ok (a, h1) ∧ f a h1 = Ok (b, h').
Proof.
  unfold mbind, M_bind. destruct (m h) as [[a h1]|e]; split.
  - intros H. by exists a, h1.
  - by intros (? & ? & [= <- <-] & H).
  - done.
  - by intros (? & ? & [=] & _).
Qed.

Lemma ret_M_Ok {A} (a b : A) (h h' : heap) :
  mret (M:=M) a h = Ok (b, h') ↔ b = a ∧ h' = h.
Proof. unfold mret, M_ret. split; [by intros [= <- <-]|by intros [-> ->]]. Qed.

Lemma lift_Ok {A} (r : result A) (h h' : heap) (a : A) :
  lift r h = Ok (a, h') ↔ r = Ok a ∧ h' = h.
Proof.
  unfold lift. destruct r; split; try done.
  - by intros [= <- <-].
  - by intros [[= <-] ->].
  - by intros [[=] _].
Qed.

Lemma load_Ok (l : loc) (h h' : heap) (r : record) :
  load l h = Ok (r, h') ↔ h !! l = Some r ∧ h' = h.
Proof.
  unfold load. destruct (h !! l); split; try done.
  - by intros [= <- <-].
  - by intros [[= <-] ->].
  - by intros [[=] _].
Qed.

Lemma copy_Ok (l new : loc) (h h' : heap) :
  copy l h = Ok (new, h') ↔
  ∃ r, h !! l = Some r ∧ new = length h ∧ h' = h ++ [r].
Proof.
  unfold copy. destruct (h !! l) as [r|]; split.
  - intros [= <- <-]. by exists r.
  - by intros (? & [= <-] & -> & ->).
  - done.
  - by intros (? & [=] & _).
Qed.

Lemma setitem_Ok (l : loc) (k : string) (v : pyval) (h h' : heap) (u : ()) :
  setitem l k v h = Ok (u, h') ↔
  ∃ r, h !! l = Some r ∧ h' = <[l := <[k := v]> r]> h.
Proof.
  unfold setitem. destruct (h !! l) as [r|]; split.
  - intros [= <-]. by exists r.
  - intros (? & [= <-] & ->). by destruct u.
  - done.
  - by intros (? & [=] & _).
Qed.

Lemma field_Some (h : heap) (k : pyval) (l : loc) (v : pyval) :
  field h k l = Some v ↔ ∃ r, h !! l = Some r ∧ getitem r k = Ok v.
Proof.
  unfold field. destruct (h !! l) as [r|]; split.
  - destruct (getitem r k) as [w|e] eqn:E; [|done].
    intros [= <-]. by exists r.
  - intros (r' & [= <-] & ->). done.
  - done.
  - by intros (r' & [=] & _).
Qed.

Lemma field_app (h ext : heap) (k : pyval) (l : loc) :
  (l < length h)%nat → field (h ++ ext) k l = field h k l.
Proof. intros Hl. unfold field. by rewrite lookup_app_l. Qed.

(** Reading through a list of references leaves the store as it is. *)
Lemma map_M_read {A B} (f : A → M B) (P : A → B → Prop) (h : heap) :
  (∀ x b h', f x h = Ok (b, h') → h' = h ∧ P x b) →
  ∀ l bs h', map_M f l h = Ok (bs, h') → h' = h ∧ Forall2 P l bs.
Proof.
  intros Hf. induction l as [|x l IH]; intros bs h'; simpl.
  - intros [-> ->]%ret_M_Ok. by split.
  - intros (b & h1 & Hx & (bs' & h2 & Hl & [-> ->]%ret_M_Ok)%bind_M_Ok)%bind_M_Ok.
    apply Hf in Hx as [-> Hb]. apply IH in Hl as [-> Hbs].
    split; [done|]. by constructor.
Qed.

Lemma map_M_load (ls : list loc) (h h' : heap) (rs : list record) :
  map_M load ls h = Ok (rs, h') →
  h' = h ∧ Forall2 (λ l r, h !! l = Some r) ls rs.
Proof.
  apply map_M_read. intros l r h1 [? ->]%load_Ok. by split.
Qed.

Lemma Forall2_lookup_fun (h : heap) (ls : list loc) (rs rs' : list record) :
  Forall2 (λ l r, h !! l = Some r) ls rs →
  Forall2 (λ l r, h !! l = Some r) ls rs' → rs = rs'.
Proof.
  intros H. revert rs'. induction H as [|l r ls rs Hr _ IH]; intros rs'.
  - by inversion 1.
  - inversion 1 as [|? r' ? rs'' Hr' Hrs']; simplify_eq. f_equal. by apply IH.
Qed.

(** ** execute: what it builds *)

Lemma group_loop_Ok (doc_id_key : pyval) (input_data : list loc)
    (g0 g : groups) (h h' : heap) :
  for_M (λ grouped_chunks item,
           r ← load item;
           doc_id ← lift (getitem r doc_id_key);
           mret (append_chunk doc_id item grouped_chunks))
        input_data g0 h = Ok (g, h') →
  h' = h ∧
  ∃ ids, Forall2 (λ l d, field h doc_id_key l = Some d) input_data ids ∧
         g = foldl (λ g p, append_chunk p.1 p.2 g) g0 (zip ids input_data).
Proof.
  revert g0. induction input_data as [|item input_data IH]; intros g0; simpl.
  - intros [-> ->]%ret_M_Ok. split; [done|]. by exists [].
  - intros (g1 & h1 & (r & h2 & [Hr ->]%load_Ok &
              (d & h3 & [Hd ->]%lift_Ok & [-> ->]%ret_M_Ok)%bind_M_Ok)%bind_M_Ok
            & Hrest)%bind_M_Ok.
    apply IH in Hrest as (-> & ids & Hids & ->).
    split; [done|]. exists (d :: ids). split; [|done].
    constructor; [|done]. apply field_Some. eauto.
Qed.

Lemma group_chunks_Ok (doc_id_key : pyval) (input_data : list loc)
    (g : groups) (h h' : heap) :
  group_chunks doc_id_key input_data h = Ok (g, h') →
  h' = h ∧
  ∃ ids, Forall2 (λ l d, field h doc_id_key l = Some d) input_data ids ∧
         g = grouping (zip ids input_data).
Proof. apply group_loop_Ok. Qed.

Lemma sort_chunks_Ok (order_key : pyval) (chunks s : list loc) (h h' : heap) :
  sort_chunks order_key chunks h = Ok (s, h') →
  h' = h ∧ sorted_from h order_key chunks s.
Proof.
  unfold sort_chunks.
  intros (keys & h1 & Hkeys & (ks & h2 & [Hks ->]%lift_Ok
            & [-> ->]%ret_M_Ok)%bind_M_Ok)%bind_M_Ok.
  apply (map_M_read _ (λ l k, field h order_key l = Some k)) in Hkeys
    as [-> Hkeys].
  - split; [done|]. by exists keys, ks.
  - intros l k h3 (r & h4 & [Hr ->]%load_Ok & [Hk ->]%lift_Ok)%bind_M_Ok.
    split; [done|]. apply field_Some. eauto.
Qed.

Lemma sorted_from_length (h : heap) (order_key : pyval) (g s : list loc) :
  sorted_from h order_key g s → s ≡ₚ g.
Proof.
  intros (keys & ks & Hkeys & Hsort & ->).
  apply sort_keyed_Ok in Hsort as (Hperm & _).
  rewrite Hperm. rewrite snd_zip; [done|].
  by rewrite (Forall2_length _ _ _ Hkeys).
Qed.

Lemma sorted_from_app (h ext : heap) (order_key : pyval) (g s : list loc) :
  Forall (λ l, (l < length h)%nat) g →
  sorted_from (h ++ ext) order_key g s → sorted_from h order_key g s.
Proof.
  intros Hvalid (keys & ks & Hkeys & Hsort & ->).
  exists keys, ks. split; [|done].
  clear Hsort. induction Hkeys as [|l k g keys Hk _ IH]; [constructor|].
  apply Forall_cons in Hvalid as [Hl Hvalid].
  constructor; [|by apply IH]. by rewrite field_app in Hk.
Qed.

Section copies.
Variables (peripheral_config : peripheral).
Variables (content_key order_key main_chunk_start main_chunk_end : pyval).

Local Abbreviation chunk_body :=
  (process_chunk peripheral_config content_key order_key
                 main_chunk_start main_chunk_end).
Local Abbreviation copy_of h :=
  (formatted_copy h peripheral_config content_key order_key
                  main_chunk_start main_chunk_end).

Lemma process_chunk_Ok (chunks results results' : list loc) (i : nat)
    (chunk : loc) (h h' : heap) :
  chunk_body chunks results i chunk h = Ok (results', h') →
  ∃ records r f,
    Forall2 (λ l r, h !! l = Some r) chunks records ∧
    h !! chunk = Some r ∧
    format_chunk_with_context records i peripheral_config content_key
      order_key main_chunk_start main_chunk_end = Ok f ∧
    h' = h ++ [<[formatted_key content_key := PStr f]> r] ∧
    results' = results ++ [length h].
Proof.
  unfold process_chunk.
  intros (records & h1 & [-> Hrecords]%map_M_load &
          (f & h2 & [Hf ->]%lift_Ok &
           (new & h3 & (r & Hr & -> & ->)%copy_Ok &
            (key & h4 & [Hkey ->]%lift_Ok &
             (u & h5 & (r' & Hr' & ->)%setitem_Ok
              & [-> ->]%ret_M_Ok)%bind_M_Ok)%bind_M_Ok)%bind_M_Ok)%bind_M_Ok)%bind_M_Ok.
  exists records, r, f. do 3 (split; [done|]). split; [|done].
  apply str_Ok in Hkey as ->. fold (formatted_key content_key).
  rewrite list_lookup_middle in Hr' by done. injection Hr' as <-.
  rewrite insert_app_r_alt by done. by rewrite Nat.sub_diag.
Qed.

(** The loop over a sorted group appends one copy per chunk, in order,
    and touches nothing else. *)
Lemma chunks_loop_Ok (chunks : list loc) (records : list record)
    (cs : list loc) (i : nat) (results results' : list loc) (h h' : heap) :
  Forall2 (λ l r, h !! l = Some r) chunks records →
  Forall (λ l, (l < length h)%nat) cs →
  for_enumerate_M (chunk_body chunks) i cs results h = Ok (results', h') →
  ∃ ext, h' = h ++ ext ∧
         results' = results ++ seq (length h) (length cs) ∧
         Forall2 (copy_of h records) (enumerate i cs) ext.
Proof.
  revert i results h.
  induction cs as [|c cs IH]; intros i results h Hrecords Hvalid.
  - intros [-> ->]%ret_M_Ok. exists []. by rewrite !app_nil_r.
  - cbn [for_enumerate_M].
    intros (results1 & h1 & Hbody & Hrest)%bind_M_Ok.
    apply process_chunk_Ok in Hbody
      as (records' & r & f & Hrecords' & Hr & Hf & -> & ->).
    rewrite <-(Forall2_lookup_fun _ _ _ _ Hrecords Hrecords') in Hf.
    apply Forall_cons in Hvalid as [Hc Hvalid].
    apply IH in Hrest as (ext & -> & -> & Hext).
    + eexists (_ :: ext). split; [by rewrite <-app_assoc|].
      split.
      { rewrite <-app_assoc, length_app. simpl.
        by rewrite Nat.add_1_r. }
      rewrite enumerate_cons. constructor.
      * by exists r, f.
      * apply Forall2_same_length_lookup. split.
        { by apply Forall2_length in Hext. }
        intros k [j src] rec Hk Hrec.
        destruct (Forall2_lookup_lr _ _ _ _ _ _ Hext Hk Hrec)
          as (r' & f' & Hr' & Hf' & ->).
        exists r', f'. split; [|done]. simpl in *.
        rewrite lookup_app_l in Hr'; [done|].
        rewrite Forall_forall in Hvalid. apply Hvalid.
        apply list_elem_of_lookup_2 in Hk.
        by apply elem_of_zip_r in Hk.
    + eapply Forall2_impl; [exact Hrecords|].
      intros l r0 Hl. by apply lookup_app_l_Some.
    + eapply Forall_impl; [exact Hvalid|].
      intros l Hl. cbv beta in *. rewrite length_app. lia.
Qed.
End copies.

Lemma lookup_all (h : heap) (ls : list loc) :
  Forall (λ l, (l < length h)%nat) ls →
  ∃ rs, Forall2 (λ l r, h !! l = Some r) ls rs.
Proof.
  induction 1 as [|l ls Hl _ [rs IH]]; [by exists []|].
  apply lookup_lt_is_Some in Hl as [r Hr]. exists (r :: rs). by constructor.
Qed.

Section groups_loop.
Variables (peripheral_config : peripheral).
Variables (content_key order_key main_chunk_start main_chunk_end : pyval).

Local Abbreviation group_body :=
  (process_group peripheral_config content_key order_key
                 main_chunk_start main_chunk_end).
Local Abbreviation copies_of h :=
  (group_copies h peripheral_config content_key order_key
                main_chunk_start main_chunk_end).

Lemma group_copies_app (h ext : heap) (s : list loc) (e : list record) :
  Forall (λ l, (l < length h)%nat) s →
  copies_of (h ++ ext) s e → copies_of h s e.
Proof.
  intros Hvalid (records & Hrecords & Hcopies).
  rewrite Forall_forall in Hvalid.
  exists records. split.
  - apply Forall2_same_length_lookup. split.
    { by apply Forall2_length in Hrecords. }
    intros k l r Hl Hr.
    pose proof (Forall2_lookup_lr _ _ _ _ _ _ Hrecords Hl Hr) as Hlr.
    simpl in Hlr. rewrite lookup_app_l in Hlr; [done|].
    apply Hvalid. by eapply list_elem_of_lookup_2.
  - apply Forall2_same_length_lookup. split.
    { by apply Forall2_length in Hcopies. }
    intros k [j src] rec Hk Hrec.
    destruct (Forall2_lookup_lr _ _ _ _ _ _ Hcopies Hk Hrec)
      as (r & f & Hr & Hf & ->).
    exists r, f. split; [|done]. simpl in *.
    rewrite lookup_app_l in Hr; [done|]. apply Hvalid.
    apply list_elem_of_lookup_2 in Hk. by apply elem_of_zip_r in Hk.
Qed.

Lemma process_group_Ok (results results' : list loc) (g : pyval * list loc)
    (h h' : heap) :
  Forall (λ l, (l < length h)%nat) g.2 →
  group_body results g h = Ok (results', h') →
  ∃ s ext, sorted_from h order_key g.2 s ∧ copies_of h s ext ∧
           h' = h ++ ext ∧
           results' = results ++ seq (length h) (length ext).
Proof.
  intros Hvalid. unfold process_group.
  intros (s & h1 & [-> Hsorted]%sort_chunks_Ok & Hloop)%bind_M_Ok.
  assert (Forall (λ l, (l < length h)%nat) s) as Hvalid_s.
  { by rewrite (sorted_from_length _ _ _ _ Hsorted). }
  destruct (lookup_all h s Hvalid_s) as [records Hrecords].
  eapply chunks_loop_Ok in Hloop as (ext & -> & -> & Hext); [|done..].
  exists s, ext. split; [done|]. split; [by exists records|].
  split; [done|]. apply Forall2_length in Hext.
  unfold enumerate in Hext. rewrite length_zip, length_seq in Hext.
  do 2 f_equal. lia.
Qed.

(** The loop over the groups: every group is sorted and copied in turn;
    the store grows by the copies and the results are the references
    to them. *)
Lemma groups_loop_Ok (gs : groups) (results results' : list loc)
    (h h' : heap) :
  Forall (λ g, Forall (λ l, (l < length h)%nat) g.2) gs →
  for_M group_body gs results h = Ok (results', h') →
  ∃ ss exts,
    Forall2 (λ g s, sorted_from h order_key g.2 s) gs ss ∧
    Forall2 (copies_of h) ss exts ∧
    h' = h ++ concat exts ∧
    results' = results ++ seq (length h) (length (concat exts)).
Proof.
  revert results h. induction gs as [|g gs IH]; intros results h Hvalid.
  - intros [-> ->]%ret_M_Ok. exists [], []. by rewrite !app_nil_r.
  - apply Forall_cons in Hvalid as [Hg Hvalid]. cbn [for_M].
    intros (results1 & h1 & Hbody & Hrest)%bind_M_Ok.
    apply process_group_Ok in Hbody as (s & ext & Hs & Hext & -> & ->);
      [|done].
    assert (∀ ls, Forall (λ l, (l < length h)%nat) ls →
                  Forall (λ l, (l < length (h ++ ext))%nat) ls) as Hgrow.
    { intros ls Hls. eapply Forall_impl; [exact Hls|].
      intros l Hl. cbv beta in *. rewrite length_app. lia. }
    apply IH in Hrest as (ss & exts & Hss & Hexts & -> & ->).
    2:{ eapply Forall_impl; [exact Hvalid|]. intros g' Hg'. by apply Hgrow. }
    exists (s :: ss), (ext :: exts). split; [|split; [|split]].
    + constructor; [done|].
      apply Forall2_same_length_lookup. split.
      { by apply Forall2_length in Hss. }
      intros k g' s' Hg' Hs'.
      pose proof (Forall2_lookup_lr _ _ _ _ _ _ Hss Hg' Hs') as Hgs.
      eapply sorted_from_app; [|exact Hgs].
      rewrite Forall_forall in Hvalid. apply Hvalid.
      by eapply list_elem_of_lookup_2.
    + constructor; [done|].
      apply Forall2_same_length_lookup. split.
      { by apply Forall2_length in Hexts. }
      intros k s' e' Hs' He'.
      pose proof (Forall2_lookup_lr _ _ _ _ _ _ Hexts Hs' He') as Hse.
      eapply group_copies_app; [|exact Hse].
      destruct (Forall2_lookup_r _ _ _ _ _ Hss Hs') as (g' & Hg' & Hgs).
      apply sorted_from_length in Hgs. rewrite Hgs.
      rewrite Forall_forall in Hvalid. apply Hvalid.
      by eapply list_elem_of_lookup_2.
    + simpl. by rewrite <-app_assoc.
    + simpl. rewrite <-app_assoc. f_equal.
      rewrite !length_app, seq_app. done.
Qed.
End groups_loop.

Lemma getitem_Ok (d : gmap string pyval) (k : string) (v : pyval) :
  getitem d (PStr k) = Ok v ↔ d !! k = Some v.
Proof.
  unfold getitem. destruct (d !! k); split; by intros [= <-] || done.
Qed.

Lemma grouping_members (ids : list pyval) (input_data : list loc)
    (g : pyval * list loc) (l : loc) :
  g ∈ grouping (zip ids input_data) → l ∈ g.2 → l ∈ input_data.
Proof.
  rewrite grouping_spec. intros (d & -> & _)%list_elem_of_fmap. simpl.
  intros ([k l'] & -> & [_ Hin]%list_elem_of_filter)%list_elem_of_fmap.
  by apply elem_of_zip_r in Hin.
Qed.

(** Everything execute does when it returns: it reads the three keys and
    the peripheral configuration, groups the references by document,
    sorts each group, and appends to the store one formatted copy per
    chunk, group after group; its results are the references to these
    copies. *)
Lemma execute_Ok (cfg : config) (input_data outs : list loc) (c : cost)
    (h h' : heap) :
  execute cfg input_data h = Ok ((outs, c), h') →
  ∃ ck dk ok pc ids ss exts,
    top cfg !! "content_key" = Some ck ∧
    top cfg !! "doc_id_key" = Some dk ∧
    top cfg !! "order_key" = Some ok ∧
    peripheral_chunks cfg = Some pc ∧
    Forall2 (λ l d, field h dk l = Some d) input_data ids ∧
    Forall2 (λ g s, sorted_from h ok g.2 s) (grouping (zip ids input_data)) ss ∧
    Forall2 (group_copies h pc ck ok (start_marker cfg) (end_marker cfg))
            ss exts ∧
    h' = h ++ concat exts ∧
    outs = seq (length h) (length (concat exts)) ∧
    c = 0.
Proof.
  unfold execute.
  intros (ck & h1 & [Hck%getitem_Ok ->]%lift_Ok &
          (dk & h2 & [Hdk%getitem_Ok ->]%lift_Ok &
           (ok & h3 & [Hok%getitem_Ok ->]%lift_Ok &
            (pc & h4 & [Hpc ->]%lift_Ok &
             (g & h5 & (-> & ids & Hids & ->)%group_chunks_Ok &
              (results & h6 & Hloop & [[= <- <-] ->]%ret_M_Ok
              )%bind_M_Ok)%bind_M_Ok)%bind_M_Ok)%bind_M_Ok)%bind_M_Ok)%bind_M_Ok.
  destruct (peripheral_chunks cfg) as [pc'|] eqn:Hpc'; [|done].
  injection Hpc as ->.
  apply groups_loop_Ok in Hloop as (ss & exts & Hss & Hexts & -> & ->).
  - exists ck, dk, ok, pc, ids, ss, exts. by repeat (split; [done|]).
  - apply Forall_forall. intros g Hg. apply Forall_forall. intros l Hl.
    pose proof (grouping_members _ _ _ _ Hg Hl) as Hin.
    apply list_elem_of_lookup_1 in Hin as [i Hi].
    destruct (Forall2_lookup_l _ _ _ _ _ Hids Hi) as (d & _ & Hd).
    apply field_Some in Hd as (r & Hr & _).
    by apply lookup_lt_Some in Hr.
Qed.

(** ** Output and input are in one-to-one correspondence (C2, C9) *)

Lemma members_perm (ds : list pyval) (ps : list (pyval * loc)) :
  NoDup ds → (∀ p, p ∈ ps → p.1 ∈ ds) →
  concat ((λ d, members ps d) <$> ds) ≡ₚ ps.*2.
Proof.
  intros Hnodup. revert ps.
  induction Hnodup as [|d ds Hd _ IH]; intros ps Hkeys.
  - destruct ps as [|p ps]; [done|].
    specialize (Hkeys p (list_elem_of_here _ _)). by apply elem_of_nil in Hkeys.
  - simpl.
    trans ((filter (λ p : pyval * loc, p.1 = d) ps ++
            filter (λ p : pyval * loc, ¬ p.1 = d) ps).*2);
      [|by rewrite filter_app_complement].
    rewrite fmap_app. f_equiv.
    rewrite <-(IH (filter (λ p : pyval * loc, ¬ p.1 = d) ps)).
    + apply reflexive_eq. f_equal. apply list_fmap_ext. intros i d' Hd'.
      f_equal. rewrite list_filter_filter. apply list_filter_iff.
      intros p. split; [|by intros [? _]].
      intros ->. split; [done|]. intros <-.
      by apply list_elem_of_lookup_2 in Hd'.
    + intros p [Hp Hin]%list_elem_of_filter.
      apply Hkeys in Hin. apply elem_of_cons in Hin as [?|?]; done.
Qed.

Lemma concat_perm {A} (ls ks : list (list A)) :
  Forall2 (≡ₚ) ls ks → concat ls ≡ₚ concat ks.
Proof. induction 1 as [|l k ls ks Hlk _ IH]; [done|]. simpl. by f_equiv. Qed.

Lemma Forall2_concat_2 {A B} (P : A → B → Prop) (ls : list (list A))
    (ks : list (list B)) :
  Forall2 (Forall2 P) ls ks → Forall2 P (concat ls) (concat ks).
Proof.
  induction 1 as [|l k ls ks Hlk _ IH]; [constructor|].
  simpl. by apply Forall2_app.
Qed.

Lemma group_copies_plain (h : heap) (pc : peripheral) (ck ok ms me : pyval)
    (s : list loc) (ext : list record) :
  group_copies h pc ck ok ms me s ext → Forall2 (copy_with h ck) s ext.
Proof.
  intros (records & _ & Hcopies).
  rewrite <-(enumerate_snd 0 s). apply Forall2_fmap_l.
  eapply Forall2_impl; [exact Hcopies|].
  intros [j src] rec (r & f & Hr & Hf & ->).
  apply format_chunk_with_context_Ok in Hf
    as (main_chunk & content & _ & _ & _ & [name ->]%getitem_text_key & _).
  by exists name, r, f.
Qed.

(** The store after execute is the store before it followed by the
    copies; the results are the references to the copies, in order, and
    the chunks they were copied from are the input rearranged. *)
(** The sorted groups hold the input, every record once. *)
Lemma sorted_groups_perm (h : heap) (dk ok : pyval) (input_data : list loc)
    (ids : list pyval) (ss : list (list loc)) :
  Forall2 (λ l d, field h dk l = Some d) input_data ids →
  Forall2 (λ g s, sorted_from h ok g.2 s) (grouping (zip ids input_data)) ss →
  concat ss ≡ₚ input_data.
Proof.
  intros Hids Hss.
  assert (length ids = length input_data) as Hlen.
  { symmetry. by eapply Forall2_length. }
  transitivity (concat (grouping (zip ids input_data)).*2).
  - symmetry. apply concat_perm. apply Forall2_fmap_l.
    eapply Forall2_impl; [exact Hss|].
    intros g s Hgs. unfold compose. symmetry.
    exact (sorted_from_length _ _ _ _ Hgs).
  - rewrite grouping_spec, <-list_fmap_compose.
    rewrite (members_perm _ (zip ids input_data)).
    + rewrite snd_zip; [done|lia].
    + apply NoDup_first_seen.
    + intros p Hp. apply elem_of_first_seen. by apply list_elem_of_fmap_2.
Qed.

Lemma omap_fields (h : heap) (k : pyval) (ls : list loc) (vs : list pyval) :
  Forall2 (λ l v, field h k l = Some v) ls vs → omap (field h k) ls = vs.
Proof.
  induction 1 as [|l v ls vs Hl _ IH]; [done|].
  cbn [omap list_omap]. by rewrite Hl, IH.
Qed.

Lemma execute_sources (cfg : config) (input_data outs : list loc) (c : cost)
    (h h' : heap) :
  execute cfg input_data h = Ok ((outs, c), h') →
  ∃ ck srcs recs,
    top cfg !! "content_key" = Some ck ∧
    srcs ≡ₚ input_data ∧
    Forall2 (copy_with h ck) srcs recs ∧
    h' = h ++ recs ∧
    outs = seq (length h) (length recs).
Proof.
  intros (ck & dk & ok & pc & ids & ss & exts & Hck & _ & _ & _ & Hids & Hss
          & Hexts & -> & -> & _)%execute_Ok.
  exists ck, (concat ss), (concat exts). split; [done|].
  split; [|split; [|done]].
  - by eapply sorted_groups_perm.
  - apply Forall2_concat_2.
    eapply Forall2_impl; [exact Hexts|].
    intros s ext. apply group_copies_plain.
Qed.


Example solo_run :
  execute cfg_plain [0%nat] solo = Ok (([1%nat], 0), solo ++ [solo_out]).
Proof. vm_compute. reflexivity. Qed.



(** ** Order of the groups and of their records (C3) *)

Lemma pairs_filter (h : heap) (k v : pyval) (ps : list (pyval * loc)) :
  (∀ p, p ∈ ps → field h k p.2 = Some p.1) →
  (filter (λ p : pyval * loc, p.1 = v) ps).*2
  = filter (λ l, field h k l = Some v) ps.*2.
Proof.
  induction ps as [|p ps IH]; intros Hps; [done|].
  rewrite fmap_cons, !filter_cons, (Hps p) by left.
  rewrite <-IH by (intros q Hq; apply Hps; by right).
  destruct (decide (p.1 = v)) as [->|Hne].
  - by rewrite decide_True.
  - by rewrite decide_False by congruence.
Qed.

Lemma zip_fields (h : heap) (k : pyval) (ls : list loc) (vs : list pyval) :
  Forall2 (λ l v, field h k l = Some v) ls vs →
  ∀ p, p ∈ zip vs ls → field h k p.2 = Some p.1.
Proof.
  induction 1 as [|l v ls vs Hlv _ IH]; intros p; simpl.
  - by intros ?%elem_of_nil.
  - intros [->|?]%elem_of_cons; [done|by apply IH].
Qed.

Lemma StronglySorted_lookup {A} (R : A → A → Prop) (l : list A)
    (i j : nat) (a b : A) :
  StronglySorted R l → (i < j)%nat → l !! i = Some a → l !! j = Some b → R a b.
Proof.
  intros Hsorted. revert i j.
  induction Hsorted as [|x l _ IH Hx]; intros i j Hij; [done|].
  destruct i as [|i], j as [|j]; try lia; simpl.
  - intros [= <-] Hb. rewrite Forall_forall in Hx.
    apply Hx. by eapply list_elem_of_lookup_2.
  - apply IH. lia.
Qed.

(** What [sort_chunks] returns: the group rearranged, in ascending order
    of the order key, records with the same key in the order they had. *)
Lemma sorted_from_spec (h : heap) (ok : pyval) (g s : list loc) :
  sorted_from h ok g s →
  s ≡ₚ g ∧
  (∀ i j a b, (i < j)%nat → s !! i = Some a → s !! j = Some b →
     ∃ ka kb, field h ok a = Some ka ∧ field h ok b = Some kb ∧
              ascending ka kb) ∧
  (∀ v, filter (λ l, field h ok l = Some v) s
        = filter (λ l, field h ok l = Some v) g).
Proof.
  intros Hsorted. split; [by eapply sorted_from_length|].
  destruct Hsorted as (keys & ks & Hkeys & Hsort & ->).
  apply sort_keyed_Ok in Hsort as (Hperm & Hsorted & Hstable).
  pose proof (zip_fields _ _ _ _ Hkeys) as Hzip.
  assert (∀ p, p ∈ ks → field h ok p.2 = Some p.1) as Hks.
  { intros p Hp. apply Hzip. by rewrite <-Hperm. }
  split.
  - intros i j a b Hij Ha Hb.
    apply list_lookup_fmap_Some in Ha as ([ka a'] & -> & Ha).
    apply list_lookup_fmap_Some in Hb as ([kb b'] & -> & Hb).
    exists ka, kb. split; [|split].
    + apply (Hks (ka, a')). by eapply list_elem_of_lookup_2.
    + apply (Hks (kb, b')). by eapply list_elem_of_lookup_2.
    + exact (StronglySorted_lookup _ _ _ _ _ _ Hsorted Hij Ha Hb).
  - intros v. rewrite <-(pairs_filter h ok v ks) by done. rewrite Hstable.
    rewrite (pairs_filter h ok v) by done. rewrite snd_zip; [done|].
    by rewrite (Forall2_length _ _ _ Hkeys).
Qed.

Lemma results_lookup (h : heap) (ck : pyval) (srcs : list loc)
    (recs : list record) :
  Forall2 (copy_with h ck) srcs recs →
  Forall2 (λ o src, ∃ r f, h !! src = Some r ∧
                           (h ++ recs) !! o
                           = Some (<[formatted_key ck := PStr f]> r))
          (seq (length h) (length recs)) srcs.
Proof.
  intros Hcopies. apply Forall2_same_length_lookup. split.
  { rewrite length_seq. symmetry. by eapply Forall2_length. }
  intros k o src [-> Hk]%lookup_seq Hsrc.
  destruct (Forall2_lookup_l _ _ _ _ _ Hcopies Hsrc)
    as (rec & Hrec & name & r & f & -> & Hr & ->).
  exists r, f. split; [done|].
  rewrite lookup_app_r by lia.
  by replace (length h + k - length h)%nat with k by lia.
Qed.

(** C3: the groups are the documents of the input, in the order in
    which each document identity first appears in it, and the results
    follow the groups: every input record is emitted, once, within the
    group of its document.  Within a group the records are those of the
    document, in ascending order of their order key; records with the
    same order key keep the order they have in the input. *)
Theorem C3_order (cfg : config) (input_data outs : list loc) (c : cost)
    (h h' : heap) :
  execute cfg input_data h = Ok ((outs, c), h') →
  ∃ ck dk ok (gs : list (pyval * list loc)),
    top cfg !! "content_key" = Some ck ∧
    top cfg !! "doc_id_key" = Some dk ∧
    top cfg !! "order_key" = Some ok ∧
    Forall2 (λ o src, ∃ r f, h !! src = Some r ∧
                             h' !! o = Some (<[formatted_key ck := PStr f]> r))
            outs (concat gs.*2) ∧
    concat gs.*2 ≡ₚ input_data ∧
    Forall (λ l, is_Some (field h dk l)) input_data ∧
    gs.*1 = first_seen (omap (field h dk) input_data) ∧
    NoDup gs.*1 ∧
    (∀ i j d e, (i < j)%nat → gs.*1 !! i = Some d → gs.*1 !! j = Some e →
       ∃ p l, input_data !! p = Some l ∧ field h dk l = Some d ∧
              ∀ q l', input_data !! q = Some l' → field h dk l' = Some e →
                      (p < q)%nat) ∧
    ∀ d s, (d, s) ∈ gs →
      let document := filter (λ l, field h dk l = Some d) input_data in
      s ≡ₚ document ∧
      (∀ i j a b, (i < j)%nat → s !! i = Some a → s !! j = Some b →
         ∃ ka kb, field h ok a = Some ka ∧ field h ok b = Some kb ∧
                  ascending ka kb) ∧
      (∀ v, filter (λ l, field h ok l = Some v) s
            = filter (λ l, field h ok l = Some v) document).
Proof.
  intros (ck & dk & ok & pc & ids & ss & exts & Hck & Hdk & Hok & _ & Hids
          & Hss & Hexts & -> & -> & _)%execute_Ok.
  assert (length ids = length input_data) as Hlen.
  { symmetry. by eapply Forall2_length. }
  assert ((zip ids input_data).*1 = ids) as Hfst by (apply fst_zip; lia).
  assert ((zip ids input_data).*2 = input_data) as Hsnd by (apply snd_zip; lia).
  pose proof (sorted_groups_perm _ _ _ _ _ _ Hids Hss) as Hperm.
  rewrite grouping_spec, Hfst in Hss.
  assert (length (first_seen ids) = length ss) as Hlen_ss.
  { apply Forall2_length in Hss. by rewrite length_fmap in Hss. }
  exists ck, dk, ok, (zip (first_seen ids) ss).
  rewrite fst_zip, snd_zip by lia.
  do 3 (split; [done|]). split; [|split; [done|split; [|split; [|split; [|split]]]]].
  - apply results_lookup, Forall2_concat_2.
    eapply Forall2_impl; [exact Hexts|]. intros s ext. apply group_copies_plain.
  - eapply Forall2_Forall_l; [exact Hids|].
    apply Forall_forall. intros d _ l Hl. by exists d.
  - by rewrite (omap_fields _ _ _ _ Hids).
  - apply NoDup_first_seen.
  - intros i j d e Hij Hi Hj.
    destruct (first_seen_order ids i j d e Hij Hi Hj) as (p & Hp & Hlt).
    destruct (Forall2_lookup_r _ _ _ _ _ Hids Hp) as (l & Hl & Hld).
    exists p, l. do 2 (split; [done|]).
    intros q l' Hl' Hl'e. apply Hlt.
    destruct (Forall2_lookup_l _ _ _ _ _ Hids Hl') as (e' & He' & Hl'e').
    simpl in Hl'e'. congruence.
  - intros d s [k Hk]%list_elem_of_lookup_1 document.
    apply lookup_zip_Some in Hk as [Hd Hs].
    assert (sorted_from h ok document s) as Hsorted.
    { rewrite Forall2_fmap_l in Hss.
      pose proof (Forall2_lookup_lr _ _ _ _ _ _ Hss Hd Hs) as Hds.
      simpl in Hds. unfold document.
      rewrite <-Hsnd at 1.
      rewrite <-(pairs_filter h dk d) by (by apply zip_fields).
      exact Hds. }
    by apply sorted_from_spec.
Qed.

Lemma C3_order_witness :
  ∃ gs : list (pyval * list nat),
    gs.*1 = [PStr "d2"; PStr "d1"] ∧
    concat gs.*2 ≡ₚ [0; 1; 2; 3; 4]%nat ∧
    ∀ s, (PStr "d1", s) ∈ gs →
         s ≡ₚ [1; 3; 4]%nat ∧
         filter (λ l, field interleaved (PStr "n") l = Some (PInt 2)) s
         = [1; 3]%nat.
Proof.
  destruct (C3_order cfg_plain [0; 1; 2; 3; 4]%nat [5; 6; 7; 8; 9]%nat 0
              interleaved (interleaved ++ interleaved_copies)
              interleaved_result)
    as (ck & dk & ok & gs & _ & Hdk & Hok & _ & Hperm & _ & Hkeys & _ & _
        & Hgroups).
  vm_compute in Hdk, Hok. injection Hdk as <-. injection Hok as <-.
  exists gs. split; [rewrite Hkeys; reflexivity|]. split; [exact Hperm|].
  intros s Hs. destruct (Hgroups _ _ Hs) as (Hdoc & _ & Hties).
  split; [exact Hdoc|]. exact (Hties (PInt 2)).
Defined.

(** ** execute returns on well-formed input (C2) *)

Lemma for_enumerate_total {A St} (body : St → nat → A → result St)
    (i : nat) (l : list A) (st : St) :
  (∀ st j x, x ∈ l → is_Ok (body st j x)) → is_Ok (for_enumerate body i l st).
Proof.
  revert i st. induction l as [|x l IH]; intros i st Hbody; simpl.
  - by exists st.
  - destruct (Hbody st i x) as [st' ->]; [left|]. simpl.
    apply IH. intros st0 j y Hy. apply Hbody. by right.
Qed.

Lemma map_result_total {A B} (f : A → result B) (l : list A) :
  Forall (λ x, is_Ok (f x)) l → is_Ok (map_result f l).
Proof.
  induction 1 as [|x l [y Hy] _ [ys IH]]; simpl.
  - by eexists.
  - rewrite Hy. simpl. rewrite IH. by eexists.
Qed.

Lemma counts_integer_readable (pc : peripheral) :
  counts_integer pc → counts_readable pc.
Proof.
  unfold counts_integer, counts_readable. intros Hcounts.
  eapply Forall_impl; [exact Hcounts|]. intros direction Hsections.
  eapply Forall_impl; [exact Hsections|]. intros section [z Hz].
  exists z. unfold count_of. by rewrite Hz.
Qed.

Section window_total.
Variables (config : direction_config) (content_key order_key : pyval).

Lemma render_total (section : bucket) (r : record) :
  section ≠ Skipped →
  shows config content_key order_key r →
  is_Ok (render config content_key order_key section r).
Proof.
  intros Hsection ((o & Ho & Hprint) & _ & Hkeys). unfold render.
  rewrite Ho. simpl. rewrite (str_text _ Hprint). simpl.
  rewrite Forall_forall in Hkeys.
  destruct (Hkeys (section_name section)) as (c & -> & Hc).
  { destruct section; [in_list..|done]. }
  simpl. rewrite (str_text _ Hc). by eexists.
Qed.

Lemma skipped_chars_total (l : list record) :
  Forall (shows config content_key order_key) l →
  is_Ok (skipped_chars l content_key).
Proof.
  intros Hl. unfold skipped_chars.
  destruct (map_result_total (λ c, v ← getitem c content_key; len v) l)
    as [lens ->]; [|by eexists].
  eapply Forall_impl; [exact Hl|].
  intros r (_ & [s ->] & _). by eexists.
Qed.

Lemma process_loop_total (l : list record) :
  is_Ok (count_of config "head") → is_Ok (count_of config "tail") →
  Forall (shows config content_key order_key) l →
  is_Ok (process_loop l config content_key order_key).
Proof.
  intros [hc Hhc] [tc Htc] Hl. unfold process_loop.
  unfold count_of in Hhc, Htc. rewrite Hhc, Htc. simpl.
  destruct (for_enumerate_total
              (loop_body l config content_key order_key hc tc)
              0 l initial_state) as [st ->]; [|by eexists].
  intros st j r Hr. unfold loop_body.
  rewrite Forall_forall in Hl.
  destruct (skipped_chars_total l) as [n Hn]; [by apply Forall_forall|].
  destruct (classify l config hc tc j) eqn:E; cbv beta iota zeta.
  1-3: match goal with
       | |- context [render _ _ _ ?b ?c] =>
           destruct (render_total b c) as [line ->];
             [done|by apply Hl|by eexists]
       end.
  rewrite Hn. by eexists.
Qed.

Lemma process_peripheral_chunks_total (l : list record) (reverse : bool) :
  is_Ok (count_of config "head") → is_Ok (count_of config "tail") →
  Forall (shows config content_key order_key) l →
  is_Ok (process_peripheral_chunks l config content_key order_key reverse).
Proof.
  intros Hhc Htc Hl. unfold process_peripheral_chunks.
  destruct (process_loop_total (if reverse then reversed l else l))
    as [st ->]; [done..| |by eexists].
  destruct reverse; [|done]. by apply Forall_reverse.
Qed.
End window_total.

Lemma format_chunk_with_context_total (records : list record) (i : nat)
    (pc : peripheral) (ck ok ms me : pyval) :
  printable ms → printable me →
  counts_readable pc →
  Forall (λ r, Forall (λ direction,
                         shows (default ∅ (pc !! direction)) ck ok r)
                      ["previous"; "next"]) records →
  (i < length records)%nat →
  is_Ok (format_chunk_with_context records i pc ck ok ms me).
Proof.
  intros Hms Hme Hcounts Hrecords Hi. unfold format_chunk_with_context.
  assert (∀ direction section,
            direction ∈ ["previous"; "next"] → section ∈ ["head"; "tail"] →
            is_Ok (count_of (default ∅ (pc !! direction)) section)) as Hcount.
  { intros direction section Hd Hs. unfold counts_readable in Hcounts.
    rewrite Forall_forall in Hcounts. specialize (Hcounts _ Hd).
    rewrite Forall_forall in Hcounts. by apply Hcounts. }
  assert (∀ direction l, direction ∈ ["previous"; "next"] →
            l `sublist_of` records →
            Forall (shows (default ∅ (pc !! direction)) ck ok) l) as Hsub.
  { intros direction l Hd Hl. apply Forall_forall. intros r Hr.
    rewrite Forall_forall in Hrecords.
    specialize (Hrecords r (sublist_subseteq _ _ Hl _ Hr)).
    rewrite Forall_forall in Hrecords. by apply Hrecords. }
  destruct (process_peripheral_chunks_total
              (default ∅ (pc !! "previous")) ck ok (take i records) true)
    as [previous ->].
  { apply Hcount; in_list. }
  { apply Hcount; in_list. }
  { apply Hsub; [in_list|apply sublist_take]. }
  simpl.
  destruct (lookup_lt_is_Some_2 records i Hi) as [main_chunk Hmain].
  rewrite Hmain. simpl.
  assert (shows (default ∅ (pc !! "next")) ck ok main_chunk)
    as (_ & [s Hs] & _).
  { rewrite Forall_forall in Hrecords.
    specialize (Hrecords main_chunk (list_elem_of_lookup_2 _ _ _ Hmain)).
    rewrite Forall_forall in Hrecords. apply Hrecords. in_list. }
  assert (is_Ok (main_block ms main_chunk ck me)) as [block ->].
  { eexists. apply main_block_Ok. exists (PStr s).
    split; [done|]. split; [done|]. split; [by eexists|]. by split. }
  simpl.
  destruct (process_peripheral_chunks_total
              (default ∅ (pc !! "next")) ck ok (drop (S i) records) false)
    as [next ->].
  { apply Hcount; in_list. }
  { apply Hcount; in_list. }
  { apply Hsub; [in_list|apply sublist_drop]. }
  by eexists.
Qed.

Lemma comparable_spec (h : heap) (ok : pyval) (ls : list loc) :
  comparable h ok ls ↔
  ∀ l1 l2 k1 k2, l1 ∈ ls → l2 ∈ ls →
    field h ok l1 = Some k1 → field h ok l2 = Some k2 → is_Ok (lt k1 k2).
Proof.
  unfold comparable. rewrite Forall_forall. split.
  - intros Hcmp l1 l2 k1 k2 Hl1 Hl2 Hk1 Hk2.
    specialize (Hcmp l1 Hl1). rewrite Forall_forall in Hcmp.
    specialize (Hcmp l2 Hl2). by rewrite Hk1, Hk2 in Hcmp.
  - intros Hcmp l1 Hl1. apply Forall_forall. intros l2 Hl2.
    destruct (field h ok l1) eqn:E1, (field h ok l2) eqn:E2; eauto.
Qed.

Section sort_total.
Context {A : Type}.
Implicit Types (x : pyval * A) (l : list (pyval * A)).

Lemma insert_keyed_total x l :
  Forall (λ y, is_Ok (lt y.1 x.1)) l → is_Ok (insert_keyed x l).
Proof.
  induction 1 as [|y l [b Hb] _ [l' IH]]; simpl; [by eexists|].
  rewrite Hb. simpl. destruct b; [|by eexists]. rewrite IH. by eexists.
Qed.

Lemma sort_keyed_total l :
  (∀ p q, p ∈ l → q ∈ l → is_Ok (lt p.1 q.1)) → is_Ok (sort_keyed l).
Proof.
  induction l as [|x l IH]; intros Hcmp; simpl; [by eexists|].
  destruct IH as [s Hs].
  { intros p q Hp Hq. apply Hcmp; by right. }
  rewrite Hs. simpl. apply insert_keyed_total.
  apply sort_keyed_Ok in Hs as (Hperm & _).
  apply Forall_forall. intros y Hy. rewrite Hperm in Hy.
  apply Hcmp; [by right|left].
Qed.
End sort_total.

Lemma bind_M_eq {A B} (m : M A) (f : A → M B) (h h1 : heap) (a : A) :
  m h = Ok (a, h1) → (m ≫= f) h = f a h1.
Proof. intros Hm. unfold mbind, M_bind. by rewrite Hm. Qed.

Lemma map_M_read_total {A B} (f : A → M B) (l : list A) (h : heap) :
  (∀ x, x ∈ l → ∃ b, f x h = Ok (b, h)) → ∃ bs, map_M f l h = Ok (bs, h).
Proof.
  induction l as [|x l IH]; intros Hf; simpl; [by eexists|].
  destruct (Hf x) as [b Hb]; [left|].
  destruct IH as [bs Hbs]; [intros y Hy; apply Hf; by right|].
  exists (b :: bs). rewrite (bind_M_eq _ _ _ _ _ Hb).
  by rewrite (bind_M_eq _ _ _ _ _ Hbs).
Qed.

Section execute_total.
Variables (pc : peripheral) (ck dk ok ms me : pyval).
Hypothesis counts : counts_readable pc.
Hypothesis markers : printable ms ∧ printable me.

Local Abbreviation ready h := (readable h pc ck dk ok).
Local Abbreviation well_formed := (readable_record pc ck dk ok).

Lemma readable_app (h ext : heap) (ls : list loc) :
  ready h ls → ready (h ++ ext) ls.
Proof.
  intros [Hrecords Hcmp]. split.
  - eapply Forall_impl; [exact Hrecords|].
    intros l (r & Hr & Hwf). exists r. split; [|done].
    by apply lookup_app_l_Some.
  - rewrite Forall_forall in Hrecords.
    rewrite comparable_spec in *.
    intros l1 l2 k1 k2 Hl1 Hl2.
    destruct (Hrecords l1 Hl1) as (r1 & Hr1%lookup_lt_Some & _).
    destruct (Hrecords l2 Hl2) as (r2 & Hr2%lookup_lt_Some & _).
    rewrite !field_app by done. by apply Hcmp.
Qed.

Lemma readable_subseteq (h : heap) (ls ls' : list loc) :
  ls' ⊆ ls → ready h ls → ready h ls'.
Proof.
  intros Hsub [Hrecords Hcmp]. split.
  - rewrite Forall_forall in *. intros l Hl. apply Hrecords. by apply Hsub.
  - rewrite comparable_spec in *.
    intros l1 l2 k1 k2 Hl1 Hl2. apply Hcmp; by apply Hsub.
Qed.

Lemma group_chunks_total (h : heap) (input_data : list loc) :
  ready h input_data →
  ∃ g, group_chunks dk input_data h = Ok (g, h).
Proof.
  intros [Hrecords _]. unfold group_chunks. generalize ([] : groups).
  induction Hrecords as [|l ls (r & Hr & [d Hd] & _) _ IH]; intros g0; simpl.
  - by eexists.
  - erewrite bind_M_eq; [apply IH|].
    erewrite bind_M_eq; [|by apply load_Ok].
    erewrite bind_M_eq; [|by apply lift_Ok]. done.
Qed.

Lemma sort_chunks_total (h : heap) (g : list loc) :
  ready h g → ∃ s, sort_chunks ok g h = Ok (s, h).
Proof.
  intros [Hrecords Hcmp]. unfold sort_chunks.
  rewrite comparable_spec in Hcmp.
  destruct (map_M_read_total
              (λ x, r ← load x; lift (getitem r ok)) g h) as [keys Hkeys].
  { rewrite Forall_forall in Hrecords.
    intros l (r & Hr & _ & Hdirs)%Hrecords.
    apply Forall_cons in Hdirs as [((k & Hk & _) & _) _]. exists k.
    erewrite bind_M_eq; [|by apply load_Ok]. by apply lift_Ok. }
  pose proof Hkeys as Hfields.
  apply (map_M_read _ (λ l k, field h ok l = Some k)) in Hfields
    as [_ Hfields].
  2:{ intros l k h3 (r & h4 & [Hr ->]%load_Ok & [Hk ->]%lift_Ok)%bind_M_Ok.
      split; [done|]. apply field_Some. eauto. }
  destruct (sort_keyed_total (zip keys g)) as [ks Hks].
  { intros p q Hp Hq.
    pose proof (zip_fields _ _ _ _ Hfields p Hp) as Hfp.
    pose proof (zip_fields _ _ _ _ Hfields q Hq) as Hfq.
    eapply Hcmp; [| |exact Hfp|exact Hfq].
    - destruct p. by apply elem_of_zip_r in Hp.
    - destruct q. by apply elem_of_zip_r in Hq. }
  exists ks.*2. rewrite (bind_M_eq _ _ _ _ _ Hkeys).
  erewrite bind_M_eq; [|by apply lift_Ok]. done.
Qed.

Lemma process_chunk_total (h : heap) (chunks results : list loc) (i : nat)
    (chunk : loc) :
  ready h chunks → (i < length chunks)%nat → chunk ∈ chunks →
  ∃ r, process_chunk pc ck ok ms me chunks results i chunk h
       = Ok (results ++ [length h], h ++ [r]).
Proof.
  intros [Hrecords _] Hi Hchunk.
  destruct (map_M_read_total load chunks h) as [records Hload].
  { rewrite Forall_forall in Hrecords.
    intros l (r & Hr & _)%Hrecords. exists r. unfold load. by rewrite Hr. }
  pose proof Hload as [_ Hlookups]%map_M_load.
  destruct (format_chunk_with_context_total records i pc ck ok ms me)
    as [f Hf].
  - apply markers.
  - apply markers.
  - exact counts.
  - apply Forall_forall. intros r [k Hk]%list_elem_of_lookup_1.
    destruct (Forall2_lookup_r _ _ _ _ _ Hlookups Hk) as (l & Hl & Hlr).
    rewrite Forall_forall in Hrecords.
    destruct (Hrecords l (list_elem_of_lookup_2 _ _ _ Hl))
      as (r' & Hr' & _ & Hdirs).
    simpl in Hlr. by simplify_eq.
  - by rewrite <-(Forall2_length _ _ _ Hlookups).
  - rewrite Forall_forall in Hrecords.
    destruct (Hrecords chunk Hchunk) as (r & Hr & _ & Hdirs).
    apply Forall_cons in Hdirs as [(_ & [s Hs] & _) _].
    apply getitem_text_key in Hs as [name ->].
    exists (<[formatted_key (PStr name) := PStr f]> r).
    unfold process_chunk. rewrite (bind_M_eq _ _ _ _ _ Hload).
    erewrite bind_M_eq; [|by apply lift_Ok].
    erewrite bind_M_eq; [|apply copy_Ok; eauto].
    erewrite bind_M_eq; [|by apply lift_Ok].
    erewrite (bind_M_eq _ _ _ _ ()).
    2:{ apply setitem_Ok. eexists. split; [|done].
        by apply list_lookup_middle. }
    unfold mret, M_ret. do 3 f_equal.
    rewrite insert_app_r_alt by done. by rewrite Nat.sub_diag.
Qed.

Lemma chunks_loop_total (chunks cs : list loc) (i : nat)
    (results : list loc) (h : heap) :
  ready h chunks → cs ⊆ chunks → (i + length cs ≤ length chunks)%nat →
  ∃ results' ext,
    for_enumerate_M (process_chunk pc ck ok ms me chunks) i cs results h
    = Ok (results', h ++ ext).
Proof.
  revert i results h.
  induction cs as [|c cs IH]; intros i results h Hready Hsub Hlen; simpl.
  - exists results, []. by rewrite app_nil_r.
  - destruct (process_chunk_total h chunks results i c) as [r Hr];
      [done|simpl in Hlen; lia|apply Hsub; left|].
    rewrite (bind_M_eq _ _ _ _ _ Hr).
    destruct (IH (S i) (results ++ [length h]) (h ++ [r]))
      as (results' & ext & Hrest).
    + by apply readable_app.
    + intros l Hl. apply Hsub. by right.
    + simpl in Hlen. lia.
    + exists results', (r :: ext). rewrite Hrest.
      by rewrite <-app_assoc.
Qed.

Lemma process_group_total (g : pyval * list loc) (results : list loc)
    (h : heap) :
  ready h g.2 →
  ∃ results' ext,
    process_group pc ck ok ms me results g h = Ok (results', h ++ ext).
Proof.
  intros Hready. unfold process_group.
  destruct (sort_chunks_total h g.2 Hready) as [s Hs].
  rewrite (bind_M_eq _ _ _ _ _ Hs).
  apply sort_chunks_Ok in Hs as [_ Hperm%sorted_from_length].
  apply chunks_loop_total; [|done|simpl; lia].
  eapply readable_subseteq; [|exact Hready].
  intros l Hl. by rewrite <-Hperm.
Qed.

Lemma groups_loop_total (gs : groups) (results : list loc) (h : heap)
    (ls : list loc) :
  ready h ls → Forall (λ g, g.2 ⊆ ls) gs →
  ∃ results' ext,
    for_M (process_group pc ck ok ms me) gs results h
    = Ok (results', h ++ ext).
Proof.
  intros Hready Hgs. revert results h Hready.
  induction Hgs as [|g gs Hg _ IH]; intros results h Hready; simpl.
  - exists results, []. by rewrite app_nil_r.
  - destruct (process_group_total g results h) as (results1 & ext1 & H1).
    { by eapply readable_subseteq. }
    rewrite (bind_M_eq _ _ _ _ _ H1).
    destruct (IH results1 (h ++ ext1)) as (results' & ext & Hrest).
    { by apply readable_app. }
    exists results', (ext1 ++ ext). rewrite Hrest. by rewrite <-app_assoc.
Qed.
End execute_total.

Lemma execute_total (cfg : config) (input_data : list loc) (h : heap)
    (ck dk ok : pyval) (pc : peripheral) :
  top cfg !! "content_key" = Some ck →
  top cfg !! "doc_id_key" = Some dk →
  top cfg !! "order_key" = Some ok →
  peripheral_chunks cfg = Some pc →
  printable (start_marker cfg) → printable (end_marker cfg) →
  counts_readable pc →
  readable h pc ck dk ok input_data →
  ∃ outs h', execute cfg input_data h = Ok ((outs, 0), h').
Proof.
  intros Hck Hdk Hok Hpc Hms Hme Hcounts Hready. unfold execute.
  apply getitem_Ok in Hck, Hdk, Hok.
  erewrite bind_M_eq; [|by apply lift_Ok].
  erewrite bind_M_eq; [|by apply lift_Ok].
  erewrite bind_M_eq; [|by apply lift_Ok].
  rewrite Hpc. erewrite bind_M_eq; [|by apply lift_Ok].
  destruct (group_chunks_total pc ck dk ok h input_data Hready) as [g Hg].
  rewrite (bind_M_eq _ _ _ _ _ Hg).
  apply group_chunks_Ok in Hg as (_ & ids & Hids & ->).
  destruct (groups_loop_total pc ck dk ok (start_marker cfg) (end_marker cfg)
              Hcounts (conj Hms Hme) (grouping (zip ids input_data)) [] h
              input_data)
    as (results & ext & Hloop); [done| |].
  - apply Forall_forall. intros g Hg l Hl. by eapply grouping_members.
  - exists results, (h ++ ext).
    unfold start_marker, end_marker in Hloop.
    by rewrite (bind_M_eq _ _ _ _ _ Hloop).
Qed.

(** C2: on N chunk records that hold the document identity, the order
    key and the content key of every section, execute returns exactly N
    records, all distinct, each the copy of one input record, the records
    copied being the input rearranged.  The values are those of the data
    model: the content is text, the order keys can be compared with one
    another, the head and tail counts are integers, and what the lines
    insert can be written out.  The count and the correspondence hold of
    every run that returns. *)
Theorem C2_cardinality (cfg : config) (input_data : list loc) (h : heap) :
  (∀ outs c h',
     execute cfg input_data h = Ok ((outs, c), h') →
     length outs = length input_data ∧ NoDup outs ∧
     ∃ ck srcs,
       top cfg !! "content_key" = Some ck ∧ srcs ≡ₚ input_data ∧
       Forall2 (λ o src, ∃ r f, h !! src = Some r ∧
                  h' !! o = Some (<[formatted_key ck := PStr f]> r))
               outs srcs) ∧
  (∀ ck dk ok pc,
     top cfg !! "content_key" = Some ck →
     top cfg !! "doc_id_key" = Some dk →
     top cfg !! "order_key" = Some ok →
     peripheral_chunks cfg = Some pc →
     printable (start_marker cfg) → printable (end_marker cfg) →
     counts_integer pc →
     readable h pc ck dk ok input_data →
     ∃ outs h', execute cfg input_data h = Ok ((outs, 0), h') ∧
                length outs = length input_data).
Proof.
  assert (∀ outs c h',
            execute cfg input_data h = Ok ((outs, c), h') →
            length outs = length input_data ∧ NoDup outs ∧
            ∃ ck srcs,
              top cfg !! "content_key" = Some ck ∧ srcs ≡ₚ input_data ∧
              Forall2 (λ o src, ∃ r f, h !! src = Some r ∧
                         h' !! o = Some (<[formatted_key ck := PStr f]> r))
                      outs srcs) as Hcount.
  { intros outs c h'
      (ck & srcs & recs & Hck & Hperm & Hcopies & -> & ->)%execute_sources.
    split; [|split].
    - rewrite length_seq, <-(Forall2_length _ _ _ Hcopies). by rewrite Hperm.
    - apply NoDup_seq.
    - exists ck, srcs. do 2 (split; [done|]). by apply results_lookup. }
  split; [exact Hcount|].
  intros ck dk ok pc Hck Hdk Hok Hpc Hms Hme Hcounts Hready.
  destruct (execute_total cfg input_data h ck dk ok pc)
    as (outs & h' & Hrun); try done.
  { by apply counts_integer_readable. }
  exists outs, h'. split; [done|]. by apply (Hcount outs 0 h').
Qed.

(** The records of a store that is written out are readable. *)
Ltac show_holds := eexists; split; [reflexivity|by eexists].

Ltac show_shows :=
  split; [show_holds|];
  split; [by eexists|];
  repeat (apply Forall_cons_2; [show_holds|]); apply Forall_nil_2.

Ltac show_record :=
  eexists; split; [reflexivity|];
  split; [by eexists|];
  repeat (apply Forall_cons_2; [show_shows|]); apply Forall_nil_2.

Ltac show_readable :=
  split;
  [repeat (apply Forall_cons_2; [show_record|]); apply Forall_nil_2
  |repeat (apply Forall_cons_2;
           [repeat (apply Forall_cons_2; [vm_compute; by eexists|]);
            apply Forall_nil_2|]);
   apply Forall_nil_2].

Lemma C2_cardinality_witness :
  ∃ outs h', execute cfg_A [0; 1; 2; 3; 4]%nat interleaved
             = Ok ((outs, 0), h') ∧
             length outs = 5%nat.
Proof.
  destruct (C2_cardinality cfg_A [0; 1; 2; 3; 4]%nat interleaved)
    as [_ Hreturns].
  apply (Hreturns (PStr "text") (PStr "doc") (PStr "n") peripheral_A).
  - reflexivity.
  - reflexivity.
  - reflexivity.
  - reflexivity.
  - by eexists.
  - by eexists.
  - repeat constructor; by eexists.
  - show_readable.
Defined.

(** ** Validation (C8) *)

Lemma for_each_cases {A} (body : A → result ()) (l : list A) :
  (for_each body l = Ok () ∧ Forall (λ x, body x = Ok ()) l) ∨
  (∃ x e, x ∈ l ∧ body x = Err e ∧ for_each body l = Err e).
Proof.
  induction l as [|x l IH]; simpl; [by left|].
  destruct (body x) as [[]|e] eqn:E; simpl.
  - destruct IH as [[-> Hl]|(y & e & Hy & Hbody & ->)].
    + left. split; [done|]. by constructor.
    + right. exists y, e. split; [by right|done].
  - right. exists x, e. split; [left|done].
Qed.

Lemma check_required_key_Err (cfg : config) (key : string) (e : exn) :
  check_required_key cfg key = Err e →
  top cfg !! key = None ∧
  e = ValueError ("Missing required key '" +:+ key +:+
                  "' in GatherOperation configuration").
Proof.
  unfold check_required_key. case_bool_decide as Hkey; [done|].
  intros [= <-]. split; [|done]. by apply eq_None_not_Some.
Qed.

Lemma check_section_Err (direction section : string)
    (dc : gmap string (gmap string pyval)) (e : exn) :
  check_section direction dc section = Err e →
  ∃ sc, dc !! section = Some sc ∧ section ≠ "middle" ∧
        sc !! "count" = None ∧
        e = ValueError ("Missing 'count' in " +:+ direction +:+ "." +:+
                        section +:+ " configuration").
Proof.
  unfold check_section. destruct (dc !! section) as [sc|]; [|done].
  do 2 case_bool_decide; simpl; try done. intros [= <-]. by exists sc.
Qed.

Lemma check_marker_Err (cfg : config) (key : string) (e : exn) :
  check_marker cfg key = Err e →
  ∃ v, top cfg !! key = Some v ∧ isinstance_str v = false ∧
       e = TypeError ("'" +:+ key +:+ "' must be a string").
Proof.
  unfold check_marker. destruct (top cfg !! key) as [v|]; [|done].
  destruct (isinstance_str v) eqn:E; [done|]. intros [= <-]. by exists v.
Qed.

(** The validator accepts exactly the configurations without violation,
    and otherwise raises the exception of a violation the configuration
    has. *)
Lemma syntax_check_cases (cfg : config) :
  (syntax_check cfg = Ok () ∧ ¬ invalid cfg) ∨
  (∃ e, syntax_check cfg = Err e ∧ config_error cfg e).
Proof.
  unfold syntax_check.
  destruct (for_each_cases (check_required_key cfg)
              ["content_key"; "doc_id_key"; "order_key"])
    as [[-> Hkeys]|(key & e & Hkey & [Hnone ->]%check_required_key_Err & ->)].
  2:{ right. eexists. split; [done|]. by constructor. }
  cbv [mbind result_bind]. destruct (peripheral_chunks cfg) as [pc|] eqn:Hpc.
  2:{ right. eexists. split; [done|]. by constructor. }
  destruct (for_each_cases (check_direction pc) ["previous"; "next"])
    as [[-> Hdirs]|(direction & e & Hdir & Hcheck & ->)].
  2:{ right. exists e. split; [done|].
      unfold check_direction in Hcheck.
      destruct (pc !! direction) as [dc|] eqn:Hdc; [|done].
      destruct (for_each_cases (check_section direction dc)
                  ["head"; "middle"; "tail"])
        as [[Hok _]|(section & e' & Hsec & Hbody & Herr)]; [congruence|].
      rewrite Herr in Hcheck. injection Hcheck as ->.
      apply check_section_Err in Hbody as (sc & Hsc & Hmid & Hcount & ->).
      eapply missing_count; eauto.
      repeat (apply elem_of_cons in Hsec as [->|Hsec]);
        [in_list|done|in_list|by apply elem_of_nil in Hsec]. }
  destruct (check_marker cfg "main_chunk_start") as [[]|e] eqn:Hstart.
  2:{ right. exists e. split; [done|].
      apply check_marker_Err in Hstart as (v & Hv & Hstr & ->).
      eapply bad_marker; eauto. in_list. }
  destruct (check_marker cfg "main_chunk_end") as [[]|e] eqn:Hend.
  2:{ right. exists e. split; [done|].
      apply check_marker_Err in Hend as (v & Hv & Hstr & ->).
      eapply bad_marker; eauto. in_list. }
  left. split; [done|]. intros [e He].
  destruct He as [key Hkey Hnone| Hnone
                 | pc' direction section dc sc Hpc' Hdir Hsec Hdc Hsc Hcount
                 | key v Hkey Hv Hstr].
  - rewrite Forall_forall in Hkeys. specialize (Hkeys key Hkey).
    unfold check_required_key in Hkeys. rewrite Hnone in Hkeys.
    by rewrite bool_decide_false in Hkeys by (by intros [? ?]).
  - congruence.
  - assert (pc' = pc) as -> by congruence.
    rewrite Forall_forall in Hdirs. specialize (Hdirs direction Hdir).
    unfold check_direction in Hdirs. rewrite Hdc in Hdirs.
    destruct (for_each_cases (check_section direction dc)
                ["head"; "middle"; "tail"])
      as [[_ Hsecs]|(? & ? & _ & _ & ?)]; [|congruence].
    rewrite Forall_forall in Hsecs.
    assert (section ∈ ["head"; "middle"; "tail"] ∧ section ≠ "middle")
      as [Hsec' Hmid].
    { repeat (apply elem_of_cons in Hsec as [->|Hsec]);
        [split; [in_list|done]..|by apply elem_of_nil in Hsec]. }
    specialize (Hsecs section Hsec').
    unfold check_section in Hsecs. rewrite Hsc in Hsecs.
    by rewrite !bool_decide_true in Hsecs.
  - assert (check_marker cfg key = Ok ()) as Hok.
    { repeat (apply elem_of_cons in Hkey as [->|Hkey]);
        [done..|by apply elem_of_nil in Hkey]. }
    unfold check_marker in Hok. by rewrite Hv, Hstr in Hok.
Qed.

(** C8, as the code has it.  Validation is the separate entry point
    syntax_check: for every configuration with a violation it raises the
    exception of a violation the configuration has, which names the
    offending key, so a run that validates before it executes raises that
    exception and produces no record.  execute itself does not call
    it. *)
Theorem C8_validation (cfg : config) :
  invalid cfg →
  ∃ e, syntax_check cfg = Err e ∧ config_error cfg e ∧
       ∀ input_data h,
         (lift (syntax_check cfg);; execute cfg input_data) h = Err e.
Proof.
  intros Hinvalid.
  destruct (syntax_check_cases cfg) as [[_ Hvalid]|(e & Hcheck & He)]; [done|].
  exists e. split; [done|]. split; [done|].
  intros input_data h. unfold mbind, M_bind, lift. by rewrite Hcheck.
Qed.

Lemma C8_validation_witness :
  ∃ e, syntax_check cfg_no_count = Err e ∧ config_error cfg_no_count e.
Proof.
  destruct (C8_validation cfg_no_count) as (e & Hcheck & He & _).
  - eexists. eapply (missing_count _ _ "previous" "head"); try reflexivity.
    + left.
    + left.
  - exists e. split; [exact Hcheck|exact He].
Defined.

(** C8 as stated fails: a head section is declared without a count, the
    validator rejects the configuration, and execute called on it reads
    the count as 0 and returns the formatted record. *)
Lemma C8_counterexample :
  syntax_check cfg_no_count
  = Err (ValueError "Missing 'count' in previous.head configuration") ∧
  execute cfg_no_count [0%nat] solo = Ok (([1%nat], 0), solo ++ [solo_out]).
Proof. split; vm_compute; reflexivity. Qed.

(** ** Counts that are not integers (C10) *)

Lemma for_each_ext {A} (body1 body2 : A → result ()) (l : list A) :
  (∀ x, body1 x = body2 x) → for_each body1 l = for_each body2 l.
Proof. intros Hbody. induction l as [|x l IH]; simpl; [done|]. by rewrite Hbody, IH. Qed.

Lemma for_enumerate_ext {A St} (body1 body2 : St → nat → A → result St)
    (i : nat) (l : list A) (st : St) :
  (∀ st j x, body1 st j x = body2 st j x) →
  for_enumerate body1 i l st = for_enumerate body2 i l st.
Proof.
  intros Hbody. revert i st. induction l as [|x l IH]; intros i st; simpl; [done|].
  rewrite Hbody. destruct (body2 st i x); simpl; [apply IH|done].
Qed.

Lemma for_enumerate_M_ext {A St} (body1 body2 : St → nat → A → M St)
    (i : nat) (l : list A) (st : St) (h : heap) :
  (∀ st j x h, body1 st j x h = body2 st j x h) →
  for_enumerate_M body1 i l st h = for_enumerate_M body2 i l st h.
Proof.
  intros Hbody. revert i st h.
  induction l as [|x l IH]; intros i st h; simpl; [done|].
  unfold mbind, M_bind. rewrite Hbody.
  destruct (body2 st i x h) as [[st' h']|]; [apply IH|done].
Qed.

Lemma for_M_ext {A St} (body1 body2 : St → A → M St) (l : list A) (st : St)
    (h : heap) :
  (∀ st x h, body1 st x h = body2 st x h) →
  for_M body1 l st h = for_M body2 l st h.
Proof.
  intros Hbody. revert st h.
  induction l as [|x l IH]; intros st h; simpl; [done|].
  unfold mbind, M_bind. rewrite Hbody.
  destruct (body2 st x h) as [[st' h']|]; [apply IH|done].
Qed.

Lemma process_peripheral_chunks_same (c1 c2 : direction_config)
    (l : list record) (ck ok : pyval) (reverse : bool) :
  same_window c1 c2 →
  process_peripheral_chunks l c1 ck ok reverse
  = process_peripheral_chunks l c2 ck ok reverse.
Proof.
  intros (Hhead & Htail & Hmiddle & Hkeys).
  unfold process_peripheral_chunks, process_loop.
  unfold count_of in Hhead, Htail. rewrite Hhead, Htail.
  destruct (int (default (PInt 0) (default ∅ (c2 !! "head") !! "count")))
    as [hc|]; simpl; [|done].
  destruct (int (default (PInt 0) (default ∅ (c2 !! "tail") !! "count")))
    as [tc|]; simpl; [|done].
  rewrite (for_enumerate_ext _
             (loop_body (if reverse then reversed l else l) c2 ck ok hc tc));
    [done|].
  intros st j x. unfold loop_body.
  assert (classify (if reverse then reversed l else l) c1 hc tc j
          = classify (if reverse then reversed l else l) c2 hc tc j) as ->.
  { unfold classify. do 2 (case_bool_decide; [done|]).
    by rewrite (bool_decide_ext _ _ Hmiddle). }
  assert (∀ b, render c1 ck ok b x = render c2 ck ok b x) as Hrender.
  { intros b. unfold render. by rewrite Hkeys. }
  by rewrite !Hrender.
Qed.

Lemma with_count_same (dc : direction_config) (sc : gmap string pyval)
    (section : string) (v1 v2 : pyval) :
  int v1 = int v2 →
  same_window (<[section := <["count" := v1]> sc]> dc)
              (<[section := <["count" := v2]> sc]> dc).
Proof.
  intros Hint.
  assert (∀ name, count_of (<[section := <["count" := v1]> sc]> dc) name
                  = count_of (<[section := <["count" := v2]> sc]> dc) name)
    as Hcount.
  { intros name. unfold count_of.
    destruct (decide (section = name)) as [->|Hne].
    - rewrite !lookup_insert_eq. simpl. by rewrite !lookup_insert_eq.
    - by rewrite !lookup_insert_ne. }
  split; [apply Hcount|]. split; [apply Hcount|]. split.
  - destruct (decide (section = "middle")) as [->|Hne].
    + rewrite !lookup_insert_eq. split; eauto.
    + by rewrite !lookup_insert_ne.
  - intros name. destruct (decide (section = name)) as [->|Hne].
    + rewrite !lookup_insert_eq. simpl. by rewrite !lookup_insert_ne.
    + by rewrite !lookup_insert_ne.
Qed.

Section same_count.
Variables (cfg : config) (direction section : string) (v1 v2 : pyval).

Local Abbreviation pc_of v :=
  (<[direction := <[section := <["count" := v]>
      (default ∅ (default ∅ (default ∅ (peripheral_chunks cfg) !! direction)
                  !! section))]>
      (default ∅ (default ∅ (peripheral_chunks cfg) !! direction))]>
    (default ∅ (peripheral_chunks cfg))).

(** The validator looks for the key [count], never at its value. *)
Lemma syntax_check_with_count :
  syntax_check (with_count cfg direction section v1)
  = syntax_check (with_count cfg direction section v2).
Proof.
  unfold syntax_check, with_count. cbn [top peripheral_chunks].
  destruct (for_each _ ["content_key"; "doc_id_key"; "order_key"])
    as [[]|]; [|done].
  cbv [mbind result_bind].
  rewrite (for_each_ext _ (check_direction (pc_of v2))); [done|].
  intros d. unfold check_direction.
  destruct (decide (direction = d)) as [->|Hne];
    [|by rewrite !lookup_insert_ne].
  rewrite !lookup_insert_eq. apply for_each_ext.
  intros s. unfold check_section.
  destruct (decide (section = s)) as [->|Hne];
    [|by rewrite !lookup_insert_ne].
  rewrite !lookup_insert_eq. cbv beta iota.
  by rewrite !(bool_decide_false (Some _ = None)).
Qed.

Hypothesis same_int : int v1 = int v2.

Lemma format_chunk_with_context_with_count (records : list record)
    (i : nat) (ck ok ms me : pyval) :
  format_chunk_with_context records i (pc_of v1) ck ok ms me
  = format_chunk_with_context records i (pc_of v2) ck ok ms me.
Proof.
  assert (∀ d, same_window (default ∅ (pc_of v1 !! d))
                           (default ∅ (pc_of v2 !! d))) as Hsame.
  { intros d. destruct (decide (direction = d)) as [->|Hne].
    - rewrite !lookup_insert_eq. simpl. by apply with_count_same.
    - rewrite !lookup_insert_ne by done. repeat split; done. }
  unfold format_chunk_with_context.
  rewrite (process_peripheral_chunks_same _ _ _ _ _ _ (Hsame "previous")).
  by rewrite (process_peripheral_chunks_same _ _ _ _ _ _ (Hsame "next")).
Qed.

(** A count and what [int] makes of it give the same run. *)
Lemma execute_with_count (input_data : list loc) (h : heap) :
  execute (with_count cfg direction section v1) input_data h
  = execute (with_count cfg direction section v2) input_data h.
Proof.
  unfold execute, with_count. cbn [top peripheral_chunks].
  unfold mbind, M_bind.
  destruct (lift (getitem (top cfg) (PStr "content_key")) h)
    as [[ck h1]|]; [|done].
  destruct (lift (getitem (top cfg) (PStr "doc_id_key")) h1)
    as [[dk h2]|]; [|done].
  destruct (lift (getitem (top cfg) (PStr "order_key")) h2)
    as [[ok h3]|]; [|done].
  cbn [from_option lift].
  destruct (group_chunks dk input_data h3) as [[g h4]|]; [|done].
  rewrite (for_M_ext _ (process_group (pc_of v2) ck ok
             (default (PStr "--- Begin Main Chunk ---")
                      (top cfg !! "main_chunk_start"))
             (default (PStr "--- End Main Chunk ---")
                      (top cfg !! "main_chunk_end")))); [done|].
  intros results grp h5. unfold process_group, mbind, M_bind.
  destruct (sort_chunks ok grp.2 h5) as [[chunks h6]|]; [|done].
  apply for_enumerate_M_ext.
  intros results' j chunk h7. unfold process_chunk, mbind, M_bind.
  destruct (map_M load chunks h7) as [[records h8]|]; [|done].
  by rewrite format_chunk_with_context_with_count.
Qed.
End same_count.

Lemma process_peripheral_chunks_counts (l : list record)
    (config : direction_config) (ck ok : pyval) (reverse : bool) :
  is_Ok (process_peripheral_chunks l config ck ok reverse) →
  is_Ok (count_of config "head") ∧ is_Ok (count_of config "tail").
Proof.
  intros [lines Hrun]. unfold process_peripheral_chunks in Hrun.
  cbv zeta in Hrun. apply bind_Ok in Hrun as (st & Hloop & _).
  apply process_loop_trace in Hloop as (hc & tc & -> & -> & _).
  split; by eexists.
Qed.

Lemma some_formatted (h : heap) (pc : peripheral) (ck ok ms me : pyval)
    (ss : list (list loc)) (exts : list (list record)) :
  Forall2 (group_copies h pc ck ok ms me) ss exts → concat ss ≠ [] →
  ∃ records j, is_Ok (format_chunk_with_context records j pc ck ok ms me).
Proof.
  induction 1 as [|s ext ss exts (records & _ & Hcopies) _ IH]; [done|].
  destruct s as [|l s]; [by apply IH|]. intros _.
  rewrite enumerate_cons in Hcopies.
  inversion Hcopies as [|? rec ? ? (r & f & _ & Hf & _)]; simplify_eq.
  exists records, 0%nat. by exists f.
Qed.

(** A run that returns on a non-empty input has read the head and tail
    counts of both directions as integers. *)
Lemma execute_reads_counts (cfg : config) (input_data outs : list loc)
    (c : cost) (h h' : heap) :
  execute cfg input_data h = Ok ((outs, c), h') → input_data ≠ [] →
  ∃ pc, peripheral_chunks cfg = Some pc ∧ counts_readable pc.
Proof.
  intros Hrun Hinput.
  pose proof Hrun as (ck & srcs & recs & _ & Hperm & Hcopies & _ & _)%execute_sources.
  apply execute_Ok in Hrun
    as (ck' & dk & ok & pc & ids & ss & exts & _ & _ & _ & Hpc & Hids & Hss
        & Hexts & _).
  exists pc. split; [done|].
  assert (concat ss ≠ []) as Hne.
  { assert (length ids = length input_data) as Hlen.
    { symmetry. by eapply Forall2_length. }
    assert (concat ss ≡ₚ input_data) as Hss_perm.
    { transitivity (concat (grouping (zip ids input_data)).*2).
      - symmetry. apply concat_perm. apply Forall2_fmap_l.
        eapply Forall2_impl; [exact Hss|].
        intros g s Hgs. unfold compose. symmetry.
        exact (sorted_from_length _ _ _ _ Hgs).
      - rewrite grouping_spec, <-list_fmap_compose.
        rewrite (members_perm _ (zip ids input_data)).
        + rewrite snd_zip; [done|lia].
        + apply NoDup_first_seen.
        + intros p Hp. apply elem_of_first_seen. by apply list_elem_of_fmap_2. }
    intros Hnil. rewrite Hnil in Hss_perm.
    by apply Permutation_nil_l in Hss_perm. }
  destruct (some_formatted _ _ _ _ _ _ _ _ Hexts Hne)
    as (records & j & out & Hout).
  apply format_chunk_with_context_Ok in Hout
    as (_ & _ & previous & next & _ & _ & Hprev & Hnext & _).
  destruct (process_peripheral_chunks_counts _ _ _ _ _ (ex_intro _ _ Hprev)).
  destruct (process_peripheral_chunks_counts _ _ _ _ _ (ex_intro _ _ Hnext)).
  unfold counts_readable. repeat constructor; done.
Qed.

(** C10, as the code has it.  The validator gives the same verdict
    whatever value the count of a section holds.  A count that [int]
    reads as [z] gives the very run the integer [z] gives.  A head or tail
    count of either direction that [int] rejects makes execute raise on
    every input that is not empty; on the empty input nothing reads the
    count, and execute returns the empty result when the three keys are
    configured. *)
Theorem C10_count_coercion (cfg : config) (direction section : string)
    (v : pyval) :
  direction ∈ ["previous"; "next"] → section ∈ ["head"; "tail"] →
  (∀ v', syntax_check (with_count cfg direction section v)
         = syntax_check (with_count cfg direction section v')) ∧
  (∀ z, int v = Ok z → ∀ input_data h,
     execute (with_count cfg direction section v) input_data h
     = execute (with_count cfg direction section (PInt z)) input_data h) ∧
  (∀ e, int v = Err e → ∀ input_data h, input_data ≠ [] →
     ∃ e', execute (with_count cfg direction section v) input_data h = Err e') ∧
  (Forall (λ key, is_Some (top cfg !! key))
          ["content_key"; "doc_id_key"; "order_key"] →
   ∀ h, execute (with_count cfg direction section v) [] h = Ok (([], 0), h)).
Proof.
  intros Hdir Hsec. split; [|split; [|split]].
  - intros v'. apply syntax_check_with_count.
  - intros z Hz input_data h. by apply execute_with_count.
  - intros e He input_data h Hinput.
    destruct (execute _ input_data h) as [[[outs c] h']|e'] eqn:Hrun;
      [|by exists e'].
    apply execute_reads_counts in Hrun as (pc & Hpc & Hcounts); [|done].
    unfold with_count in Hpc. cbn [peripheral_chunks] in Hpc.
    injection Hpc as <-. unfold counts_readable in Hcounts.
    rewrite Forall_forall in Hcounts. specialize (Hcounts direction Hdir).
    rewrite Forall_forall in Hcounts. destruct (Hcounts section Hsec) as [z Hz].
    unfold count_of in Hz. rewrite lookup_insert_eq in Hz. simpl in Hz.
    rewrite lookup_insert_eq in Hz. simpl in Hz.
    rewrite lookup_insert_eq in Hz. simpl in Hz. congruence.
  - intros Hkeys h. rewrite Forall_forall in Hkeys.
    destruct (Hkeys "content_key") as [ck Hck]; [in_list|].
    destruct (Hkeys "doc_id_key") as [dk Hdk]; [in_list|].
    destruct (Hkeys "order_key") as [ok Hok]; [in_list|].
    apply getitem_Ok in Hck, Hdk, Hok.
    unfold execute, with_count. cbn [top peripheral_chunks].
    erewrite bind_M_eq; [|by apply lift_Ok].
    erewrite bind_M_eq; [|by apply lift_Ok].
    erewrite bind_M_eq; [|by apply lift_Ok].
    reflexivity.
Qed.

Lemma C10_count_coercion_witness :
  execute (with_count cfg_plain "previous" "head" (PStr "2"))
          [0; 1; 2; 3; 4]%nat document_A
  = execute (with_count cfg_plain "previous" "head" (PInt 2))
            [0; 1; 2; 3; 4]%nat document_A ∧
  (∃ e', execute (with_count cfg_plain "previous" "head" (PStr "two"))
                 [0; 1; 2; 3; 4]%nat document_A = Err e') ∧
  texts (execute (with_count cfg_plain "previous" "head" (PInt 2))
                 [0; 1; 2; 3; 4]%nat document_A)
  ≠ texts (execute cfg_plain [0; 1; 2; 3; 4]%nat document_A).
Proof.
  split; [|split].
  - destruct (C10_count_coercion cfg_plain "previous" "head" (PStr "2"))
      as (_ & Hsame & _); [in_list..|].
    apply (Hsame 2). reflexivity.
  - destruct (C10_count_coercion cfg_plain "previous" "head" (PStr "two"))
      as (_ & _ & Hraise & _); [in_list..|].
    eapply Hraise; [reflexivity|discriminate].
  - intros Heq.
    apply (bool_decide_eq_true_2 _ (Decision0 := decide_rel (=) _ _)) in Heq.
    vm_compute in Heq. discriminate.
Defined.

(** C10 as stated fails on the empty input: the count is the word "two",
    which [int] rejects, the validator accepts the configuration, and
    execute returns the empty result without raising. *)
Lemma C10_counterexample :
  cfg_word_count = with_count cfg_plain "previous" "head" (PStr "two") ∧
  int (PStr "two")
  = Err (ValueError "invalid literal for int() with base 10: 'two'") ∧
  syntax_check cfg_word_count = Ok () ∧
  execute cfg_word_count [] [] = Ok (([], 0), []).
Proof. repeat split; vm_compute; reflexivity. Qed.

(** * Further properties *)

Section window_form.
Variables (l : list record) (config : direction_config)
          (content_key order_key : pyval) (head_count tail_count : Z).

Local Abbreviation body :=
  (loop_body l config content_key order_key head_count tail_count).
Local Abbreviation bucket_of := (classify l config head_count tail_count).
Local Abbreviation a := (head_end (length l) head_count).
Local Abbreviation b := (tail_start (length l) head_count tail_count).

Lemma head_end_le : (a ≤ b ≤ length l)%nat.
Proof. unfold tail_start, head_end. lia. Qed.

Lemma classify_head (i : nat) : (i < a)%nat → bucket_of i = Head.
Proof.
  unfold head_end, classify. intros Hi.
  rewrite bool_decide_true; [done|lia].
Qed.

Lemma classify_tail (i : nat) : (b ≤ i < length l)%nat → bucket_of i = Tail.
Proof.
  unfold tail_start, head_end, classify, total_chunks. intros Hi.
  rewrite bool_decide_false by lia. rewrite bool_decide_true; [done|lia].
Qed.

Lemma classify_between (i : nat) :
  (a ≤ i < b)%nat →
  bucket_of i = if bool_decide (is_Some (config !! "middle")) then Middle
                else Skipped.
Proof.
  unfold tail_start, head_end, classify, total_chunks. intros Hi.
  rewrite bool_decide_false by lia. rewrite bool_decide_false; [done|lia].
Qed.

(** A stretch of indices that are all shown, entered with or without a
    pending placeholder, and followed by the final flush. *)
Lemma loop_shown_flushed (run : list record) (i : nat) (st : loop_state) :
  (∀ j, (i ≤ j < i + length run)%nat → bucket_of j ≠ Skipped) →
  flush_skip <$> for_enumerate body i run st
  = (lines ← map_result (λ jc, render config content_key order_key
                                       (bucket_of jc.1) jc.2)
                        (enumerate i run);
     Ok (LoopState (processed_parts (flush_skip st) ++ lines)
                   (included_chunks st ++ run) false
                   (skip_char_count (flush_skip st)))).
Proof.
  intros Hall. destruct run as [|c run].
  - simpl. rewrite !app_nil_r. unfold flush_skip.
    destruct st as [p inc [] n]; done.
  - rewrite enumerate_cons. cbn [for_enumerate map_result].
    rewrite loop_body_shown by (apply Hall; simpl; lia).
    cbn [fst snd].
    destruct (render _ _ _ _ c) as [line|e]; [|done].
    cbn [mbind result_bind].
    rewrite loop_all_shown; [|done|intros j Hj; apply Hall; simpl; lia].
    destruct (map_result _ _) as [lines|e]; [|done].
    cbn. unfold flush_skip. cbn. by rewrite <-!app_assoc.
Qed.


Lemma map_result_bucket (bkt : bucket) (run : list record) (i : nat) :
  (∀ j, (i ≤ j < i + length run)%nat → bucket_of j = bkt) →
  map_result (λ jc, render config content_key order_key (bucket_of jc.1) jc.2)
             (enumerate i run)
  = map_result (render config content_key order_key bkt) run.
Proof.
  revert i. induction run as [|c run IH]; intros i Hall; [done|].
  rewrite enumerate_cons. cbn [map_result fst snd].
  rewrite Hall by (simpl; lia).
  rewrite IH; [done|]. intros j Hj. apply Hall. simpl. lia.
Qed.

(** A stretch of indices of one bucket, entered with no pending
    placeholder. *)
Lemma loop_bucket (bkt : bucket) (run : list record) (i : nat)
    (st : loop_state) :
  bkt ≠ Skipped → in_skip st = false →
  (∀ j, (i ≤ j < i + length run)%nat → bucket_of j = bkt) →
  for_enumerate body i run st
  = (lines ← map_result (render config content_key order_key bkt) run;
     Ok (LoopState (processed_parts st ++ lines) (included_chunks st ++ run)
                   false (skip_char_count st))).
Proof.
  intros Hb Hin Hall.
  rewrite loop_all_shown; [|done|intros j Hj; by rewrite Hall].
  by rewrite (map_result_bucket bkt).
Qed.

(** The same stretch entered with or without a pending placeholder, and
    followed by the final flush. *)
Lemma loop_bucket_flushed (bkt : bucket) (run : list record) (i : nat)
    (st : loop_state) :
  bkt ≠ Skipped →
  (∀ j, (i ≤ j < i + length run)%nat → bucket_of j = bkt) →
  flush_skip <$> for_enumerate body i run st
  = (lines ← map_result (render config content_key order_key bkt) run;
     Ok (LoopState (processed_parts (flush_skip st) ++ lines)
                   (included_chunks st ++ run) false
                   (skip_char_count (flush_skip st)))).
Proof.
  intros Hb Hall. rewrite loop_shown_flushed by (intros j Hj; by rewrite Hall).
  by rewrite (map_result_bucket bkt).
Qed.

(** The whole loop and the final flush: heads, then the stretch between
    head and tail, then tails. *)
Lemma loop_window :
  processed_parts <$> (flush_skip <$> for_enumerate body 0 l initial_state)
  = window_lines l config content_key order_key head_count tail_count.
Proof.
  pose proof head_end_le as Hab.
  assert (l = take a l ++ take (b - a) (drop a l) ++ drop b l) as Hsplit.
  { rewrite <-(take_drop a l) at 1. f_equal.
    rewrite <-(take_drop (b - a) (drop a l)) at 1. f_equal.
    rewrite drop_drop. f_equal. lia. }
  assert (length (take a l) = a) as Hl1 by (rewrite length_take; lia).
  assert (length (take (b - a) (drop a l)) = (b - a)%nat) as Hl2.
  { rewrite length_take, length_drop. lia. }
  assert (length (drop b l) = (length l - b)%nat) as Hl3 by apply length_drop.
  unfold window_lines.
  replace (for_enumerate body 0 l initial_state)
    with (for_enumerate body 0 (take a l ++ take (b - a) (drop a l) ++ drop b l)
                        initial_state) by (by rewrite <-Hsplit).
  rewrite for_enumerate_app, Hl1.
  rewrite (loop_bucket Head); [|done|done|].
  2:{ intros j Hj. apply classify_head. lia. }
  destruct (map_result _ (take a l)) as [heads|e]; [|done].
  cbn [mbind result_bind initial_state processed_parts included_chunks
       skip_char_count app].
  rewrite for_enumerate_app, Hl2.
  case_bool_decide as Hmiddle.
  - rewrite (loop_bucket Middle); [|done|done|].
    2:{ intros j Hj. rewrite classify_between by lia.
        by rewrite bool_decide_true. }
    destruct (map_result _ (take (b - a) (drop a l))) as [mids|e]; [|done].
    cbn [mbind result_bind processed_parts included_chunks skip_char_count].
    rewrite (loop_bucket_flushed Tail); [|done|].
    2:{ intros j Hj. apply classify_tail. lia. }
    destruct (map_result _ (drop b l)) as [tails|e]; [|done].
    cbn. unfold flush_skip. cbn. by rewrite <-app_assoc.
  - destruct (skipped_chars l content_key) as [total|e] eqn:Htotal.
    + rewrite (skip_run _ _ _ _ _ _ total); [|done|].
      2:{ intros j Hj. rewrite classify_between by lia.
          by rewrite bool_decide_false. }
      cbn [mbind result_bind processed_parts included_chunks skip_char_count
           in_skip].
      rewrite (loop_bucket_flushed Tail); [|done|].
      2:{ intros j Hj. apply classify_tail. lia. }
      rewrite Hl2, orb_false_r. unfold flush_skip. cbn [in_skip].
      assert (bool_decide (take (b - a) (drop a l) ≠ [])
              = bool_decide (a < b)%nat) as ->.
      { apply bool_decide_ext. rewrite <-length_zero_iff_nil, Hl2. lia. }
      case_bool_decide;
        cbn [mbind result_bind processed_parts skip_char_count];
        destruct (map_result _ (drop b l)) as [tails|e]; try done;
        cbn; rewrite <-?app_assoc; try done.
    + case_bool_decide as Hlt.
      * destruct (take (b - a) (drop a l)) as [|c run] eqn:Hrun;
          [simpl in Hl2; lia|].
        cbn [for_enumerate]. rewrite loop_body_skipped.
        2:{ rewrite classify_between by lia. by rewrite bool_decide_false. }
        by rewrite Htotal.
      * replace (b - a)%nat with 0%nat by lia. rewrite take_0.
        cbn [for_enumerate mbind result_bind].
        rewrite (loop_bucket_flushed Tail); [|done|].
        2:{ intros j Hj. apply classify_tail. lia. }
        unfold flush_skip. cbn [in_skip processed_parts skip_char_count].
        by destruct (map_result _ (drop b l)) as [tails|e0].
Qed.
End window_form.

Lemma process_loop_window (l : list record) (config : direction_config)
    (content_key order_key : pyval) :
  processed_parts <$> process_loop l config content_key order_key
  = (hc ← count_of config "head"; tc ← count_of config "tail";
     window_lines l config content_key order_key hc tc).
Proof.
  unfold process_loop, count_of.
  destruct (int (default (PInt 0) (default ∅ (config !! "head") !! "count")))
    as [hc|e]; [|done].
  destruct (int (default (PInt 0) (default ∅ (config !! "tail") !! "count")))
    as [tc|e]; [|done].
  cbn [mbind result_bind]. rewrite <-loop_window.
  by destruct (for_enumerate _ _ _ _).
Qed.

(** X1: the lines process_peripheral_chunks returns, in closed form.  With
    the head count read as [hc] and the tail count as [tc], and the list
    taken in the order the loop sees it (reversed when [reverse] is set),
    they are the rendered neighbours before index [min n hc], then the
    neighbours up to the first tail index, rendered when a middle section
    is configured and otherwise replaced, if there are any, by a single
    placeholder that reports their number times the content length of the
    whole list, then the rendered tail neighbours; the lines are reversed
    again when [reverse] is set.  The first exception is raised in the
    same order. *)
Theorem X1_window_closed_form (chunks : list record)
    (config : direction_config) (content_key order_key : pyval)
    (reverse : bool) :
  process_peripheral_chunks chunks config content_key order_key reverse
  = (hc ← count_of config "head";
     tc ← count_of config "tail";
     lines ← window_lines (if reverse then reversed chunks else chunks)
                          config content_key order_key hc tc;
     Ok (if reverse then reversed lines else lines)).
Proof.
  unfold process_peripheral_chunks.
  pose proof (process_loop_window (if reverse then reversed chunks else chunks)
                config content_key order_key) as Hloop.
  destruct (count_of config "head") as [hc|e]; cbn [mbind result_bind] in *.
  2:{ by destruct (process_loop _ _ _ _). }
  destruct (count_of config "tail") as [tc|e]; cbn [mbind result_bind] in *.
  2:{ by destruct (process_loop _ _ _ _). }
  rewrite <-Hloop. by destruct (process_loop _ _ _ _).
Qed.

(** ** The window in closed form: consequences *)

Lemma process_peripheral_chunks_Ok_window (chunks : list record)
    (config : direction_config) (content_key order_key : pyval)
    (reverse : bool) (lines : list string) :
  process_peripheral_chunks chunks config content_key order_key reverse
  = Ok lines →
  ∃ hc tc wl,
    count_of config "head" = Ok hc ∧ count_of config "tail" = Ok tc ∧
    window_lines (if reverse then reversed chunks else chunks) config
                 content_key order_key hc tc = Ok wl ∧
    lines = if reverse then reversed wl else wl.
Proof.
  unfold process_peripheral_chunks. cbv zeta.
  intros (st & Hloop & [= <-])%bind_Ok.
  pose proof (process_loop_window (if reverse then reversed chunks else chunks)
                config content_key order_key) as Hwindow.
  rewrite Hloop in Hwindow. cbn [fmap result_fmap] in Hwindow.
  symmetry in Hwindow.
  apply bind_Ok in Hwindow as (hc & Hhc & (tc & Htc & Hwl)%bind_Ok).
  by exists hc, tc, (processed_parts st).
Qed.

Lemma window_lines_Ok (l : list record) (config : direction_config)
    (content_key order_key : pyval) (hc tc : Z) (wl : list string) :
  window_lines l config content_key order_key hc tc = Ok wl →
  let a := head_end (length l) hc in
  let b := tail_start (length l) hc tc in
  ∃ heads between tails,
    wl = heads ++ between ++ tails ∧
    Forall2 (λ c line, render config content_key order_key Head c = Ok line)
            (take a l) heads ∧
    Forall2 (λ c line, render config content_key order_key Tail c = Ok line)
            (drop b l) tails ∧
    ((is_Some (config !! "middle") ∧
      Forall2 (λ c line, render config content_key order_key Middle c = Ok line)
              (take (b - a) (drop a l)) between) ∨
     (config !! "middle" = None ∧ (a < b)%nat ∧
      ∃ total, skipped_chars l content_key = Ok total ∧
               between = [skip_line (Z.of_nat (b - a) * total)]) ∨
     (config !! "middle" = None ∧ (b ≤ a)%nat ∧ between = [])).
Proof.
  unfold window_lines. cbv zeta.
  intros (heads & Hheads%map_result_Forall2 &
          (between & Hbetween &
           (tails & Htails%map_result_Forall2 & [= <-])%bind_Ok)%bind_Ok)%bind_Ok.
  exists heads, between, tails. do 3 (split; [done|]).
  case_bool_decide as Hmiddle.
  - left. split; [done|]. by apply map_result_Forall2.
  - right. apply eq_None_not_Some in Hmiddle. case_bool_decide as Hlt.
    + left. do 2 (split; [done|]).
      apply bind_Ok in Hbetween as (total & Htotal & [= <-]). by exists total.
    + right. injection Hbetween as <-. split; [done|]. split; [lia|done].
Qed.

Lemma placeholders_app (l1 l2 : list string) :
  placeholders (l1 ++ l2) = placeholders l1 ++ placeholders l2.
Proof. apply filter_app. Qed.

Lemma placeholders_rendered (config : direction_config)
    (content_key order_key : pyval) (bkt : bucket) (cs : list record)
    (lines : list string) :
  Forall2 (λ c line, render config content_key order_key bkt c = Ok line)
          cs lines →
  placeholders lines = [].
Proof.
  intros Hlines. apply filter_none. intros line Hline.
  apply list_elem_of_lookup_1 in Hline as [i Hi].
  destruct (Forall2_lookup_r _ _ _ _ _ Hlines Hi) as (c & _ & Hc).
  apply render_is_chunk_line in Hc. rewrite Hc. by intros [].
Qed.

Lemma skipped_chars_text (l : list record) (content_key : pyval) (total : Z) :
  skipped_chars l content_key = Ok total →
  Forall (λ c, ∃ text, getitem c content_key = Ok (PStr text)) l.
Proof.
  unfold skipped_chars.
  intros (lens & Hlens%map_result_Forall2 & _)%bind_Ok.
  eapply Forall2_Forall_l; [exact Hlens|].
  apply Forall_forall. intros n _ c (v & Hv & Hlen)%bind_Ok.
  destruct v; try done. by eexists.
Qed.

Lemma render_Ok (config : direction_config) (content_key order_key : pyval)
    (bkt : bucket) (c : record) (line : string) :
  render config content_key order_key bkt c = Ok line →
  ∃ o v,
    getitem c order_key = Ok o ∧
    getitem c (section_key config content_key (section_name bkt)) = Ok v ∧
    line = chunk_line content_key
             (section_key config content_key (section_name bkt)) o v.
Proof.
  unfold render. cbv zeta.
  intros (o & Ho & (o' & ->%str_Ok & (v & Hv &
            (v' & ->%str_Ok & [= <-])%bind_Ok)%bind_Ok)%bind_Ok)%bind_Ok.
  exists o, v. do 2 (split; [done|]).
  unfold chunk_line, section_key.
  rewrite !string_app_assoc. do 2 f_equal.
  destruct (decide (default content_key
                      (default ∅ (config !! section_name bkt) !! "content_key")
                    = content_key)) as [Hkey|Hkey].
  - rewrite bool_decide_false by (by intros []). by rewrite bool_decide_true.
  - rewrite bool_decide_true by done. by rewrite bool_decide_false.
Qed.

Lemma process_peripheral_chunks_parts (chunks : list record)
    (config : direction_config) (content_key order_key : pyval)
    (reverse : bool) :
  process_peripheral_chunks chunks config content_key order_key reverse
  = (parts ← processed_parts <$>
               process_loop (if reverse then reversed chunks else chunks)
                            config content_key order_key;
     Ok (if reverse then reversed parts else parts)).
Proof.
  unfold process_peripheral_chunks. by destruct (process_loop _ _ _ _).
Qed.

Lemma count_of_insert (dc : direction_config) (sc : gmap string pyval)
    (section name : string) (v : pyval) :
  count_of (<[section := <["count" := v]> sc]> dc) name
  = if decide (section = name) then int v else count_of dc name.
Proof.
  unfold count_of. destruct (decide (section = name)) as [->|Hne].
  - rewrite lookup_insert_eq. simpl. by rewrite lookup_insert_eq.
  - by rewrite lookup_insert_ne.
Qed.

Lemma render_insert_count (dc : direction_config) (sc : gmap string pyval)
    (section : string) (v1 v2 : pyval) (content_key order_key : pyval)
    (bkt : bucket) (c : record) :
  render (<[section := <["count" := v1]> sc]> dc) content_key order_key bkt c
  = render (<[section := <["count" := v2]> sc]> dc) content_key order_key bkt c.
Proof.
  unfold render.
  destruct (decide (section = section_name bkt)) as [->|Hne].
  - rewrite !lookup_insert_eq. simpl. by rewrite !lookup_insert_ne.
  - by rewrite !lookup_insert_ne.
Qed.

(** The window depends on the counts through the two boundaries only. *)
Lemma window_lines_config (l : list record) (c1 c2 : direction_config)
    (content_key order_key : pyval) (hc1 tc1 hc2 tc2 : Z) :
  (∀ bkt c, render c1 content_key order_key bkt c
            = render c2 content_key order_key bkt c) →
  (is_Some (c1 !! "middle") ↔ is_Some (c2 !! "middle")) →
  head_end (length l) hc1 = head_end (length l) hc2 →
  tail_start (length l) hc1 tc1 = tail_start (length l) hc2 tc2 →
  window_lines l c1 content_key order_key hc1 tc1
  = window_lines l c2 content_key order_key hc2 tc2.
Proof.
  intros Hrender Hmiddle Ha Hb. unfold window_lines.
  rewrite Ha, Hb, (bool_decide_ext _ _ Hmiddle).
  assert (∀ bkt cs, map_result (render c1 content_key order_key bkt) cs
                    = map_result (render c2 content_key order_key bkt) cs)
    as Hmap.
  { intros bkt cs. apply map_result_ext. intros c _. apply Hrender. }
  by rewrite !Hmap.
Qed.

(** X2: a head or tail count below zero acts as zero, and a count above
    the number of neighbours acts as that number: replacing the count by
    its value clamped to the length of the neighbour list changes neither
    the lines returned nor the exception raised. *)
Theorem X2_count_clamped (chunks : list record) (dc : direction_config)
    (sc : gmap string pyval) (section : string) (count : Z)
    (content_key order_key : pyval) (reverse : bool) :
  section ∈ ["head"; "tail"] →
  process_peripheral_chunks chunks
    (<[section := <["count" := PInt count]> sc]> dc)
    content_key order_key reverse
  = process_peripheral_chunks chunks
      (<[section := <["count" :=
           PInt (Z.max 0 (Z.min (Z.of_nat (length chunks)) count))]> sc]> dc)
      content_key order_key reverse.
Proof.
  intros Hsection. rewrite !process_peripheral_chunks_parts.
  rewrite !process_loop_window, !count_of_insert.
  set (l := if reverse then reversed chunks else chunks).
  assert (length l = length chunks) as Hlen.
  { unfold l. destruct reverse; [apply length_reverse|done]. }
  assert (section ≠ "middle") as Hmiddle.
  { intros ->. repeat (apply elem_of_cons in Hsection as [[=]|Hsection]).
    by apply elem_of_nil in Hsection. }
  assert (∀ hc1 tc1 hc2 tc2,
            head_end (length l) hc1 = head_end (length l) hc2 →
            tail_start (length l) hc1 tc1 = tail_start (length l) hc2 tc2 →
            window_lines l (<[section := <["count" := PInt count]> sc]> dc)
                         content_key order_key hc1 tc1
            = window_lines l
                (<[section := <["count" :=
                     PInt (Z.max 0 (Z.min (Z.of_nat (length chunks)) count))]>
                     sc]> dc)
                content_key order_key hc2 tc2) as Hwindow.
  { intros hc1 tc1 hc2 tc2. apply window_lines_config.
    - intros bkt c. apply render_insert_count.
    - rewrite !lookup_insert_ne by done. reflexivity. }
  apply elem_of_cons in Hsection as [->|Hsection].
  - repeat case_decide; try done.
    cbn [int mbind result_bind].
    destruct (count_of dc "tail") as [tc|e]; [|done]. cbn [mbind result_bind].
    rewrite (Hwindow count tc
               (Z.max 0 (Z.min (Z.of_nat (length chunks)) count)) tc); [done|..];
      unfold tail_start, head_end; lia.
  - apply list_elem_of_singleton in Hsection as ->.
    repeat case_decide; try done.
    destruct (count_of dc "head") as [hc|e]; [|done].
    cbn [int mbind result_bind].
    rewrite (Hwindow hc count hc
               (Z.max 0 (Z.min (Z.of_nat (length chunks)) count))); [done|..];
      unfold tail_start, head_end; lia.
Qed.

Lemma X2_count_clamped_witness :
  process_peripheral_chunks next_of_1
    (<["tail" := <["count" := PInt 7]> ∅]> head1) (PStr "text") (PStr "n") true
  = process_peripheral_chunks next_of_1
      (<["tail" := <["count" := PInt 4]> ∅]> head1) (PStr "text") (PStr "n")
      true.
Proof.
  apply (X2_count_clamped next_of_1 head1 ∅ "tail" 7 (PStr "text") (PStr "n")
                          true).
  in_list.
Defined.

Lemma placeholders_skip_line (n : Z) :
  placeholders [skip_line n] = [skip_line n].
Proof.
  unfold placeholders. rewrite filter_cons_True; [done|].
  rewrite skip_line_not_chunk_line. by intros [].
Qed.

(** X3: the lines returned for one direction hold at most one
    placeholder, and never more lines than there are neighbours.  When no
    placeholder is among them, and in particular whenever a middle section
    is configured, there is exactly one line for every neighbour. *)
Theorem X3_placeholder_bound (chunks : list record)
    (config : direction_config) (content_key order_key : pyval)
    (reverse : bool) (lines : list string) :
  process_peripheral_chunks chunks config content_key order_key reverse
  = Ok lines →
  (length (placeholders lines) ≤ 1)%nat ∧
  (length lines ≤ length chunks)%nat ∧
  (placeholders lines = [] → length lines = length chunks) ∧
  (is_Some (config !! "middle") → placeholders lines = []).
Proof.
  intros (hc & tc & wl & _ & _ & Hwl & ->)%process_peripheral_chunks_Ok_window.
  set (l := if reverse then reversed chunks else chunks) in *.
  assert (length l = length chunks) as Hlen.
  { unfold l. destruct reverse; [apply length_reverse|done]. }
  assert (placeholders (if reverse then reversed wl else wl)
          = if reverse then reversed (placeholders wl) else placeholders wl)
    as ->.
  { destruct reverse; [apply filter_reverse|done]. }
  assert (∀ ls : list string,
            length (if reverse then reversed ls else ls) = length ls) as Hrev.
  { intros ls. destruct reverse; [apply length_reverse|done]. }
  assert (∀ ls : list string,
            (if reverse then reversed ls else ls) = [] ↔ ls = []) as Hnil.
  { intros ls. rewrite <-!length_zero_iff_nil. by rewrite Hrev. }
  rewrite !Hrev, Hnil, <-Hlen.
  apply window_lines_Ok in Hwl
    as (heads & between & tails & -> & Hheads & Htails & Hbetween).
  pose proof (head_end_le l hc tc) as Hab.
  rewrite !placeholders_app, !length_app.
  rewrite (placeholders_rendered _ _ _ _ _ _ Hheads).
  rewrite (placeholders_rendered _ _ _ _ _ _ Htails).
  apply Forall2_length in Hheads, Htails.
  rewrite length_take in Hheads. rewrite length_drop in Htails.
  rewrite app_nil_r, app_nil_l.
  destruct Hbetween as [[Hmiddle Hmids]|[(Hnone & Hlt & total & _ & ->)
                                        |(Hnone & Hge & ->)]].
  - rewrite (placeholders_rendered _ _ _ _ _ _ Hmids).
    apply Forall2_length in Hmids. rewrite length_take, length_drop in Hmids.
    simpl. split; [lia|]. split; [lia|]. split; [lia|done].
  - rewrite placeholders_skip_line. simpl.
    split; [lia|]. split; [lia|]. split; [done|].
    rewrite Hnone. by intros [? ?].
  - simpl. split; [lia|]. split; [lia|]. split; [lia|done].
Qed.

Lemma X3_placeholder_bound_witness :
  (length (placeholders ["[Chunk 2] bb"; "[... 42 characters skipped ...]"])
   ≤ 1)%nat ∧
  (length ["[Chunk 2] bb"; "[... 42 characters skipped ...]"]
   ≤ length next_of_1)%nat.
Proof.
  destruct (X3_placeholder_bound next_of_1 head1 (PStr "text") (PStr "n") false
              ["[Chunk 2] bb"; "[... 42 characters skipped ...]"] eq_refl)
    as (Hone & Hlen & _).
  split; [exact Hone|exact Hlen].
Defined.

(** X4: every line returned is either a placeholder that reports a count
    that is not negative, or the line of one of the neighbours shown in
    one of the sections head, middle and tail: the order value of the
    neighbour between ["[Chunk "] and ["]"], followed by the value the
    neighbour holds under the content key of the section.  The label
    [" (Summary)"] follows the order value exactly when the section names
    a content key other than the main one. *)
Theorem X4_line_shape (chunks : list record) (config : direction_config)
    (content_key order_key : pyval) (reverse : bool) (lines : list string) :
  process_peripheral_chunks chunks config content_key order_key reverse
  = Ok lines →
  Forall (λ line,
            (∃ n, 0 ≤ n ∧ line = skip_line n) ∨
            (∃ c section o v,
               c ∈ chunks ∧ section ∈ ["head"; "middle"; "tail"] ∧
               getitem c order_key = Ok o ∧
               getitem c (section_key config content_key section) = Ok v ∧
               line = chunk_line content_key
                        (section_key config content_key section) o v))
         lines.
Proof.
  intros (hc & tc & wl & _ & _ & Hwl & ->)%process_peripheral_chunks_Ok_window.
  set (l := if reverse then reversed chunks else chunks) in *.
  assert (∀ c, c ∈ l → c ∈ chunks) as Hin.
  { intros c. unfold l. destruct reverse; [by rewrite elem_of_reverse|done]. }
  assert (∀ P : string → Prop,
            Forall P wl → Forall P (if reverse then reversed wl else wl))
    as Hrev.
  { intros P. destruct reverse; [apply Forall_reverse|done]. }
  apply Hrev. clear Hrev.
  apply window_lines_Ok in Hwl
    as (heads & between & tails & -> & Hheads & Htails & Hbetween).
  assert (∀ bkt (cs : list record) (ls : list string),
            bkt ≠ Skipped → cs `sublist_of` l →
            Forall2 (λ c line, render config content_key order_key bkt c
                               = Ok line) cs ls →
            Forall (λ line,
                      (∃ n, 0 ≤ n ∧ line = skip_line n) ∨
                      (∃ c section o v,
                         c ∈ chunks ∧ section ∈ ["head"; "middle"; "tail"] ∧
                         getitem c order_key = Ok o ∧
                         getitem c (section_key config content_key section)
                         = Ok v ∧
                         line = chunk_line content_key
                                  (section_key config content_key section) o v))
                   ls) as Hrendered.
  { intros bkt cs ls Hbkt Hsub Hls. apply Forall_forall.
    intros line [i Hi]%list_elem_of_lookup_1.
    destruct (Forall2_lookup_r _ _ _ _ _ Hls Hi) as (c & Hc & Hline).
    apply render_Ok in Hline as (o & v & Ho & Hv & ->).
    right. exists c, (section_name bkt), o, v. split; [|split; [|done]].
    - apply Hin. eapply sublist_subseteq; [exact Hsub|].
      by eapply list_elem_of_lookup_2.
    - destruct bkt; [in_list..|done]. }
  apply Forall_app. split; [|apply Forall_app; split].
  - eapply (Hrendered Head); [done|apply sublist_take|exact Hheads].
  - destruct Hbetween as [[_ Hmids]|[(_ & _ & total & Htotal & ->)
                                    |(_ & _ & ->)]].
    + eapply (Hrendered Middle); [done| |exact Hmids].
      etrans; [apply sublist_take|apply sublist_drop].
    + constructor; [|constructor]. left. eexists. split; [|done].
      apply skipped_chars_nonneg in Htotal. nia.
    + constructor.
  - eapply (Hrendered Tail); [done|apply sublist_drop|exact Htails].
Qed.

Lemma X4_line_shape_witness :
  Forall (λ line,
            (∃ n, 0 ≤ n ∧ line = skip_line n) ∨
            (∃ c section o v,
               c ∈ next_of_1 ∧ section ∈ ["head"; "middle"; "tail"] ∧
               getitem c (PStr "n") = Ok o ∧
               getitem c (section_key head1 (PStr "text") section) = Ok v ∧
               line = chunk_line (PStr "text")
                        (section_key head1 (PStr "text") section) o v))
         ["[Chunk 2] bb"; "[... 42 characters skipped ...]"].
Proof.
  apply (X4_line_shape next_of_1 head1 (PStr "text") (PStr "n") false).
  reflexivity.
Defined.

(** X5: when no middle section is configured and the head and tail counts
    together leave a neighbour out, the length of the content of every
    neighbour is taken, those that are shown included: if the function
    returns, every neighbour holds a text under the content key, also
    when the sections that show it read another key. *)
Theorem X5_skip_reads_every_neighbour (chunks : list record)
    (config : direction_config) (content_key order_key : pyval)
    (reverse : bool) (hc tc : Z) (lines : list string) :
  count_of config "head" = Ok hc → count_of config "tail" = Ok tc →
  config !! "middle" = None →
  0 ≤ hc → 0 ≤ tc → hc + tc < Z.of_nat (length chunks) →
  process_peripheral_chunks chunks config content_key order_key reverse
  = Ok lines →
  Forall (λ c, ∃ text, getitem c content_key = Ok (PStr text)) chunks ∧
  ∃ total, skip_line total ∈ lines.
Proof.
  intros Hhc Htc Hnone Hh Ht Hlt
    (hc' & tc' & wl & Hhc' & Htc' & Hwl & ->)%process_peripheral_chunks_Ok_window.
  assert (hc' = hc) as -> by congruence.
  assert (tc' = tc) as -> by congruence.
  set (l := if reverse then reversed chunks else chunks) in *.
  assert (length l = length chunks) as Hlen.
  { unfold l. destruct reverse; [apply length_reverse|done]. }
  apply window_lines_Ok in Hwl
    as (heads & between & tails & -> & _ & _ & Hbetween).
  destruct Hbetween as [[[? Hmiddle] _]|[(_ & _ & total & Htotal & ->)
                                        |(_ & Hge & _)]].
  - congruence.
  - split.
    + apply skipped_chars_text in Htotal. unfold l in Htotal.
      destruct reverse; [by apply Forall_reverse|done].
    + eexists.
      assert (∀ (s : string) (ls : list string),
                s ∈ ls → s ∈ (if reverse then reversed ls else ls)) as Hrev.
      { intros s ls. destruct reverse; [by rewrite elem_of_reverse|done]. }
      apply Hrev. rewrite !elem_of_app, list_elem_of_singleton. right. by left.
  - unfold tail_start, head_end in Hge. lia.
Qed.

Lemma X5_skip_reads_every_neighbour_witness :
  Forall (λ c, ∃ text, getitem c (PStr "text") = Ok (PStr text)) next_of_1 ∧
  ∃ total, skip_line total ∈ ["[Chunk 2] bb"; "[... 42 characters skipped ...]"].
Proof.
  apply (X5_skip_reads_every_neighbour next_of_1 head1 (PStr "text") (PStr "n")
           false 1 0).
  - reflexivity.
  - reflexivity.
  - reflexivity.
  - lia.
  - lia.
  - simpl. lia.
  - reflexivity.
Defined.

(** ** The assembled text at the ends of a group and out of range *)

Lemma process_peripheral_chunks_nil (config : direction_config)
    (content_key order_key : pyval) (reverse : bool) :
  process_peripheral_chunks [] config content_key order_key reverse
  = (count_of config "head";; count_of config "tail";; Ok []).
Proof.
  unfold process_peripheral_chunks, process_loop, count_of.
  destruct (int (default (PInt 0) (default ∅ (config !! "head") !! "count")))
    as [hc|e]; [|by destruct reverse].
  destruct (int (default (PInt 0) (default ∅ (config !! "tail") !! "count")))
    as [tc|e]; by destruct reverse.
Qed.

(** X6: the first chunk of a group has no line and no placeholder in its
    previous context, and the last chunk none in its next context: the
    header of the direction is directly followed by its footer.  For the
    first chunk the text is the two lines of the empty previous context,
    a blank line, the main block, a blank line and the next context; for
    the last chunk it ends with the two lines of the empty next
    context. *)
Theorem X6_group_edges (chunks : list record) (peripheral_config : peripheral)
    (content_key order_key main_chunk_start main_chunk_end : pyval) :
  (∀ out,
     format_chunk_with_context chunks 0 peripheral_config content_key
       order_key main_chunk_start main_chunk_end = Ok out →
     ∃ main_chunk content next,
       chunks !! 0%nat = Some main_chunk ∧
       getitem main_chunk content_key = Ok content ∧
       process_peripheral_chunks (drop 1 chunks)
         (default ∅ (peripheral_config !! "next")) content_key order_key false
       = Ok next ∧
       out = join nl
               (["--- Previous Context ---";
                 "--- End Previous Context ---"; "";
                 text main_chunk_start; text content; text main_chunk_end; "";
                 "--- Next Context ---"] ++ next ++
                ["--- End Next Context ---"])) ∧
  (∀ out,
     format_chunk_with_context chunks (length chunks - 1) peripheral_config
       content_key order_key main_chunk_start main_chunk_end = Ok out →
     ∃ main_chunk content previous,
       last chunks = Some main_chunk ∧
       getitem main_chunk content_key = Ok content ∧
       process_peripheral_chunks (take (length chunks - 1) chunks)
         (default ∅ (peripheral_config !! "previous")) content_key order_key
         true
       = Ok previous ∧
       out = join nl
               (["--- Previous Context ---"] ++ previous ++
                ["--- End Previous Context ---"; "";
                 text main_chunk_start; text content; text main_chunk_end; "";
                 "--- Next Context ---"; "--- End Next Context ---"])).
Proof.
  assert (∀ before after ms content me,
            join nl (before ++
                     ["--- End Previous Context ---" +:+ nl;
                      text ms +:+ nl +:+ text content +:+ nl +:+ text me;
                      nl +:+ "--- Next Context ---"] ++ after)
            = join nl (before ++
                       ["--- End Previous Context ---"; "";
                        text ms; text content; text me; "";
                        "--- Next Context ---"] ++ after)) as Hjoin.
  { intros before after ms content me.
    destruct (decide (after = [])) as [->|Hafter].
    - rewrite !app_nil_r.
      destruct (decide (before = [])) as [->|Hbefore].
      + cbn. by rewrite !string_app_assoc.
      + rewrite !join_app by done. do 2 f_equal.
        cbn. by rewrite !string_app_assoc.
    - rewrite !app_assoc.
      rewrite (join_app _ _ after); [|by intros []%app_eq_nil|done].
      rewrite (join_app _ _ after); [|by intros []%app_eq_nil|done].
      f_equal.
      destruct (decide (before = [])) as [->|Hbefore].
      + cbn. by rewrite !string_app_assoc.
      + rewrite !join_app by done. do 2 f_equal.
        cbn. by rewrite !string_app_assoc. }
  split.
  - intros out. unfold format_chunk_with_context.
    rewrite take_0, process_peripheral_chunks_nil.
    intros (previous & Hprev & (main_chunk & Hmain & (main & Hblock &
              (next & Hnext & [= <-])%bind_Ok)%bind_Ok)%bind_Ok)%bind_Ok.
    apply bind_Ok in Hprev as (hc & _ & (tc & _ & [= <-])%bind_Ok).
    destruct (chunks !! 0%nat) as [c|] eqn:Hc; [|done].
    injection Hmain as ->.
    apply main_block_Ok in Hblock as (content & Hcontent & _ & _ & _ & ->).
    exists main_chunk, content, next. do 3 (split; [done|]).
    exact (Hjoin ["--- Previous Context ---"]
                 (next ++ ["--- End Next Context ---"]) _ _ _).
  - intros out. unfold format_chunk_with_context.
    intros (previous & Hprev & (main_chunk & Hmain & (main & Hblock &
              (next & Hnext & [= <-])%bind_Ok)%bind_Ok)%bind_Ok)%bind_Ok.
    destruct (chunks !! (length chunks - 1)%nat) as [c|] eqn:Hc; [|done].
    injection Hmain as ->.
    apply main_block_Ok in Hblock as (content & Hcontent & _ & _ & _ & ->).
    assert (drop (S (length chunks - 1)) chunks = []) as Hdrop.
    { apply drop_ge. lia. }
    rewrite Hdrop, process_peripheral_chunks_nil in Hnext.
    apply bind_Ok in Hnext as (hc & _ & (tc & _ & [= <-])%bind_Ok).
    exists main_chunk, content, previous.
    split; [by rewrite last_lookup, <-Nat.sub_1_r|]. do 2 (split; [done|]).
    rewrite app_nil_l, !(app_assoc ["--- Previous Context ---"] previous).
    exact (Hjoin (["--- Previous Context ---"] ++ previous)
                 ["--- End Next Context ---"] _ _ _).
Qed.

(** X7: an index at or beyond the end of the group never yields a text.
    The previous context is then computed over the whole group, and when
    that raises nothing the call raises [IndexError]. *)
Theorem X7_index_out_of_range (chunks : list record) (current_index : nat)
    (peripheral_config : peripheral)
    (content_key order_key main_chunk_start main_chunk_end : pyval) :
  (length chunks ≤ current_index)%nat →
  format_chunk_with_context chunks current_index peripheral_config
    content_key order_key main_chunk_start main_chunk_end
  = (process_peripheral_chunks chunks
       (default ∅ (peripheral_config !! "previous")) content_key order_key
       true;;
     Err IndexError).
Proof.
  intros Hi. unfold format_chunk_with_context.
  rewrite take_ge by done. rewrite lookup_ge_None_2 by done.
  by destruct (process_peripheral_chunks _ _ _ _ _).
Qed.

Lemma X7_index_out_of_range_witness :
  format_chunk_with_context document_A 5 peripheral_A (PStr "text") (PStr "n")
    (PStr "<<") (PStr ">>")
  = Err IndexError.
Proof.
  rewrite (X7_index_out_of_range document_A 5 peripheral_A (PStr "text")
             (PStr "n") (PStr "<<") (PStr ">>")) by (simpl; lia).
  reflexivity.
Defined.

(** ** The fields the text depends on *)

Lemma map_result_Forall2_eq {A B C} (f : A → result C) (g : B → result C)
    (l : list A) (k : list B) :
  Forall2 (λ x y, f x = g y) l k → map_result f l = map_result g k.
Proof.
  induction 1 as [|x y l k Hxy _ IH]; [done|].
  cbn [map_result]. by rewrite Hxy, IH.
Qed.

Section same_records.
Variables (config : direction_config) (content_key order_key : pyval).

Local Abbreviation agree :=
  (λ r1 r2 : record,
     ∀ k, k ∈ keys_read config content_key order_key →
          getitem r1 k = getitem r2 k).

Lemma render_agree (bkt : bucket) (r1 r2 : record) :
  bkt ≠ Skipped → agree r1 r2 →
  render config content_key order_key bkt r1
  = render config content_key order_key bkt r2.
Proof.
  intros Hbkt Hagree. unfold render. cbv zeta.
  rewrite (Hagree order_key) by (unfold keys_read; in_list).
  fold (section_key config content_key (section_name bkt)).
  rewrite (Hagree (section_key config content_key (section_name bkt))); [done|].
  unfold keys_read. destruct bkt; [in_list..|done].
Qed.

Lemma skipped_chars_agree (l1 l2 : list record) :
  Forall2 agree l1 l2 →
  skipped_chars l1 content_key = skipped_chars l2 content_key.
Proof.
  intros Hagree. unfold skipped_chars.
  rewrite (map_result_Forall2_eq _ (λ c, v ← getitem c content_key; len v)
                                 l1 l2); [done|].
  eapply Forall2_impl; [exact Hagree|].
  intros r1 r2 Hr. cbv beta.
  by rewrite (Hr content_key) by (unfold keys_read; in_list).
Qed.

Lemma window_lines_agree (l1 l2 : list record) (hc tc : Z) :
  Forall2 agree l1 l2 →
  window_lines l1 config content_key order_key hc tc
  = window_lines l2 config content_key order_key hc tc.
Proof.
  intros Hagree. unfold window_lines.
  rewrite (Forall2_length _ _ _ Hagree), (skipped_chars_agree _ _ Hagree).
  assert (∀ bkt (k1 k2 : list record),
            bkt ≠ Skipped → Forall2 agree k1 k2 →
            map_result (render config content_key order_key bkt) k1
            = map_result (render config content_key order_key bkt) k2)
    as Hmap.
  { intros bkt k1 k2 Hbkt Hk. apply map_result_Forall2_eq.
    eapply Forall2_impl; [exact Hk|]. intros r1 r2. by apply render_agree. }
  generalize (head_end (length l2) hc) (tail_start (length l2) hc tc).
  intros a b.
  rewrite (Hmap Head (take a l1) (take a l2)) by (done || by apply Forall2_take).
  rewrite (Hmap Tail (drop b l1) (drop b l2)) by (done || by apply Forall2_drop).
  rewrite (Hmap Middle (take (b - a) (drop a l1)) (take (b - a) (drop a l2)));
    [done..|by apply Forall2_take, Forall2_drop].
Qed.

Lemma process_peripheral_chunks_agree (l1 l2 : list record) (reverse : bool) :
  Forall2 agree l1 l2 →
  process_peripheral_chunks l1 config content_key order_key reverse
  = process_peripheral_chunks l2 config content_key order_key reverse.
Proof.
  intros Hagree. rewrite !process_peripheral_chunks_parts, !process_loop_window.
  destruct (count_of config "head") as [hc|e]; [|done].
  destruct (count_of config "tail") as [tc|e]; [|done].
  cbn [mbind result_bind].
  rewrite (window_lines_agree (if reverse then reversed l1 else l1)
                              (if reverse then reversed l2 else l2)); [done|].
  destruct reverse; [by apply Forall2_reverse|done].
Qed.
End same_records.

Lemma format_chunk_with_context_agree (chunks1 chunks2 : list record)
    (current_index : nat) (peripheral_config : peripheral)
    (content_key order_key main_chunk_start main_chunk_end : pyval) :
  Forall2 (same_fields peripheral_config content_key order_key)
          chunks1 chunks2 →
  format_chunk_with_context chunks1 current_index peripheral_config
    content_key order_key main_chunk_start main_chunk_end
  = format_chunk_with_context chunks2 current_index peripheral_config
      content_key order_key main_chunk_start main_chunk_end.
Proof.
  intros Hsame. unfold format_chunk_with_context.
  assert (∀ direction, direction ∈ ["previous"; "next"] →
            Forall2 (λ r1 r2 : record,
                       ∀ k, k ∈ keys_read (default ∅ (peripheral_config
                                                      !! direction))
                                          content_key order_key →
                            getitem r1 k = getitem r2 k) chunks1 chunks2)
    as Hdir.
  { intros direction Hd. eapply Forall2_impl; [exact Hsame|].
    intros r1 r2 Hr k Hk. apply Hr. rewrite elem_of_app.
    repeat (apply elem_of_cons in Hd as [->|Hd]); [by left|by right|].
    by apply elem_of_nil in Hd. }
  rewrite (process_peripheral_chunks_agree _ _ _ (take current_index chunks1)
             (take current_index chunks2))
    by (apply Forall2_take, Hdir; in_list).
  rewrite (process_peripheral_chunks_agree _ _ _
             (drop (S current_index) chunks1) (drop (S current_index) chunks2))
    by (apply Forall2_drop, Hdir; in_list).
  destruct (process_peripheral_chunks (take current_index chunks2) _ _ _ _)
    as [previous|e]; [|done].
  cbn [mbind result_bind].
  destruct (chunks1 !! current_index) as [r1|] eqn:Hr1.
  - destruct (Forall2_lookup_l _ _ _ _ _ Hsame Hr1) as (r2 & -> & Hr).
    cbn [from_option mbind result_bind]. unfold main_block.
    rewrite (Hr content_key); [done|].
    rewrite elem_of_app. left. unfold keys_read. in_list.
  - apply lookup_ge_None in Hr1. rewrite (Forall2_length _ _ _ Hsame) in Hr1.
    by rewrite (lookup_ge_None_2 chunks2).
Qed.

Lemma getitem_insert_ne (r : record) (key : string) (v k : pyval) :
  k ≠ PStr key → getitem (<[key := v]> r) k = getitem r k.
Proof.
  intros Hk. unfold getitem. destruct k as [| |s]; [done..|].
  rewrite lookup_insert_ne; [done|]. by intros ->.
Qed.

(** X8: the text depends on the records only through the fields the
    configuration names: the content key, the order key, and the content
    keys of the sections of both directions.  Two groups whose records
    hold the same under these keys give the same text, or raise the same
    exception, at every index.  Any other field is never read: setting
    one in the records, to any values, changes nothing; the formatted
    text of an earlier run is such a field. *)
Theorem X8_reads_named_fields (chunks1 chunks2 : list record)
    (current_index : nat) (peripheral_config : peripheral)
    (content_key order_key main_chunk_start main_chunk_end : pyval) :
  Forall2 (same_fields peripheral_config content_key order_key)
          chunks1 chunks2 →
  format_chunk_with_context chunks1 current_index peripheral_config
    content_key order_key main_chunk_start main_chunk_end
  = format_chunk_with_context chunks2 current_index peripheral_config
      content_key order_key main_chunk_start main_chunk_end ∧
  ∀ (key : string) (value : record → pyval),
    PStr key ∉ keys_read (default ∅ (peripheral_config !! "previous"))
                         content_key order_key ++
               keys_read (default ∅ (peripheral_config !! "next"))
                         content_key order_key →
    format_chunk_with_context ((λ r, <[key := value r]> r) <$> chunks1)
      current_index peripheral_config content_key order_key
      main_chunk_start main_chunk_end
    = format_chunk_with_context chunks2 current_index peripheral_config
        content_key order_key main_chunk_start main_chunk_end.
Proof.
  intros Hsame. split; [by apply format_chunk_with_context_agree|].
  intros key value Hkey. apply format_chunk_with_context_agree.
  apply Forall2_fmap_l. eapply Forall2_impl; [exact Hsame|].
  intros r1 r2 Hagree k Hk. cbv beta. rewrite <-(Hagree k Hk).
  apply getitem_insert_ne. by intros ->.
Qed.

Lemma X8_reads_named_fields_witness :
  format_chunk_with_context
    [<["text_formatted" := PStr "old"]> (chunk_of "d1" 1 "a")] 0 peripheral_A
    (PStr "text") (PStr "n") (PStr "<<") (PStr ">>")
  = format_chunk_with_context [chunk_of "d1" 1 "a"] 0 peripheral_A
      (PStr "text") (PStr "n") (PStr "<<") (PStr ">>").
Proof.
  refine (proj1 (X8_reads_named_fields _ _ _ _ _ _ _ _ _)).
  constructor; [|constructor].
  intros k Hk.
  repeat (apply elem_of_cons in Hk as [->|Hk]); try reflexivity.
  by apply elem_of_nil in Hk.
Defined.

(** ** Validation: what is accepted, and which violation is reported *)

(** X9: the validator accepts a configuration exactly when it holds the
    three required keys and the peripheral configuration, every head and
    tail section declared for the previous or the next direction holds a
    count, and each marker that is present is a string.  Nothing else is
    required: neither a value of a given type under the required keys,
    nor a count that is a number. *)
Theorem X9_syntax_check_accepts (cfg : config) :
  syntax_check cfg = Ok () ↔
  Forall (λ key, is_Some (top cfg !! key))
         ["content_key"; "doc_id_key"; "order_key"] ∧
  (∃ pc, peripheral_chunks cfg = Some pc ∧
         Forall (λ direction,
                   Forall (λ section,
                             ∀ dc sc, pc !! direction = Some dc →
                                      dc !! section = Some sc →
                                      is_Some (sc !! "count"))
                          ["head"; "tail"])
                ["previous"; "next"]) ∧
  Forall (λ key, ∀ v, top cfg !! key = Some v → isinstance_str v = true)
         ["main_chunk_start"; "main_chunk_end"].
Proof.
  split.
  - intros Hok.
    destruct (syntax_check_cases cfg) as [[_ Hvalid]|(e & He & _)];
      [|congruence].
    split; [|split].
    + apply Forall_forall. intros key Hkey.
      destruct (top cfg !! key) eqn:Hlookup; [by eexists|].
      destruct Hvalid. eexists. by eapply missing_required.
    + destruct (peripheral_chunks cfg) as [pc|] eqn:Hpc.
      2:{ destruct Hvalid. eexists. by apply missing_peripheral. }
      exists pc. split; [done|].
      apply Forall_forall. intros direction Hdirection.
      apply Forall_forall. intros section Hsection dc sc Hdc Hsc.
      destruct (sc !! "count") eqn:Hcount; [by eexists|].
      destruct Hvalid. eexists. by eapply missing_count.
    + apply Forall_forall. intros key Hkey v Hv.
      destruct (isinstance_str v) eqn:Hstr; [done|].
      destruct Hvalid. eexists. by eapply bad_marker.
  - intros (Hkeys & (pc & Hpc & Hcounts) & Hmarkers).
    destruct (syntax_check_cases cfg) as [[Hok _]|(e & _ & He)]; [done|].
    rewrite !Forall_forall in *.
    destruct He as [key Hkey Hnone| Hnone
                   | pc' direction section dc sc Hpc' Hdir Hsec Hdc Hsc Hcount
                   | key v Hkey Hv Hstr].
    + destruct (Hkeys key Hkey) as [v Hv]. congruence.
    + congruence.
    + assert (pc' = pc) as -> by congruence.
      specialize (Hcounts direction Hdir).
      rewrite Forall_forall in Hcounts.
      destruct (Hcounts section Hsec dc sc Hdc Hsc) as [v Hv]. congruence.
    + specialize (Hmarkers key Hkey v Hv). congruence.
Qed.

Lemma first_violation_app (vs1 vs2 : list exn) :
  first_violation (vs1 ++ vs2) = (first_violation vs1;; first_violation vs2).
Proof. by destruct vs1. Qed.

Lemma check_required_key_violation (cfg : config) (key : string) :
  check_required_key cfg key = first_violation (key_violation cfg key).
Proof.
  unfold check_required_key, key_violation.
  by destruct (top cfg !! key).
Qed.

Lemma check_section_violation (pc : peripheral) (direction section : string)
    (dc : gmap string (gmap string pyval)) :
  pc !! direction = Some dc → section ≠ "middle" →
  check_section direction dc section
  = first_violation (count_violation pc direction section).
Proof.
  intros Hdc Hsection. unfold check_section, count_violation. rewrite Hdc.
  destruct (dc !! section) as [sc|]; [|done].
  rewrite bool_decide_true by done.
  by destruct (sc !! "count").
Qed.

Lemma check_direction_violation (pc : peripheral) (direction : string) :
  check_direction pc direction
  = first_violation (count_violation pc direction "head" ++
                     count_violation pc direction "tail").
Proof.
  unfold check_direction.
  destruct (pc !! direction) as [dc|] eqn:Hdc.
  - cbn [for_each]. rewrite first_violation_app.
    rewrite <-!(check_section_violation pc direction _ dc) by done.
    assert (check_section direction dc "middle" = Ok ()) as ->.
    { unfold check_section. destruct (dc !! "middle"); [|done].
      by rewrite bool_decide_false by (by intros []). }
    destruct (check_section direction dc "head") as [[]|]; [|done].
    cbn [mbind result_bind].
    by destruct (check_section direction dc "tail") as [[]|].
  - unfold count_violation. by rewrite Hdc.
Qed.

Lemma check_marker_violation (cfg : config) (key : string) :
  check_marker cfg key = first_violation (marker_violation cfg key).
Proof.
  unfold check_marker, marker_violation.
  by destruct (top cfg !! key) as [[]|].
Qed.

(** X10: the validator reports the first violation in a fixed order,
    whatever else is wrong: the required keys [content_key], [doc_id_key]
    and [order_key]; then the peripheral configuration; then the counts
    of [previous.head], [previous.tail], [next.head] and [next.tail];
    then the markers [main_chunk_start] and [main_chunk_end].  It
    returns when there is none. *)
Theorem X10_syntax_check_first_violation (cfg : config) :
  syntax_check cfg = first_violation (violations cfg).
Proof.
  unfold syntax_check, violations. cbn [for_each].
  rewrite !first_violation_app, !check_required_key_violation.
  destruct (first_violation (key_violation cfg "content_key")) as [[]|];
    [|done].
  destruct (first_violation (key_violation cfg "doc_id_key")) as [[]|];
    [|done].
  destruct (first_violation (key_violation cfg "order_key")) as [[]|];
    [|done].
  cbn [mbind result_bind].
  destruct (peripheral_chunks cfg) as [pc|]; [|done].
  rewrite !check_marker_violation, !check_direction_violation.
  rewrite !first_violation_app.
  destruct (first_violation (count_violation pc "previous" "head"))
    as [[]|]; [|done].
  destruct (first_violation (count_violation pc "previous" "tail"))
    as [[]|]; [|done].
  cbn [mbind result_bind].
  destruct (first_violation (count_violation pc "next" "head"))
    as [[]|]; [|done].
  by destruct (first_violation (count_violation pc "next" "tail")) as [[]|].
Qed.



(** ** execute: the configuration entries and the empty input *)

(** X12: execute reads the entries [content_key], [doc_id_key],
    [order_key] and [peripheral_chunks] of the configuration in this
    order before it looks at the input.  When one is missing it raises
    [KeyError] with the name of the first missing one, on every input and
    store, the empty input included; the validator names the same entry,
    in a [ValueError]. *)
Theorem X12_missing_entry (cfg : config) (key : string) :
  first_missing cfg = Some key →
  (∀ input_data h, execute cfg input_data h = Err (KeyError (PStr key))) ∧
  syntax_check cfg = Err (ValueError (missing_message key)).
Proof.
  unfold first_missing, execute, syntax_check, mbind, M_bind, lift, getitem.
  cbn [for_each]. unfold check_required_key.
  destruct (top cfg !! "content_key") as [ck|].
  2:{ intros [= <-]. by split. }
  destruct (top cfg !! "doc_id_key") as [dk|].
  2:{ intros [= <-]. by split. }
  destruct (top cfg !! "order_key") as [ok|].
  2:{ intros [= <-]. by split. }
  destruct (peripheral_chunks cfg) as [pc|]; [done|].
  intros [= <-]. by split.
Qed.

Lemma X12_missing_entry_witness :
  execute (Config {[ "content_key" := PStr "text" ]} (Some ∅)) [0%nat] solo
  = Err (KeyError (PStr "doc_id_key")) ∧
  syntax_check (Config {[ "content_key" := PStr "text" ]} (Some ∅))
  = Err (ValueError
           "Missing required key 'doc_id_key' in GatherOperation configuration").
Proof.
  destruct (X12_missing_entry
              (Config {[ "content_key" := PStr "text" ]} (Some ∅)) "doc_id_key")
    as [Hrun Hcheck].
  - reflexivity.
  - split; [apply Hrun|exact Hcheck].
Defined.

(** X13: on the empty input execute returns the empty list of results
    and the cost 0, and leaves the store as it is, exactly when the
    configuration holds the four entries; a configuration the validator
    accepts is enough.  Nothing else of the configuration is read: no
    count, no section, no marker. *)
Theorem X13_empty_input (cfg : config) (h : heap) :
  (execute cfg [] h = Ok (([], 0), h) ↔ first_missing cfg = None) ∧
  (syntax_check cfg = Ok () → execute cfg [] h = Ok (([], 0), h)) ∧
  (∀ outs c h', execute cfg [] h = Ok ((outs, c), h') →
                outs = [] ∧ c = 0 ∧ h' = h).
Proof.
  assert (first_missing cfg = None → execute cfg [] h = Ok (([], 0), h))
    as Hreturns.
  { unfold first_missing, execute, mbind, M_bind, lift, getitem.
    destruct (top cfg !! "content_key") as [ck|]; [|done].
    destruct (top cfg !! "doc_id_key") as [dk|]; [|done].
    destruct (top cfg !! "order_key") as [ok|]; [|done].
    by destruct (peripheral_chunks cfg) as [pc|]. }
  assert (∀ r, execute cfg [] h = Ok r → first_missing cfg = None) as Hneeds.
  { intros r. unfold first_missing, execute, mbind, M_bind, lift, getitem.
    destruct (top cfg !! "content_key") as [ck|]; [|done].
    destruct (top cfg !! "doc_id_key") as [dk|]; [|done].
    destruct (top cfg !! "order_key") as [ok|]; [|done].
    by destruct (peripheral_chunks cfg) as [pc|]. }
  split; [|split].
  - split; [apply Hneeds|apply Hreturns].
  - intros Hcheck. apply Hreturns.
    destruct (first_missing cfg) as [key|] eqn:Hkey; [|done].
    unfold first_missing in Hkey. unfold syntax_check in Hcheck.
    cbn [for_each] in Hcheck. unfold check_required_key in Hcheck.
    destruct (top cfg !! "content_key") as [ck|]; [|done].
    destruct (top cfg !! "doc_id_key") as [dk|]; [|done].
    destruct (top cfg !! "order_key") as [ok|]; [|done].
    by destruct (peripheral_chunks cfg) as [pc|].
  - intros outs c h' Hrun. pose proof (Hneeds _ Hrun) as Hnone.
    rewrite (Hreturns Hnone) in Hrun. by injection Hrun as <- <- <-.
Qed.

(** ** execute: grouping comes first *)

Lemma getitem_Err (d : gmap string pyval) (k : pyval) (e : exn) :
  getitem d k = Err e → e = KeyError k.
Proof.
  unfold getitem. destruct k as [| |s]; try by intros [= <-].
  destruct (d !! s); [done|]. by intros [= <-].
Qed.

Lemma group_loop_missing (doc_id_key : pyval) (input_data : list loc)
    (g0 : groups) (h : heap) (l : loc) :
  Forall (λ l, is_Some (h !! l)) input_data →
  l ∈ input_data → field h doc_id_key l = None →
  for_M (λ grouped_chunks item,
           r ← load item;
           doc_id ← lift (getitem r doc_id_key);
           mret (append_chunk doc_id item grouped_chunks))
        input_data g0 h = Err (KeyError doc_id_key).
Proof.
  intros Hvalid Hl Hnone. revert g0.
  induction Hvalid as [|item input_data [r Hr] _ IH]; intros g0.
  { by apply elem_of_nil in Hl. }
  cbn [for_M]. unfold mbind at 1, M_bind at 1.
  unfold mbind at 1, M_bind at 1. unfold load at 1. rewrite Hr.
  unfold mbind at 1, M_bind at 1.
  destruct (getitem r doc_id_key) as [d|e] eqn:Hd; cbn [lift].
  - unfold mret, M_ret. apply IH.
    apply elem_of_cons in Hl as [->|Hl]; [|done].
    unfold field in Hnone. by rewrite Hr, Hd in Hnone.
  - by apply getitem_Err in Hd as ->.
Qed.

(** X14: the whole input is grouped before any chunk is sorted or
    formatted.  When the configuration holds its four entries and every
    reference of the input is valid, a single record without the document
    identity makes execute raise [KeyError] with the name of that key,
    wherever the record stands in the input and whatever else is wrong
    with the other records or with the counts; no record is copied. *)
Theorem X14_missing_doc_id (cfg : config) (input_data : list loc) (h : heap)
    (ck dk ok : pyval) (pc : peripheral) (l : loc) :
  top cfg !! "content_key" = Some ck →
  top cfg !! "doc_id_key" = Some dk →
  top cfg !! "order_key" = Some ok →
  peripheral_chunks cfg = Some pc →
  Forall (λ l, is_Some (h !! l)) input_data →
  l ∈ input_data → field h dk l = None →
  execute cfg input_data h = Err (KeyError dk).
Proof.
  intros Hck Hdk Hok Hpc Hvalid Hl Hnone.
  unfold execute. apply getitem_Ok in Hck, Hdk, Hok.
  erewrite bind_M_eq; [|by apply lift_Ok].
  erewrite bind_M_eq; [|by apply lift_Ok].
  erewrite bind_M_eq; [|by apply lift_Ok].
  rewrite Hpc. erewrite bind_M_eq; [|by apply lift_Ok].
  unfold mbind, M_bind, group_chunks.
  by rewrite (group_loop_missing dk input_data [] h l).
Qed.

Lemma X14_missing_doc_id_witness :
  execute cfg_word_count [0; 1]%nat
          [chunk_of "d1" 1 "a"; {[ "n" := PInt 2; "text" := PStr "b" ]}]
  = Err (KeyError (PStr "doc")).
Proof.
  apply (X14_missing_doc_id _ _ _ (PStr "text") (PStr "doc") (PStr "n")
           {[ "previous" := {[ "head" := {[ "count" := PStr "two" ]} ]} ]}
           1%nat).
  - reflexivity.
  - reflexivity.
  - reflexivity.
  - reflexivity.
  - repeat constructor; by eexists.
  - in_list.
  - reflexivity.
Defined.

(** ** execute: where the formatted text comes from *)

Lemma enumerate_lookup {A} (l : list A) (i k j : nat) (x : A) :
  enumerate i l !! k = Some (j, x) ↔ j = (i + k)%nat ∧ l !! k = Some x.
Proof.
  unfold enumerate. rewrite lookup_zip_Some. cbn [fst snd].
  rewrite lookup_seq. split.
  - intros [[-> Hk] Hx]. done.
  - intros [-> Hx]. split; [|done]. split; [done|].
    by apply lookup_lt_Some in Hx.
Qed.

Lemma sorted_document (h : heap) (dk ok : pyval) (input_data : list loc)
    (ids : list pyval) (ss : list (list loc)) :
  Forall2 (λ l d, field h dk l = Some d) input_data ids →
  Forall2 (λ g s, sorted_from h ok g.2 s) (grouping (zip ids input_data)) ss →
  Forall2 (λ d s,
             sorted_from h ok (filter (λ l, field h dk l = Some d) input_data) s)
          (first_seen ids) ss.
Proof.
  intros Hids Hss.
  assert (length ids = length input_data) as Hlen.
  { symmetry. by eapply Forall2_length. }
  rewrite grouping_spec, fst_zip in Hss by lia.
  rewrite Forall2_fmap_l in Hss.
  eapply Forall2_impl; [exact Hss|].
  intros d s Hs. simpl in Hs.
  replace (filter (λ l, field h dk l = Some d) input_data)
    with (members (zip ids input_data) d); [done|].
  rewrite (pairs_filter h dk d) by (by apply zip_fields).
  by rewrite snd_zip by lia.
Qed.

(** X15: the text stored in a result is what format_chunk_with_context
    returns for the chunk within its own document.  The results follow
    the sorted groups; every group holds the chunks of one document, all
    of them; and the result for the chunk at position [j] of the group
    [s] is the copy of that chunk in which the formatted key holds the
    text computed from the records of [s], in sorted order, at index [j],
    with the peripheral configuration and the markers of the
    configuration, the default markers when none is configured.  The
    chunks of other documents play no part in it, and the cost returned
    is 0. *)
Theorem X15_execute_formats (cfg : config) (input_data outs : list loc)
    (c : cost) (h h' : heap) :
  execute cfg input_data h = Ok ((outs, c), h') →
  ∃ ck dk ok pc (ss : list (list loc)),
    top cfg !! "content_key" = Some ck ∧
    top cfg !! "doc_id_key" = Some dk ∧
    top cfg !! "order_key" = Some ok ∧
    peripheral_chunks cfg = Some pc ∧
    c = 0 ∧
    Forall (λ s, ∃ d, s ≡ₚ filter (λ l, field h dk l = Some d) input_data) ss ∧
    Forall2 (λ o '(s, j, src),
               ∃ records r f,
                 Forall2 (λ l r, h !! l = Some r) s records ∧
                 s !! j = Some src ∧ h !! src = Some r ∧
                 format_chunk_with_context records j pc ck ok
                   (start_marker cfg) (end_marker cfg) = Ok f ∧
                 h' !! o = Some (<[formatted_key ck := PStr f]> r))
            outs (positions ss).
Proof.
  intros (ck & dk & ok & pc & ids & ss & exts & Hck & Hdk & Hok & Hpc & Hids
          & Hss & Hexts & -> & -> & ->)%execute_Ok.
  exists ck, dk, ok, pc, ss. do 5 (split; [done|]). split.
  - pose proof (sorted_document _ _ _ _ _ _ Hids Hss) as Hdocs.
    apply Forall_forall. intros s [k Hk]%list_elem_of_lookup_1.
    destruct (Forall2_lookup_r _ _ _ _ _ Hdocs Hk) as (d & _ & Hd).
    exists d. by eapply sorted_from_length.
  - assert (Forall2 (λ rec '(s, j, src),
                       ∃ records r f,
                         Forall2 (λ l r, h !! l = Some r) s records ∧
                         s !! j = Some src ∧ h !! src = Some r ∧
                         format_chunk_with_context records j pc ck ok
                           (start_marker cfg) (end_marker cfg) = Ok f ∧
                         rec = <[formatted_key ck := PStr f]> r)
                    (concat exts) (positions ss)) as Hrecs.
    { unfold positions. apply Forall2_concat_2, Forall2_flip, Forall2_fmap_l.
      apply Forall2_flip.
      eapply Forall2_impl; [apply Forall2_flip, Hexts|].
      intros ext s (records & Hrecords & Hcopies). cbn.
      apply Forall2_fmap_r, Forall2_same_length_lookup. split.
      { symmetry. by eapply Forall2_length. }
      intros k rec [j src] Hrec Hjsrc. cbn [fst snd].
      destruct (Forall2_lookup_lr _ _ _ _ _ _ Hcopies Hjsrc Hrec)
        as (r & f & Hr & Hf & ->).
      apply enumerate_lookup in Hjsrc as [-> Hsrc].
      by exists records, r, f. }
    apply Forall2_same_length_lookup. split.
    { rewrite length_seq. by eapply Forall2_length. }
    intros k o [[s j] src] [-> Hk]%lookup_seq Hpos.
    destruct (Forall2_lookup_r _ _ _ _ _ Hrecs Hpos) as (rec & Hrec & Hcopy).
    destruct Hcopy as (records & r & f & ? & ? & ? & ? & ->).
    exists records, r, f. do 4 (split; [done|]).
    rewrite lookup_app_r by lia.
    by replace (length h + k - length h)%nat with k by lia.
Qed.

Lemma X15_execute_formats_witness :
  ∃ ss, Forall2 (λ o '(s, j, src),
                   ∃ records r f,
                     Forall2 (λ l r, solo !! l = Some r) s records ∧
                     s !! j = Some src ∧ solo !! src = Some r ∧
                     format_chunk_with_context records j ∅ (PStr "text")
                       (PStr "n") (PStr "--- Begin Main Chunk ---")
                       (PStr "--- End Main Chunk ---") = Ok f ∧
                     (solo ++ [solo_out]) !! o
                     = Some (<["text_formatted" := PStr f]> r))
                [1%nat] (positions ss).
Proof.
  destruct (X15_execute_formats cfg_plain [0%nat] [1%nat] 0 solo
              (solo ++ [solo_out]) solo_run)
    as (ck & dk & ok & pc & ss & [= <-] & _ & [= <-] & [= <-] & _ & _ & Hres).
  exists ss. exact Hres.
Defined.

(** ** execute on input that is already in order *)

Lemma sort_keyed_sorted {A} (l : list (pyval * A)) :
  StronglySorted (λ x y : pyval * A, ascending x.1 y.1) l →
  sort_keyed l = Ok l.
Proof.
  induction 1 as [|x l _ IH Hx]; [done|].
  cbn [sort_keyed]. rewrite IH. cbn [mbind result_bind].
  destruct l as [|y l]; [done|].
  apply Forall_cons in Hx as [Hxy _]. unfold ascending in Hxy.
  cbn [insert_keyed]. by rewrite Hxy.
Qed.

Lemma StronglySorted_filter {A} (R : A → A → Prop) (P : A → Prop)
    `{∀ x, Decision (P x)} (l : list A) :
  StronglySorted R l → StronglySorted R (filter P l).
Proof.
  induction 1 as [|x l _ IH Hx]; [constructor|].
  rewrite filter_cons. destruct (decide (P x)); [|done].
  constructor; [done|].
  rewrite Forall_forall in Hx. apply Forall_forall.
  intros y [_ Hy]%list_elem_of_filter. by apply Hx.
Qed.

Lemma sorted_from_sorted (h : heap) (dk ok : pyval) (d : pyval)
    (input_data s : list loc) :
  StronglySorted (in_order h dk ok) input_data →
  sorted_from h ok (filter (λ l, field h dk l = Some d) input_data) s →
  s = filter (λ l, field h dk l = Some d) input_data.
Proof.
  intros Hsorted (keys & ks & Hkeys & Hsort & ->).
  apply (StronglySorted_filter _ (λ l, field h dk l = Some d)) in Hsorted.
  assert (Forall (λ l, field h dk l = Some d)
                 (filter (λ l, field h dk l = Some d) input_data)) as Hdoc.
  { apply Forall_forall. by intros l [? _]%list_elem_of_filter. }
  revert Hdoc Hsorted Hkeys Hsort.
  generalize (filter (λ l, field h dk l = Some d) input_data).
  intros doc Hdoc Hsorted Hkeys Hsort.
  assert (StronglySorted (λ x y : pyval * loc, ascending x.1 y.1)
                         (zip keys doc)) as Hzip.
  { clear Hsort. revert Hdoc Hsorted.
    induction Hkeys as [|l k doc keys Hk Hkeys IH]; intros Hdoc Hsorted;
      [constructor|].
    apply Forall_cons in Hdoc as [Hl Hdoc].
    apply StronglySorted_cons in Hsorted as [Hfirst Hsorted].
    cbn [zip zip_with]. constructor; [by apply IH|].
    apply Forall_forall. intros [k' l'] Hin. cbn [fst].
    pose proof (zip_fields _ _ _ _ Hkeys _ Hin) as Hk'. cbn [fst snd] in Hk'.
    apply elem_of_zip_r in Hin.
    rewrite Forall_forall in Hfirst, Hdoc.
    by apply (Hfirst l' Hin d k k'); [|apply Hdoc|..]. }
  rewrite (sort_keyed_sorted _ Hzip) in Hsort. injection Hsort as <-.
  apply snd_zip. by rewrite (Forall2_length _ _ _ Hkeys).
Qed.

(** X16: when the input lists the chunks of every document in ascending
    order of their order key, nothing is reordered within a document: the
    results are the copies of the chunks of the first document seen, in
    input order, then those of the second, and so on.  When moreover the
    whole input belongs to one document, result [i] is the copy of
    input [i]. *)
Theorem X16_sorted_input (cfg : config) (input_data outs : list loc)
    (c : cost) (h h' : heap) (dk ok : pyval) :
  top cfg !! "doc_id_key" = Some dk →
  top cfg !! "order_key" = Some ok →
  StronglySorted (in_order h dk ok) input_data →
  execute cfg input_data h = Ok ((outs, c), h') →
  ∃ ck ids,
    top cfg !! "content_key" = Some ck ∧
    Forall2 (λ l d, field h dk l = Some d) input_data ids ∧
    let copy_of o src :=
      ∃ r f, h !! src = Some r ∧
             h' !! o = Some (<[formatted_key ck := PStr f]> r) in
    Forall2 copy_of outs
            (concat ((λ d, filter (λ l, field h dk l = Some d) input_data)
                       <$> first_seen ids)) ∧
    ((∃ d, Forall (λ l, field h dk l = Some d) input_data) →
     Forall2 copy_of outs input_data).
Proof.
  intros Hdk Hok Hsorted
    (ck & dk' & ok' & pc & ids & ss & exts & Hck & Hdk' & Hok' & _ & Hids
     & Hss & Hexts & -> & -> & _)%execute_Ok.
  assert (dk' = dk) as -> by congruence.
  assert (ok' = ok) as -> by congruence.
  exists ck, ids. do 2 (split; [done|]). intros copy_of.
  assert (ss = (λ d, filter (λ l, field h dk l = Some d) input_data)
                 <$> first_seen ids) as Hgroups.
  { pose proof (sorted_document _ _ _ _ _ _ Hids Hss) as Hdocs.
    apply list_eq_Forall2, Forall2_fmap_r.
    apply Forall2_flip. eapply Forall2_impl; [exact Hdocs|].
    intros d s Hs. by eapply sorted_from_sorted. }
  assert (Forall2 copy_of (seq (length h) (length (concat exts))) (concat ss))
    as Hcopies.
  { apply results_lookup, Forall2_concat_2.
    eapply Forall2_impl; [exact Hexts|]. intros s ext.
    apply group_copies_plain. }
  split; [by rewrite <-Hgroups|].
  intros [d Hd].
  assert (concat ss = input_data) as <-; [|done].
  rewrite Hgroups.
  assert (filter (λ l, field h dk l = Some d) input_data = input_data) as Hall.
  { clear -Hd. induction Hd as [|l ls Hl _ IH]; [done|].
    by rewrite filter_cons_True, IH. }
  assert (∀ d', d' ∈ first_seen ids → d' = d) as Hone.
  { intros d' Hd'. apply (proj1 (elem_of_first_seen _ _)) in Hd'.
    apply list_elem_of_lookup_1 in Hd' as [k Hk].
    destruct (Forall2_lookup_r _ _ _ _ _ Hids Hk) as (l & Hl & Hld).
    rewrite Forall_forall in Hd.
    specialize (Hd l (list_elem_of_lookup_2 _ _ _ Hl)). congruence. }
  pose proof (NoDup_first_seen ids) as Hnodup.
  destruct (first_seen ids) as [|d1 [|d2 ds]] eqn:Hseen.
  - destruct input_data as [|l ls]; [done|].
    apply Forall2_cons_inv_l in Hids as (d' & ids' & _ & _ & ->).
    assert (d' ∈ first_seen (d' :: ids')) as Hin
        by (apply elem_of_first_seen; left).
    rewrite Hseen in Hin. by apply elem_of_nil in Hin.
  - rewrite (Hone d1) by left. cbn. by rewrite app_nil_r.
  - rewrite (Hone d1) in Hnodup by left.
    rewrite (Hone d2) in Hnodup by (right; left).
    apply NoDup_cons in Hnodup as [Hnot _]. destruct Hnot. left.
Qed.

Example alternating_run :
  execute cfg_A [0; 1; 2; 3]%nat alternating
  = Ok (([4; 5; 6; 7]%nat, 0), alternating ++ alternating_copies).
Proof. by_evaluation. Qed.

Lemma X16_sorted_input_witness :
  Forall2 (λ o src,
             ∃ r f, alternating !! src = Some r ∧
                    (alternating ++ alternating_copies) !! o
                    = Some (<[formatted_key (PStr "text") := PStr f]> r))
          [4; 5; 6; 7]%nat [0; 2; 1; 3]%nat.
Proof.
  destruct (X16_sorted_input cfg_A [0; 1; 2; 3]%nat [4; 5; 6; 7]%nat 0
              alternating (alternating ++ alternating_copies)
              (PStr "doc") (PStr "n"))
    as (ck & ids & [= <-] & Hids & Hcopies & _).
  - reflexivity.
  - reflexivity.
  - repeat apply SSorted_cons; try apply SSorted_nil;
      repeat first [apply Forall_cons_2|apply Forall_nil_2];
      intros d ka kb Hd1 Hd2 Hk1 Hk2;
      vm_compute in Hd1, Hd2, Hk1, Hk2; simplify_eq; reflexivity.
  - exact alternating_run.
  - rewrite <-(omap_fields _ _ _ _ Hids) in Hcopies. exact Hcopies.
Defined.

(** ** The previous context in document order *)

Lemma skipped_chars_reverse (l : list record) (content_key : pyval) (total : Z) :
  skipped_chars (reverse l) content_key = Ok total →
  skipped_chars l content_key = Ok total.
Proof.
  revert total. induction l as [|c l IH]; intros total; [done|].
  rewrite reverse_cons, skipped_chars_app.
  intros (n1 & H1 & (n2 & H2 & [= <-])%bind_Ok)%bind_Ok.
  change (c :: l) with ([c] ++ l). rewrite skipped_chars_app, H2.
  cbn [mbind result_bind]. rewrite (IH _ H1). cbn. f_equal. lia.
Qed.

(** X17: how the previous context reads in document order.  The
    neighbours before the current chunk are classified from the nearest
    one backwards, so with [a] head neighbours and the tail starting at
    index [b] of the reversed list, the lines returned for [n] previous
    chunks are: first the tail lines, which render the [n - b] chunks at
    the start of the document; then the lines of the chunks in between,
    or a single placeholder for them, or nothing; last the head lines,
    which render the [a] chunks that directly precede the current one.
    Each part lists its chunks in document order. *)
Theorem X17_previous_context_order (chunks : list record)
    (config : direction_config) (content_key order_key : pyval) (hc tc : Z)
    (lines : list string) :
  count_of config "head" = Ok hc → count_of config "tail" = Ok tc →
  process_peripheral_chunks chunks config content_key order_key true
  = Ok lines →
  let n := length chunks in
  let a := head_end n hc in
  let b := tail_start n hc tc in
  ∃ tails between heads,
    lines = tails ++ between ++ heads ∧
    Forall2 (λ c line, render config content_key order_key Tail c = Ok line)
            (take (n - b) chunks) tails ∧
    Forall2 (λ c line, render config content_key order_key Head c = Ok line)
            (drop (n - a) chunks) heads ∧
    ((is_Some (config !! "middle") ∧
      Forall2 (λ c line, render config content_key order_key Middle c = Ok line)
              (drop (n - b) (take (n - a) chunks)) between) ∨
     (config !! "middle" = None ∧ (a < b)%nat ∧
      ∃ total, skipped_chars chunks content_key = Ok total ∧
               between = [skip_line (Z.of_nat (b - a) * total)]) ∨
     (config !! "middle" = None ∧ (b ≤ a)%nat ∧ between = [])).
Proof.
  intros Hhc Htc
    (hc' & tc' & wl & Hhc' & Htc' & Hwl & ->)%process_peripheral_chunks_Ok_window.
  assert (hc' = hc) as -> by congruence.
  assert (tc' = tc) as -> by congruence.
  intros n a b. subst n a b.
  apply window_lines_Ok in Hwl
    as (heads & between & tails & -> & Hheads & Htails & Hbetween).
  rewrite length_reverse in Hheads, Htails, Hbetween.
  pose proof (head_end_le chunks hc tc) as Hab.
  exists (reverse tails), (reverse between), (reverse heads).
  split; [by rewrite !reverse_app, <-app_assoc|].
  assert (∀ bkt (cs : list record) (ls : list string),
            Forall2 (λ c line, render config content_key order_key bkt c
                               = Ok line) (reverse cs) ls →
            Forall2 (λ c line, render config content_key order_key bkt c
                               = Ok line) cs (reverse ls)) as Hflip.
  { intros bkt cs ls Hls. rewrite <-(reverse_involutive cs).
    by apply Forall2_reverse. }
  split; [|split].
  - apply Hflip. by rewrite <-drop_reverse.
  - apply Hflip. by rewrite <-take_reverse.
  - destruct Hbetween as [[Hmiddle Hmids]|[(Hnone & Hlt & total & Htotal & ->)
                                          |(Hnone & Hge & ->)]].
    + left. split; [done|]. apply Hflip.
      rewrite drop_reverse, take_reverse, length_take in Hmids.
      rewrite reverse_drop, length_take, take_reverse, length_take.
      match goal with
      | |- Forall2 _ (reverse (drop ?k1 _)) _ =>
          match type of Hmids with
          | Forall2 _ (reverse (drop ?k2 _)) _ => replace k1 with k2 by lia
          end
      end.
      done.
    + right. left. do 2 (split; [done|]). exists total.
      split; [by apply skipped_chars_reverse|done].
    + right. right. done.
Qed.

Lemma X17_previous_context_order_witness :
  ∃ tails between heads,
    ["[... 3 characters skipped ...]"; "[Chunk 2] bb"]
    = tails ++ between ++ heads ∧
    Forall2 (λ c line, render head1 (PStr "text") (PStr "n") Head c = Ok line)
            [chunk_of "d1" 2 "bb"] heads.
Proof.
  destruct (X17_previous_context_order
              [chunk_of "d1" 1 "a"; chunk_of "d1" 2 "bb"] head1 (PStr "text")
              (PStr "n") 1 0 ["[... 3 characters skipped ...]"; "[Chunk 2] bb"])
    as (tails & between & heads & Hlines & _ & Hheads & _).
  - reflexivity.
  - reflexivity.
  - reflexivity.
  - exists tails, between, heads. split; [exact Hlines|exact Hheads].
Defined.

(** ** execute: building a run from its parts *)

Lemma map_M_read_intro {A B} (f : A → M B) (h : heap) (l : list A)
    (bs : list B) :
  Forall2 (λ x b, f x h = Ok (b, h)) l bs → map_M f l h = Ok (bs, h).
Proof.
  induction 1 as [|x b l bs Hx _ IH]; [done|].
  cbn [map_M]. rewrite (bind_M_eq _ _ _ _ _ Hx).
  by rewrite (bind_M_eq _ _ _ _ _ IH).
Qed.

Lemma group_chunks_intro (doc_id_key : pyval) (input_data : list loc)
    (ids : list pyval) (h : heap) :
  Forall2 (λ l d, field h doc_id_key l = Some d) input_data ids →
  group_chunks doc_id_key input_data h = Ok (grouping (zip ids input_data), h).
Proof.
  intros Hids. unfold group_chunks, grouping. generalize ([] : groups).
  induction Hids as [|item d items ds Hd _ IH]; intros g0; [done|].
  apply field_Some in Hd as (r & Hr & Hd).
  cbn [for_M zip zip_with foldl fst snd].
  erewrite bind_M_eq; [apply IH|].
  erewrite bind_M_eq; [|by apply load_Ok].
  erewrite bind_M_eq; [|by apply lift_Ok]. done.
Qed.

Lemma sorted_from_grow (h pre : heap) (order_key : pyval) (g s : list loc) :
  sorted_from h order_key g s → sorted_from (h ++ pre) order_key g s.
Proof.
  intros (keys & ks & Hkeys & Hsort & ->). exists keys, ks.
  split; [|done]. eapply Forall2_impl; [exact Hkeys|].
  intros l k (r & Hr & Hk)%field_Some. apply field_Some.
  exists r. split; [by apply lookup_app_l_Some|done].
Qed.

Lemma sort_chunks_intro (order_key : pyval) (g s : list loc) (h : heap) :
  sorted_from h order_key g s → sort_chunks order_key g h = Ok (s, h).
Proof.
  intros (keys & ks & Hkeys & Hsort & ->). unfold sort_chunks.
  erewrite bind_M_eq.
  2:{ apply map_M_read_intro. eapply Forall2_impl; [exact Hkeys|].
      intros l k (r & Hr & Hk)%field_Some.
      erewrite bind_M_eq; [|by apply load_Ok]. by apply lift_Ok. }
  erewrite bind_M_eq; [|by apply lift_Ok]. done.
Qed.

Section intro.
Variables (pc : peripheral) (ck ok ms me : pyval).

Lemma process_chunk_intro (chunks : list loc) (records : list record)
    (results : list loc) (i : nat) (chunk : loc) (h : heap) (r : record)
    (f : string) :
  Forall2 (λ l r, h !! l = Some r) chunks records →
  h !! chunk = Some r →
  format_chunk_with_context records i pc ck ok ms me = Ok f →
  process_chunk pc ck ok ms me chunks results i chunk h
  = Ok (results ++ [length h], h ++ [<[formatted_key ck := PStr f]> r]).
Proof.
  intros Hrecords Hr Hf. unfold process_chunk.
  pose proof Hf as (main_chunk & content & _ & _ & _
                    & [name ->]%getitem_text_key & _)%format_chunk_with_context_Ok.
  erewrite bind_M_eq.
  2:{ apply map_M_read_intro. eapply Forall2_impl; [exact Hrecords|].
      intros l r' Hl. by apply load_Ok. }
  erewrite bind_M_eq; [|by apply lift_Ok].
  erewrite bind_M_eq; [|apply copy_Ok; eauto].
  erewrite bind_M_eq; [|by apply lift_Ok].
  erewrite (bind_M_eq _ _ _ _ ()).
  2:{ apply setitem_Ok. eexists. split; [|done].
      by apply list_lookup_middle. }
  unfold mret, M_ret. do 3 f_equal.
  rewrite insert_app_r_alt by done. by rewrite Nat.sub_diag.
Qed.

Lemma chunks_loop_intro (h : heap) (chunks : list loc) (records : list record)
    (cs : list loc) (ext : list record) (i : nat) :
  Forall2 (λ l r, h !! l = Some r) chunks records →
  Forall2 (formatted_copy h pc ck ok ms me records) (enumerate i cs) ext →
  ∀ pre results,
    for_enumerate_M (process_chunk pc ck ok ms me chunks) i cs results
                    (h ++ pre)
    = Ok (results ++ seq (length (h ++ pre)) (length ext), (h ++ pre) ++ ext).
Proof.
  intros Hrecords. revert ext i.
  induction cs as [|c cs IH]; intros ext i Hext pre results.
  - apply Forall2_nil_inv_l in Hext as ->. cbn. by rewrite !app_nil_r.
  - rewrite enumerate_cons in Hext.
    apply Forall2_cons_inv_l in Hext
      as (rec & ext' & (r & f & Hr & Hf & ->) & Hext' & ->).
    cbn [for_enumerate_M fst snd] in *.
    erewrite bind_M_eq.
    2:{ apply (process_chunk_intro _ records _ _ _ _ r f); [|by apply lookup_app_l_Some|done].
        eapply Forall2_impl; [exact Hrecords|].
        intros l r' Hl. by apply lookup_app_l_Some. }
    rewrite <-(app_assoc h pre). rewrite (IH _ _ Hext').
    rewrite <-!app_assoc. cbn [app length seq].
    replace (length (h ++ pre ++ [<[formatted_key ck := PStr f]> r]))
      with (S (length (h ++ pre))); [done|].
    rewrite !length_app. cbn. lia.
Qed.

Lemma process_group_intro (h : heap) (g : pyval * list loc) (s : list loc)
    (ext : list record) (pre : heap) (results : list loc) :
  sorted_from h ok g.2 s → group_copies h pc ck ok ms me s ext →
  process_group pc ck ok ms me results g (h ++ pre)
  = Ok (results ++ seq (length (h ++ pre)) (length ext), (h ++ pre) ++ ext).
Proof.
  intros Hsorted (records & Hrecords & Hcopies). unfold process_group.
  erewrite bind_M_eq; [|by apply sort_chunks_intro, sorted_from_grow].
  by eapply chunks_loop_intro.
Qed.

Lemma groups_loop_intro (h : heap) (gs : groups) (ss : list (list loc))
    (exts : list (list record)) :
  Forall2 (λ g s, sorted_from h ok g.2 s) gs ss →
  Forall2 (group_copies h pc ck ok ms me) ss exts →
  ∀ pre results,
    for_M (process_group pc ck ok ms me) gs results (h ++ pre)
    = Ok (results ++ seq (length (h ++ pre)) (length (concat exts)),
          (h ++ pre) ++ concat exts).
Proof.
  intros Hss. revert exts.
  induction Hss as [|g s gs ss Hs _ IH]; intros exts Hexts pre results.
  - apply Forall2_nil_inv_l in Hexts as ->. cbn. by rewrite !app_nil_r.
  - apply Forall2_cons_inv_l in Hexts as (ext & exts' & Hext & Hexts' & ->).
    cbn [for_M].
    rewrite (bind_M_eq _ _ _ _ _ (process_group_intro h g s ext pre results
                                    Hs Hext)).
    rewrite <-(app_assoc h pre). rewrite (IH _ Hexts').
    cbn [concat]. rewrite <-!app_assoc, !length_app, seq_app.
    by rewrite Nat.add_assoc.
Qed.
End intro.

(** The converse of [execute_Ok]: the parts of a run determine it. *)
Lemma execute_intro (cfg : config) (input_data : list loc) (h : heap)
    (ck dk ok : pyval) (pc : peripheral) (ids : list pyval)
    (ss : list (list loc)) (exts : list (list record)) :
  top cfg !! "content_key" = Some ck →
  top cfg !! "doc_id_key" = Some dk →
  top cfg !! "order_key" = Some ok →
  peripheral_chunks cfg = Some pc →
  Forall2 (λ l d, field h dk l = Some d) input_data ids →
  Forall2 (λ g s, sorted_from h ok g.2 s) (grouping (zip ids input_data)) ss →
  Forall2 (group_copies h pc ck ok (start_marker cfg) (end_marker cfg))
          ss exts →
  execute cfg input_data h
  = Ok ((seq (length h) (length (concat exts)), 0), h ++ concat exts).
Proof.
  intros Hck Hdk Hok Hpc Hids Hss Hexts. unfold execute.
  apply getitem_Ok in Hck, Hdk, Hok.
  erewrite bind_M_eq; [|by apply lift_Ok].
  erewrite bind_M_eq; [|by apply lift_Ok].
  erewrite bind_M_eq; [|by apply lift_Ok].
  rewrite Hpc. erewrite bind_M_eq; [|by apply lift_Ok].
  erewrite bind_M_eq; [|by apply group_chunks_intro].
  pose proof (groups_loop_intro pc ck ok (start_marker cfg) (end_marker cfg)
                h _ ss exts Hss Hexts [] []) as Hloop.
  rewrite app_nil_r in Hloop. unfold start_marker, end_marker in Hloop.
  by rewrite (bind_M_eq _ _ _ _ _ Hloop).
Qed.

(** ** execute run again on its own results *)

Lemma StronglySorted_keys {A B} (l1 : list (pyval * A)) (l2 : list (pyval * B)) :
  l1.*1 = l2.*1 →
  StronglySorted (λ x y : pyval * A, ascending x.1 y.1) l1 →
  StronglySorted (λ x y : pyval * B, ascending x.1 y.1) l2.
Proof.
  intros Hkeys Hsorted. revert l2 Hkeys.
  induction Hsorted as [|x k1 _ IH Hx]; intros [|y k2] Hkeys; try done.
  { constructor. }
  injection Hkeys as Hxy Hkeys.
  assert (k1.*1 = k2.*1) as Hrest by exact Hkeys.
  constructor; [by apply IH|].
  rewrite Forall_forall in Hx. apply Forall_forall. intros z Hz.
  assert (z.1 ∈ k1.*1) as Hin.
  { rewrite Hrest. by apply list_elem_of_fmap_2. }
  apply list_elem_of_fmap in Hin as (z' & Hz' & Hin).
  rewrite <-Hxy, Hz'. by apply Hx.
Qed.

(** The groups built from input that already lists one document after
    the other. *)
Lemma grouping_grouped (gs : groups) :
  NoDup gs.*1 → Forall (λ g, g.2 ≠ []) gs →
  grouping (concat (pairs_of <$> gs)) = gs.
Proof.
  assert (∀ (g0 : groups) d (acc items : list loc),
            d ∉ g0.*1 →
            foldl (λ g p, append_chunk p.1 p.2 g) (g0 ++ [(d, acc)])
                  (pairs_of (d, items))
            = g0 ++ [(d, acc ++ items)]) as Hsame.
  { intros g0 d acc items Hd. revert acc.
    unfold pairs_of. cbn [fst snd].
    induction items as [|x items IH]; intros acc.
    { cbn. by rewrite app_nil_r. }
    cbn [fmap list_fmap foldl fst snd]. unfold append_chunk at 2.
    rewrite bool_decide_true.
    2:{ rewrite fmap_app, elem_of_app. right. cbn. left. }
    rewrite fmap_app. cbn [fmap list_fmap fst snd].
    rewrite bool_decide_true by done.
    assert ((λ g : pyval * list loc,
               if bool_decide (g.1 = d) then (g.1, g.2 ++ [x]) else g) <$> g0
            = g0) as ->.
    { rewrite <-(list_fmap_id g0) at 2. apply list_fmap_ext.
      intros i g Hg. rewrite bool_decide_false; [done|].
      intros Heq. destruct Hd. rewrite <-Heq.
      apply list_elem_of_fmap_2. by eapply list_elem_of_lookup_2. }
    rewrite IH. by rewrite <-app_assoc. }
  assert (∀ (g0 : groups) d (items : list loc),
            d ∉ g0.*1 → items ≠ [] →
            foldl (λ g p, append_chunk p.1 p.2 g) g0 (pairs_of (d, items))
            = g0 ++ [(d, items)]) as Hnew.
  { intros g0 d [|x items] Hd Hitems; [done|].
    pose proof (Hsame g0 d [x] items Hd) as Hrest.
    unfold pairs_of in *. cbn [fst snd] in *.
    cbn [fmap list_fmap foldl fst snd]. unfold append_chunk at 2.
    rewrite bool_decide_false by done.
    rewrite fmap_app. cbn [fmap list_fmap fst snd].
    rewrite bool_decide_true by done.
    assert ((λ g : pyval * list loc,
               if bool_decide (g.1 = d) then (g.1, g.2 ++ [x]) else g) <$> g0
            = g0) as ->.
    { rewrite <-(list_fmap_id g0) at 2. apply list_fmap_ext.
      intros i g Hg. rewrite bool_decide_false; [done|].
      intros Heq. destruct Hd. rewrite <-Heq.
      apply list_elem_of_fmap_2. by eapply list_elem_of_lookup_2. }
    exact Hrest. }
  intros Hnodup Hitems. unfold grouping.
  assert (∀ g0 : groups,
            (∀ d, d ∈ g0.*1 → d ∉ gs.*1) →
            foldl (λ g p, append_chunk p.1 p.2 g) g0
                  (concat (pairs_of <$> gs))
            = g0 ++ gs) as Hall.
  2:{ apply (Hall []). intros d Hd. by apply elem_of_nil in Hd. }
  induction gs as [|[d items] gs IH]; intros g0 Hdisjoint.
  { cbn. by rewrite app_nil_r. }
  cbn [fmap list_fmap concat fst snd] in *.
  apply NoDup_cons in Hnodup as [Hd Hnodup].
  apply Forall_cons in Hitems as [Hne Hitems]. cbn [snd] in Hne.
  rewrite foldl_app, Hnew; [| |done].
  2:{ intros Hin. apply (Hdisjoint d Hin). left. }
  rewrite IH; [by rewrite <-app_assoc|done..|].
  intros d'. rewrite fmap_app, elem_of_app. cbn.
  intros [Hin| ->%list_elem_of_singleton]; [|done].
  intros Hgs. apply (Hdisjoint d' Hin). by right.
Qed.

Lemma run_groups (h : heap) (dk ok : pyval) (input_data : list loc)
    (ids : list pyval) (ss : list (list loc)) :
  Forall2 (λ l d, field h dk l = Some d) input_data ids →
  Forall2 (λ g s, sorted_from h ok g.2 s) (grouping (zip ids input_data)) ss →
  Forall2 (sorted_group h dk ok) (first_seen ids) ss.
Proof.
  intros Hids Hss.
  pose proof (sorted_document _ _ _ _ _ _ Hids Hss) as Hdocs.
  apply Forall2_same_length_lookup. split; [by eapply Forall2_length|].
  intros i d s Hd Hs.
  pose proof (Forall2_lookup_lr _ _ _ _ _ _ Hdocs Hd Hs) as Hsorted.
  cbv beta in Hsorted.
  pose proof (sorted_from_length _ _ _ _ Hsorted) as Hperm.
  destruct Hsorted as (keys & ks & Hkeys & Hsort & ->).
  apply sort_keyed_Ok in Hsort as (Hks & Hasc & _).
  split; [|split].
  - assert (d ∈ ids) as [k Hk]%list_elem_of_lookup_1.
    { apply elem_of_first_seen. by eapply list_elem_of_lookup_2. }
    destruct (Forall2_lookup_r _ _ _ _ _ Hids Hk) as (l & Hl & Hld).
    assert (l ∈ filter (λ l, field h dk l = Some d) input_data) as Hin.
    { apply list_elem_of_filter. split; [done|].
      by eapply list_elem_of_lookup_2. }
    rewrite <-Hperm in Hin. intros Hnil. rewrite Hnil in Hin.
    by apply elem_of_nil in Hin.
  - apply Forall_forall. intros l Hl. rewrite Hperm in Hl.
    by apply list_elem_of_filter in Hl as [? _].
  - exists ks. split; [done|]. split; [done|].
    apply Forall_forall. intros p Hp. rewrite Hks in Hp.
    by apply (zip_fields _ _ _ _ Hkeys).
Qed.

Lemma lookup_segment (h pre ext rest : heap) (j : nat) (rec : record) :
  ext !! j = Some rec →
  (h ++ pre ++ ext ++ rest) !! (length h + length pre + j)%nat = Some rec.
Proof.
  intros Hrec. rewrite lookup_app_r by lia.
  rewrite lookup_app_r by lia.
  replace (length h + length pre + j - length h - length pre)%nat with j
    by lia.
  by apply lookup_app_l_Some.
Qed.

Section rerun.
Variables (h : heap) (pc : peripheral) (ck dk ok ms me : pyval).
Hypothesis fresh : PStr (formatted_key ck) ∉ keys_of_run pc ck dk ok.

Lemma formatted_field (r : record) (f : string) (k : pyval) :
  k ∈ keys_of_run pc ck dk ok →
  getitem (<[formatted_key ck := PStr f]> r) k = getitem r k.
Proof. intros Hk. apply getitem_insert_ne. by intros ->. Qed.

(** The copies of a sorted group form, in the store that holds them, a
    group of the same document that is sorted already and whose copies
    are these very records. *)
Lemma rerun_group (d : pyval) (s : list loc) (ext : list record)
    (pre rest : heap) :
  sorted_group h dk ok d s → group_copies h pc ck ok ms me s ext →
  let h1 := h ++ pre ++ ext ++ rest in
  let seg := seq (length h + length pre) (length ext) in
  seg ≠ [] ∧ Forall (λ o, field h1 dk o = Some d) seg ∧
  sorted_from h1 ok seg seg ∧ group_copies h1 pc ck ok ms me seg ext.
Proof.
  intros (Hne & Hdoc & ks & -> & Hsorted & Hkeys) (records & Hrecords & Hcopies).
  intros h1 seg.
  assert (length ext = length ks) as Hlen.
  { apply Forall2_length in Hcopies. unfold enumerate in Hcopies.
    rewrite length_zip, length_seq, length_fmap in Hcopies. lia. }
  assert (∀ j rec, ext !! j = Some rec →
            ∃ k src r f,
              ks !! j = Some (k, src) ∧ h !! src = Some r ∧
              records !! j = Some r ∧
              format_chunk_with_context records j pc ck ok ms me = Ok f ∧
              rec = <[formatted_key ck := PStr f]> r) as Hrec.
  { intros j rec Hj.
    destruct (Forall2_lookup_r _ _ _ _ _ Hcopies Hj)
      as ([j' src] & Hsrc & r & f & Hr & Hf & ->).
    apply enumerate_lookup in Hsrc as [-> Hsrc]. cbn [fst snd] in *.
    apply list_lookup_fmap_Some in Hsrc as ([k src'] & -> & Hks).
    cbn [snd] in *. exists k, src', r, f. do 2 (split; [done|]).
    split; [|done].
    assert (ks.*2 !! j = Some src') as Hsrc.
    { rewrite list_lookup_fmap, Hks. done. }
    destruct (Forall2_lookup_l _ _ _ _ _ Hrecords Hsrc) as (r' & Hr' & Hlook).
    cbv beta in Hlook. congruence. }
  assert (∀ j rec, ext !! j = Some rec →
            h1 !! (length h + length pre + j)%nat = Some rec) as Hlook.
  { intros j rec Hj. by apply lookup_segment. }
  assert (∀ j o, seg !! j = Some o →
            o = (length h + length pre + j)%nat ∧ is_Some (ext !! j))
    as Hseg.
  { intros j o [-> Hj]%lookup_seq. split; [done|].
    by apply lookup_lt_is_Some. }
  split; [|split; [|split]].
  - unfold seg. destruct ks as [|p ks]; [done|].
    rewrite Hlen. done.
  - apply Forall_forall. intros o [j Hj]%list_elem_of_lookup_1.
    destruct (Hseg j o Hj) as [-> [rec Hrec']].
    destruct (Hrec j rec Hrec') as (k & src & r & f & Hks & Hr & _ & _ & ->).
    apply field_Some. eexists. split; [by apply Hlook|].
    rewrite formatted_field by (unfold keys_of_run; in_list).
    rewrite Forall_forall in Hdoc.
    assert (field h dk src = Some d) as (r' & Hr' & Hd)%field_Some.
    { apply Hdoc. apply list_elem_of_fmap. exists (k, src).
      split; [done|]. by eapply list_elem_of_lookup_2. }
    congruence.
  - exists ks.*1, (zip ks.*1 seg).
    assert (length ks.*1 = length seg) as Hlens.
    { unfold seg. by rewrite length_fmap, length_seq. }
    split; [|split].
    + apply Forall2_same_length_lookup. split; [done|].
      intros j o k Hj Hk.
      destruct (Hseg j o Hj) as [-> [rec Hrec']].
      destruct (Hrec j rec Hrec') as (k' & src & r & f & Hks & Hr & _ & _ & ->).
      rewrite list_lookup_fmap, Hks in Hk. injection Hk as <-.
      apply field_Some. eexists. split; [by apply Hlook|].
      rewrite formatted_field by (unfold keys_of_run; in_list).
      rewrite Forall_forall in Hkeys.
      assert (field h ok src = Some k') as (r' & Hr' & Hk')%field_Some.
      { apply (Hkeys (k', src)). by eapply list_elem_of_lookup_2. }
      congruence.
    + apply sort_keyed_sorted.
      apply (StronglySorted_keys ks); [|done].
      rewrite fst_zip; [done|lia].
    + rewrite snd_zip; [done|lia].
  - exists ext. split.
    + apply Forall2_same_length_lookup. split.
      { unfold seg. by rewrite length_seq. }
      intros j o rec Hj Hrec'. destruct (Hseg j o Hj) as [-> _].
      by apply Hlook.
    + apply Forall2_same_length_lookup. split.
      { unfold enumerate, seg. rewrite length_zip, !length_seq. lia. }
      intros j [j' o] rec Hj Hrec'.
      apply enumerate_lookup in Hj as [-> Hj]. cbn [fst snd Nat.add] in *.
      destruct (Hseg j o Hj) as [-> _].
      destruct (Hrec j rec Hrec') as (k & src & r & f & Hks & Hr & Hrj & Hf & ->).
      exists (<[formatted_key ck := PStr f]> r), f. cbn [fst snd].
      split; [by apply Hlook|]. split; [|by rewrite insert_insert_eq].
      rewrite <-Hf. apply format_chunk_with_context_agree.
      apply Forall2_same_length_lookup. split.
      { rewrite Hlen. apply Forall2_length in Hrecords.
        by rewrite length_fmap in Hrecords. }
      intros i rec' r' Hrec'' Hr'.
      destruct (Hrec i rec' Hrec'') as (? & ? & r'' & f' & _ & _ & Hri & _ & ->).
      assert (r'' = r') as -> by congruence.
      intros key Hkey. apply formatted_field.
      unfold keys_of_run. by do 2 right.
Qed.

Lemma rerun_groups (ds : list pyval) (ss : list (list loc))
    (exts : list (list record)) :
  Forall2 (sorted_group h dk ok) ds ss →
  Forall2 (group_copies h pc ck ok ms me) ss exts →
  ∀ pre,
    ∃ segs,
      concat segs = seq (length h + length pre) (length (concat exts)) ∧
      Forall2 (λ d seg,
                 seg ≠ [] ∧
                 Forall (λ o, field (h ++ pre ++ concat exts) dk o = Some d) seg ∧
                 sorted_from (h ++ pre ++ concat exts) ok seg seg)
              ds segs ∧
      Forall2 (group_copies (h ++ pre ++ concat exts) pc ck ok ms me)
              segs exts.
Proof.
  intros Hgroups. revert exts.
  induction Hgroups as [|d s ds ss Hgroup _ IH]; intros exts Hexts pre.
  - apply Forall2_nil_inv_l in Hexts as ->. exists []. by repeat split.
  - apply Forall2_cons_inv_l in Hexts as (ext & exts' & Hext & Hexts' & ->).
    destruct (IH exts' Hexts' (pre ++ ext)) as (segs & Hconcat & Hsegs & Hcopies).
    rewrite <-(app_assoc pre ext) in Hsegs, Hcopies.
    destruct (rerun_group d s ext pre (concat exts') Hgroup Hext)
      as (Hne & Hdoc & Hsorted & Hcopy).
    exists (seq (length h + length pre) (length ext) :: segs).
    cbn [concat]. split; [|split].
    + rewrite Hconcat, !length_app, seq_app. by rewrite Nat.add_assoc.
    + by constructor.
    + by constructor.
Qed.
End rerun.

Lemma elem_of_concat {A} (x : A) (ls : list (list A)) :
  x ∈ concat ls → ∃ l, x ∈ l ∧ l ∈ ls.
Proof.
  induction ls as [|l ls IH]; cbn [concat].
  - by intros ?%elem_of_nil.
  - intros [Hx|Hx]%elem_of_app.
    + exists l. split; [done|left].
    + destruct (IH Hx) as (l' & Hl' & Hin). exists l'. split; [done|by right].
Qed.

Lemma pairs_of_snd (gs : groups) : (concat (pairs_of <$> gs)).*2 = concat gs.*2.
Proof.
  induction gs as [|[d items] gs IH]; [done|].
  cbn [fmap list_fmap concat]. rewrite fmap_app.
  change (list_fmap _ _ pairs_of gs) with (pairs_of <$> gs).
  change (list_fmap _ _ snd gs) with (gs.*2).
  rewrite IH. f_equal. unfold pairs_of. cbn [fst snd].
  rewrite <-list_fmap_compose. apply list_fmap_id.
Qed.

(** X19: running execute once more on its own results copies them as
    they are.  When the formatted key is not one of the keys the run
    reads in a record (the document identity, the order key, the content
    key and the content keys of the sections), a second run on the
    results of a first one returns, and the records it adds to the store
    are, in the same order, the records the first run added: the same
    groups, the same order within each group, the same text. *)
Theorem X19_rerun (cfg : config) (input_data outs : list loc) (c : cost)
    (h h1 : heap) (ck dk ok : pyval) (pc : peripheral) :
  top cfg !! "content_key" = Some ck →
  top cfg !! "doc_id_key" = Some dk →
  top cfg !! "order_key" = Some ok →
  peripheral_chunks cfg = Some pc →
  PStr (formatted_key ck) ∉ keys_of_run pc ck dk ok →
  execute cfg input_data h = Ok ((outs, c), h1) →
  ∃ recs,
    h1 = h ++ recs ∧ length recs = length input_data ∧
    outs = seq (length h) (length recs) ∧
    execute cfg outs h1
    = Ok ((seq (length h1) (length recs), 0), h1 ++ recs).
Proof.
  intros Hck Hdk Hok Hpc Hfresh Hrun.
  apply execute_Ok in Hrun
    as (ck' & dk' & ok' & pc' & ids & ss & exts & Hck' & Hdk' & Hok' & Hpc'
        & Hids & Hss & Hexts & -> & -> & _).
  assert (ck' = ck) as -> by congruence.
  assert (dk' = dk) as -> by congruence.
  assert (ok' = ok) as -> by congruence.
  assert (pc' = pc) as -> by congruence.
  exists (concat exts). split; [done|]. split.
  { assert (length ids = length input_data) as Hlen.
    { symmetry. by eapply Forall2_length. }
    assert (concat ss ≡ₚ input_data) as Hsrcs.
    { transitivity (concat (grouping (zip ids input_data)).*2).
      - symmetry. apply concat_perm. apply Forall2_fmap_l.
        eapply Forall2_impl; [exact Hss|].
        intros g s Hgs. unfold compose. symmetry.
        exact (sorted_from_length _ _ _ _ Hgs).
      - rewrite grouping_spec, <-list_fmap_compose.
        rewrite (members_perm _ (zip ids input_data)).
        + rewrite snd_zip; [done|lia].
        + apply NoDup_first_seen.
        + intros p Hp. apply elem_of_first_seen. by apply list_elem_of_fmap_2. }
    rewrite <-Hsrcs.
    assert (Forall2 (λ (s : list loc) (ext : list record),
                       length s = length ext) ss exts) as Hlens.
    { eapply Forall2_impl; [exact Hexts|].
      intros s ext (records & _ & Hext). apply Forall2_length in Hext.
      unfold enumerate in Hext. rewrite length_zip, length_seq in Hext. lia. }
    clear -Hlens. induction Hlens as [|s ext ss exts Hs _ IH]; [done|].
    cbn [concat]. rewrite !length_app. lia. }
  split; [done|].
  pose proof (run_groups _ _ _ _ _ _ Hids Hss) as Hgroups.
  destruct (rerun_groups h pc ck dk ok (start_marker cfg) (end_marker cfg)
              Hfresh _ _ _ Hgroups Hexts [])
    as (segs & Hconcat & Hsegs & Hcopies').
  cbn [app length] in Hconcat, Hsegs, Hcopies'. rewrite Nat.add_0_r in Hconcat.
  set (h1 := h ++ concat exts) in *.
  set (gs := zip (first_seen ids) segs).
  assert (length (first_seen ids) = length segs) as Hlen
      by (by eapply Forall2_length).
  assert (gs.*1 = first_seen ids) as Hfst by (apply fst_zip; lia).
  assert (gs.*2 = segs) as Hsnd by (apply snd_zip; lia).
  assert (seq (length h) (length (concat exts))
          = (concat (pairs_of <$> gs)).*2) as Houts.
  { by rewrite pairs_of_snd, Hsnd. }
  assert (Forall (λ g, g.2 ≠ [] ∧
                       Forall (λ o, field h1 dk o = Some g.1) g.2 ∧
                       sorted_from h1 ok g.2 g.2) gs) as Hgs.
  { apply Forall_forall. intros [d seg] [k Hk]%list_elem_of_lookup_1.
    apply lookup_zip_Some in Hk as [Hd Hseg].
    exact (Forall2_lookup_lr _ _ _ _ _ _ Hsegs Hd Hseg). }
  rewrite Houts.
  rewrite (execute_intro cfg _ h1 ck dk ok pc (concat (pairs_of <$> gs)).*1
             segs exts); try done.
  - apply Forall2_fmap_l, Forall2_fmap_r, Forall_Forall2_diag.
    apply Forall_forall. intros [d o] Hin. cbn [fst snd].
    apply elem_of_concat in Hin as (ps & Hin & Hps).
    apply list_elem_of_fmap in Hps as ([d' seg] & -> & Hg).
    unfold pairs_of in Hin. cbn [fst snd] in Hin.
    apply list_elem_of_fmap in Hin as (o' & [= -> ->] & Ho).
    rewrite Forall_forall in Hgs. destruct (Hgs _ Hg) as (_ & Hdoc & _).
    rewrite Forall_forall in Hdoc. by apply Hdoc.
  - rewrite zip_fst_snd, grouping_grouped.
    + rewrite <-Hsnd. apply Forall2_fmap_r, Forall_Forall2_diag.
      eapply Forall_impl; [exact Hgs|]. by intros g (_ & _ & Hsorted).
    + rewrite Hfst. apply NoDup_first_seen.
    + eapply Forall_impl; [exact Hgs|]. by intros g (Hne & _).
Qed.

Lemma X19_rerun_witness :
  execute cfg_plain [1%nat] (solo ++ [solo_out])
  = Ok (([2%nat], 0), (solo ++ [solo_out]) ++ [solo_out]).
Proof.
  destruct (X19_rerun cfg_plain [0%nat] [1%nat] 0 solo (solo ++ [solo_out])
              (PStr "text") (PStr "doc") (PStr "n") ∅)
    as (recs & Hrecs & _ & _ & Hrun).
  - reflexivity.
  - reflexivity.
  - reflexivity.
  - reflexivity.
  - intros Hin.
    repeat (apply elem_of_cons in Hin as [[=]|Hin]).
    by apply elem_of_nil in Hin.
  - exact solo_run.
  - apply app_inv_head in Hrecs as <-. exact Hrun.
Defined.

(** ** The index passed to format_chunk_with_context *)

Lemma bind_Err {A B} (m : result A) (f : A → result B) (e : exn) :
  m ≫= f = Err e → m = Err e ∨ ∃ a, m = Ok a ∧ f a = Err e.
Proof.
  destruct m as [a|e']; cbn [mbind result_bind]; intros H.
  - right. by exists a.
  - left. by injection H as ->.
Qed.

Lemma map_result_Err {A B} (f : A → result B) (l : list A) (e : exn) :
  map_result f l = Err e → ∃ x, x ∈ l ∧ f x = Err e.
Proof.
  induction l as [|x l IH]; [done|]. cbn [map_result].
  intros [Hx|(y & _ & Hrest)]%bind_Err.
  - exists x. split; [left|done].
  - cbv beta in Hrest. apply bind_Err in Hrest as [Hl|(ys & _ & [=])].
    destruct (IH Hl) as (x' & Hin & Hx'). exists x'. split; [by right|done].
Qed.

Lemma for_enumerate_Err {A St} (body : St → nat → A → result St) (i : nat)
    (l : list A) (st : St) (e : exn) :
  for_enumerate body i l st = Err e → ∃ st' j x, x ∈ l ∧ body st' j x = Err e.
Proof.
  revert i st. induction l as [|x l IH]; intros i st; [done|].
  cbn [for_enumerate]. intros [Hx|(st1 & _ & Hl)]%bind_Err.
  - exists st, i, x. split; [left|done].
  - destruct (IH _ _ Hl) as (st' & j & x' & Hin & Hx').
    exists st', j, x'. split; [by right|done].
Qed.

Lemma getitem_no_index (d : gmap string pyval) (k : pyval) (e : exn) :
  getitem d k = Err e → e ≠ IndexError.
Proof. by intros ->%getitem_Err. Qed.

Lemma str_no_index (v : pyval) (e : exn) : str v = Err e → e ≠ IndexError.
Proof.
  destruct v as [|z|s]; cbn [str]; [done| |done].
  case_bool_decide; [done|]. by intros [= <-].
Qed.

Lemma len_no_index (v : pyval) (e : exn) : len v = Err e → e ≠ IndexError.
Proof. destruct v; by intros [= <-]. Qed.

Lemma int_no_index (v : pyval) (e : exn) : int v = Err e → e ≠ IndexError.
Proof.
  destruct v as [| |s]; cbn [int]; try by intros [= <-].
  destruct (int_of_string s); [|by intros [= <-]].
  case_bool_decide; [done|]. by intros [= <-].
Qed.

Lemma lt_no_index (a b : pyval) (e : exn) : lt a b = Err e → e ≠ IndexError.
Proof. destruct a, b; by intros [= <-]. Qed.

Lemma render_no_index (config : direction_config)
    (content_key order_key : pyval) (bkt : bucket) (c : record) (e : exn) :
  render config content_key order_key bkt c = Err e → e ≠ IndexError.
Proof.
  unfold render. cbv zeta.
  intros [Ho|(o & _ & Hrest)]%bind_Err; [by eapply getitem_no_index|].
  cbv beta in Hrest.
  apply bind_Err in Hrest as [Ho|(o' & _ & Hrest)]; [by eapply str_no_index|].
  cbv beta in Hrest.
  apply bind_Err in Hrest as [Hc|(v & _ & Hrest)];
    [by eapply getitem_no_index|].
  cbv beta in Hrest. apply bind_Err in Hrest as [Hc|(v' & _ & [=])].
  by eapply str_no_index.
Qed.

Lemma main_block_no_index (main_chunk_start : pyval) (main_chunk : record)
    (content_key main_chunk_end : pyval) (e : exn) :
  main_block main_chunk_start main_chunk content_key main_chunk_end = Err e →
  e ≠ IndexError.
Proof.
  unfold main_block.
  intros [Hs|(start & _ & Hrest)]%bind_Err; [by eapply str_no_index|].
  cbv beta in Hrest.
  apply bind_Err in Hrest as [Hc|(content & _ & Hrest)];
    [by eapply getitem_no_index|].
  cbv beta in Hrest.
  apply bind_Err in Hrest as [Hc|(body & _ & Hrest)];
    [by eapply str_no_index|].
  cbv beta in Hrest. apply bind_Err in Hrest as [He|(end_ & _ & [=])].
  by eapply str_no_index.
Qed.

Lemma skipped_chars_no_index (l : list record) (content_key : pyval)
    (e : exn) :
  skipped_chars l content_key = Err e → e ≠ IndexError.
Proof.
  unfold skipped_chars.
  intros [(c & _ & Hc)%map_result_Err|(lens & _ & [=])]%bind_Err.
  cbv beta in Hc. apply bind_Err in Hc as [Hc|(v & _ & Hv)].
  - by eapply getitem_no_index.
  - by eapply len_no_index.
Qed.

Lemma process_peripheral_chunks_no_index (chunks : list record)
    (config : direction_config) (content_key order_key : pyval)
    (reverse : bool) (e : exn) :
  process_peripheral_chunks chunks config content_key order_key reverse
  = Err e →
  e ≠ IndexError.
Proof.
  unfold process_peripheral_chunks. cbv zeta.
  intros [Hloop|(st & _ & [=])]%bind_Err.
  unfold process_loop in Hloop. cbv zeta in Hloop.
  apply bind_Err in Hloop as [Hhc|(hc & _ & Hloop)];
    [by eapply int_no_index|].
  cbv beta in Hloop.
  apply bind_Err in Hloop as [Htc|(tc & _ & Hloop)];
    [by eapply int_no_index|].
  cbv beta in Hloop.
  apply bind_Err in Hloop as [Hloop|(st & _ & [=])].
  apply for_enumerate_Err in Hloop as (st & j & c & _ & Hbody).
  unfold loop_body in Hbody.
  destruct (classify _ _ _ _ j);
    apply bind_Err in Hbody as [Hbody|(? & _ & [=])];
    first [by eapply render_no_index|by eapply skipped_chars_no_index].
Qed.

Lemma format_chunk_with_context_no_index (chunks : list record)
    (current_index : nat) (peripheral_config : peripheral)
    (content_key order_key main_chunk_start main_chunk_end : pyval) (e : exn) :
  (current_index < length chunks)%nat →
  format_chunk_with_context chunks current_index peripheral_config
    content_key order_key main_chunk_start main_chunk_end = Err e →
  e ≠ IndexError.
Proof.
  intros Hi. unfold format_chunk_with_context.
  intros [Hprev|(previous & _ & Hrest)]%bind_Err;
    [by eapply process_peripheral_chunks_no_index|].
  destruct (lookup_lt_is_Some_2 chunks current_index Hi) as [main_chunk Hmain].
  cbv beta in Hrest.
  rewrite Hmain in Hrest. cbn [from_option mbind result_bind] in Hrest.
  apply bind_Err in Hrest as [Hblock|(main & _ & Hrest)];
    [by eapply main_block_no_index|].
  cbv beta in Hrest.
  apply bind_Err in Hrest as [Hnext|(next & _ & [=])].
  by eapply process_peripheral_chunks_no_index.
Qed.

Lemma sort_keyed_no_index {A} (l : list (pyval * A)) (e : exn) :
  sort_keyed l = Err e → e ≠ IndexError.
Proof.
  assert (∀ (x : pyval * A) s, insert_keyed x s = Err e → e ≠ IndexError)
    as Hinsert.
  { intros x s. induction s as [|y s IH]; [done|]. cbn [insert_keyed].
    intros [Hlt|([] & _ & Hrest)]%bind_Err; [by eapply lt_no_index| |done].
    cbv beta iota in Hrest.
    apply bind_Err in Hrest as [Hrest|(? & _ & [=])]. by apply IH. }
  induction l as [|x l IH]; [done|]. cbn [sort_keyed].
  intros [Hl|(s & _ & Hx)]%bind_Err; [by apply IH|by eapply Hinsert].
Qed.

Lemma bind_M_Err {A B} (m : M A) (f : A → M B) (h : heap) (e : exn) :
  (m ≫= f) h = Err e →
  m h = Err e ∨ ∃ a h', m h = Ok (a, h') ∧ f a h' = Err e.
Proof.
  unfold mbind, M_bind. destruct (m h) as [[a h']|e']; intros H.
  - right. by exists a, h'.
  - left. by injection H as ->.
Qed.

Lemma lift_Err {A} (r : result A) (h : heap) (e : exn) :
  lift r h = Err e → r = Err e.
Proof. unfold lift. destruct r; [done|]. by intros [= ->]. Qed.

Lemma map_M_read_Err {A B} (f : A → M B) (l : list A) (h : heap) (e : exn) :
  (∀ x b h', f x h = Ok (b, h') → h' = h) →
  map_M f l h = Err e → ∃ x, x ∈ l ∧ f x h = Err e.
Proof.
  intros Hread. induction l as [|x l IH]; [done|]. cbn [map_M].
  intros [Hx|(b & h' & Hb & Hrest)]%bind_M_Err.
  - exists x. split; [left|done].
  - apply Hread in Hb as ->. cbv beta in Hrest.
    apply bind_M_Err in Hrest as [Hl|(bs & h' & _ & [=])].
    destruct (IH Hl) as (x' & Hin & Hx'). exists x'. split; [by right|done].
Qed.

Lemma for_M_Err {A St} (body : St → A → M St) (l : list A) (st : St)
    (h : heap) (e : exn) :
  for_M body l st h = Err e →
  ∃ l1 x l2 st' h',
    l = l1 ++ x :: l2 ∧ for_M body l1 st h = Ok (st', h') ∧
    body st' x h' = Err e.
Proof.
  revert st h. induction l as [|x l IH]; intros st h; [done|].
  cbn [for_M]. intros [Hx|(st1 & h1 & Hx & Hl)]%bind_M_Err.
  - by exists [], x, l, st, h.
  - destruct (IH _ _ Hl) as (l1 & x' & l2 & st' & h' & -> & Hl1 & Hx').
    exists (x :: l1), x', l2, st', h'. split; [done|]. split; [|done].
    cbn [for_M]. by rewrite (bind_M_eq _ _ _ _ _ Hx).
Qed.

Lemma for_enumerate_M_Err {A St} (body : St → nat → A → M St) (i : nat)
    (l : list A) (st : St) (h : heap) (e : exn) :
  for_enumerate_M body i l st h = Err e →
  ∃ l1 x l2 st' h',
    l = l1 ++ x :: l2 ∧ for_enumerate_M body i l1 st h = Ok (st', h') ∧
    body st' (i + length l1)%nat x h' = Err e.
Proof.
  revert i st h. induction l as [|x l IH]; intros i st h; [done|].
  cbn [for_enumerate_M]. intros [Hx|(st1 & h1 & Hx & Hl)]%bind_M_Err.
  - exists [], x, l, st, h. by rewrite Nat.add_0_r.
  - destruct (IH _ _ _ Hl) as (l1 & x' & l2 & st' & h' & -> & Hl1 & Hx').
    exists (x :: l1), x', l2, st', h'. split; [done|]. split.
    + cbn [for_enumerate_M]. by rewrite (bind_M_eq _ _ _ _ _ Hx).
    + cbn [length]. by replace (i + S (length l1))%nat
        with (S i + length l1)%nat by lia.
Qed.

Lemma load_no_index (l : loc) (h : heap) (e : exn) :
  load l h = Err e → e ≠ IndexError.
Proof. unfold load. destruct (h !! l); [done|]. by intros [= <-]. Qed.

Section no_index.
Variables (pc : peripheral) (ck ok ms me : pyval).

Lemma process_chunk_no_index (chunks results : list loc) (i : nat)
    (chunk : loc) (h : heap) (e : exn) :
  (i < length chunks)%nat →
  process_chunk pc ck ok ms me chunks results i chunk h = Err e →
  e ≠ IndexError.
Proof.
  intros Hi. unfold process_chunk.
  intros [Hload|(records & h1 & Hload & Hrest)]%bind_M_Err.
  { apply map_M_read_Err in Hload as (l & Hl & Herr).
    - by eapply load_no_index.
    - by intros l r h' [_ ->]%load_Ok. }
  apply map_M_load in Hload as [-> Hrecords]. cbv beta in Hrest.
  apply bind_M_Err in Hrest as [Hf%lift_Err|(f & h1 & [_ ->]%lift_Ok & Hrest)].
  { eapply format_chunk_with_context_no_index; [|exact Hf].
    by rewrite <-(Forall2_length _ _ _ Hrecords). }
  cbv beta in Hrest.
  apply bind_M_Err in Hrest as [Hcopy|(new & h1 & _ & Hrest)].
  { unfold copy in Hcopy. destruct (h !! chunk); [done|]. by injection Hcopy as <-. }
  cbv beta in Hrest.
  apply bind_M_Err in Hrest as [Hkey%lift_Err|(key & h2 & _ & Hrest)];
    [by eapply str_no_index|].
  cbv beta in Hrest.
  apply bind_M_Err in Hrest as [Hset|(u & h3 & _ & [=])].
  unfold setitem in Hset. destruct (h2 !! new); [done|]. by injection Hset as <-.
Qed.

Lemma process_group_no_index (results : list loc) (g : pyval * list loc)
    (h : heap) (e : exn) :
  process_group pc ck ok ms me results g h = Err e → e ≠ IndexError.
Proof.
  unfold process_group.
  intros [Hsort|(s & h1 & Hsort & Hloop)]%bind_M_Err.
  { unfold sort_chunks in Hsort.
    apply bind_M_Err in Hsort as [Hkeys|(keys & h1 & _ & Hsort)].
    - apply map_M_read_Err in Hkeys as (l & Hl & Herr).
      + cbv beta in Herr.
        apply bind_M_Err in Herr as [Herr|(r & h1 & _ & Herr%lift_Err)].
        * by eapply load_no_index.
        * by eapply getitem_no_index.
      + by intros l k h' (r & h1 & [_ ->]%load_Ok & [_ ->]%lift_Ok)%bind_M_Ok.
    - cbv beta in Hsort.
      apply bind_M_Err in Hsort as [Hsort%lift_Err|(? & ? & _ & [=])].
      by eapply sort_keyed_no_index. }
  cbv beta in Hloop.
  apply for_enumerate_M_Err in Hloop
    as (l1 & x & l2 & results' & h' & Hs & _ & Hbody).
  eapply process_chunk_no_index; [|exact Hbody].
  rewrite Hs, length_app. cbn. lia.
Qed.
End no_index.

(** X20: execute never raises [IndexError].  format_chunk_with_context
    raises it for an index at or beyond the end of the group it is
    given; the index execute passes comes from the enumeration of the
    sorted group itself and lies within it, whatever the input, the
    store and the configuration. *)
Theorem X20_index_in_range (cfg : config) (input_data : list loc) (h : heap) :
  execute cfg input_data h ≠ Err IndexError.
Proof.
  intros Hrun.
  assert (∀ e, execute cfg input_data h = Err e → e ≠ IndexError) as Hno;
    [|by apply (Hno IndexError)].
  clear Hrun. intros e Hrun. unfold execute in Hrun.
  apply bind_M_Err in Hrun
    as [Hck%lift_Err|(ck & h1 & [_ ->]%lift_Ok & Hrun)];
    [by eapply getitem_no_index|].
  cbv beta in Hrun.
  apply bind_M_Err in Hrun
    as [Hdk%lift_Err|(dk & h1 & [_ ->]%lift_Ok & Hrun)];
    [by eapply getitem_no_index|].
  cbv beta in Hrun.
  apply bind_M_Err in Hrun
    as [Hok%lift_Err|(ok & h1 & [_ ->]%lift_Ok & Hrun)];
    [by eapply getitem_no_index|].
  cbv beta in Hrun.
  apply bind_M_Err in Hrun
    as [Hpc%lift_Err|(pc & h1 & [_ ->]%lift_Ok & Hrun)].
  { destruct (peripheral_chunks cfg); [done|]. by injection Hpc as <-. }
  cbv beta zeta in Hrun.
  apply bind_M_Err in Hrun as [Hgroup|(gs & h1 & _ & Hrun)].
  { unfold group_chunks in Hgroup.
    apply for_M_Err in Hgroup as (l1 & x & l2 & g & h' & _ & _ & Hbody).
    cbv beta in Hbody.
    apply bind_M_Err in Hbody as [Hload|(r & h1 & _ & Hbody)];
      [by eapply load_no_index|].
    cbv beta in Hbody.
    apply bind_M_Err in Hbody as [Hd%lift_Err|(? & ? & _ & [=])].
    by eapply getitem_no_index. }
  cbv beta in Hrun.
  apply bind_M_Err in Hrun as [Hloop|(results & h2 & _ & [=])].
  apply for_M_Err in Hloop as (gs1 & g & gs2 & results & h' & _ & _ & Hbody).
  by eapply process_group_no_index.
Qed.

(** ** Documents are processed independently *)

Lemma append_chunk_frame (g0 g : groups) (d : pyval) (item : loc) :
  d ∉ g0.*1 → append_chunk d item (g0 ++ g) = g0 ++ append_chunk d item g.
Proof.
  intros Hd. unfold append_chunk.
  assert ((λ g' : pyval * list loc,
             if bool_decide (g'.1 = d) then (g'.1, g'.2 ++ [item]) else g')
            <$> g0 = g0) as Hg0.
  { rewrite <-(list_fmap_id g0) at 2. apply list_fmap_ext.
    intros i g' Hg'. rewrite bool_decide_false; [done|].
    intros Heq. destruct Hd. rewrite <-Heq.
    apply list_elem_of_fmap_2. by eapply list_elem_of_lookup_2. }
  destruct (decide (d ∈ g.*1)) as [Hin|Hnot].
  - rewrite !bool_decide_true; [|done|].
    + by rewrite fmap_app, Hg0.
    + rewrite fmap_app, elem_of_app. by right.
  - rewrite !bool_decide_false; [|done|].
    + by rewrite <-app_assoc, fmap_app, Hg0.
    + rewrite fmap_app, elem_of_app. by intros [?|?].
Qed.

Lemma grouping_app (ps1 ps2 : list (pyval * loc)) :
  (∀ p1 p2, p1 ∈ ps1 → p2 ∈ ps2 → p1.1 ≠ p2.1) →
  grouping (ps1 ++ ps2) = grouping ps1 ++ grouping ps2.
Proof.
  intros Hdisjoint. unfold grouping at 1. rewrite foldl_app.
  fold (grouping ps1).
  assert (∀ d, d ∈ ps2.*1 → d ∉ (grouping ps1).*1) as Hkeys.
  { intros d (p2 & -> & Hp2)%list_elem_of_fmap. rewrite grouping_spec.
    rewrite <-list_fmap_compose.
    intros (d' & Hd' & (p1 & -> & Hp1)%elem_of_first_seen%list_elem_of_fmap)%list_elem_of_fmap.
    cbn in Hd'. by eapply Hdisjoint. }
  clear Hdisjoint.
  assert (∀ g, foldl (λ g p, append_chunk p.1 p.2 g) (grouping ps1 ++ g) ps2
               = grouping ps1 ++ foldl (λ g p, append_chunk p.1 p.2 g) g ps2)
    as Hfold.
  { induction ps2 as [|p ps2 IH]; intros g; [done|].
    cbn [foldl]. rewrite append_chunk_frame.
    - apply IH. intros d Hd. apply Hkeys. rewrite fmap_cons. by right.
    - apply Hkeys. rewrite fmap_cons. left. }
  rewrite <-(app_nil_r (grouping ps1)) at 1. apply Hfold.
Qed.

Lemma group_copies_grow (h pre : heap) (pc : peripheral) (ck ok ms me : pyval)
    (s : list loc) (ext : list record) :
  group_copies h pc ck ok ms me s ext →
  group_copies (h ++ pre) pc ck ok ms me s ext.
Proof.
  intros (records & Hrecords & Hcopies). exists records. split.
  - eapply Forall2_impl; [exact Hrecords|].
    intros l r Hl. by apply lookup_app_l_Some.
  - eapply Forall2_impl; [exact Hcopies|].
    intros jsrc rec (r & f & Hr & Hf & ->). exists r, f.
    split; [by apply lookup_app_l_Some|done].
Qed.

(** X21: documents are processed independently of one another, so the
    input can be split between documents.  When no document has chunks
    in both parts of an input, the run over the whole input returns
    exactly when the run over the first part returns and the run over
    the second part, started in the store the first one leaves, returns
    too; the results of the whole run are then the results of the first
    part followed by those of the second, and the final stores are the
    same. *)
Theorem X21_documents_independent (cfg : config) (input1 input2 : list loc)
    (h : heap) (dk : pyval) (outs : list loc) (h' : heap) :
  top cfg !! "doc_id_key" = Some dk →
  Forall (λ l, is_Some (h !! l)) (input1 ++ input2) →
  (∀ l1 l2 d, l1 ∈ input1 → l2 ∈ input2 →
              field h dk l1 = Some d → field h dk l2 ≠ Some d) →
  execute cfg (input1 ++ input2) h = Ok ((outs, 0), h') ↔
  ∃ outs1 outs2 h1,
    execute cfg input1 h = Ok ((outs1, 0), h1) ∧
    execute cfg input2 h1 = Ok ((outs2, 0), h') ∧
    outs = outs1 ++ outs2.
Proof.
  intros Hdk Hvalid Hdisjoint.
  assert (Forall (λ l, (l < length h)%nat) (input1 ++ input2)) as Hlt.
  { eapply Forall_impl; [exact Hvalid|]. intros l. apply lookup_lt_is_Some. }
  apply Forall_app in Hlt as [Hlt1 Hlt2].
  assert (∀ ids1 ids2,
            Forall2 (λ l d, field h dk l = Some d) input1 ids1 →
            Forall2 (λ l d, field h dk l = Some d) input2 ids2 →
            grouping (zip (ids1 ++ ids2) (input1 ++ input2))
            = grouping (zip ids1 input1) ++ grouping (zip ids2 input2))
    as Hgrouping.
  { intros ids1 ids2 Hids1 Hids2.
    rewrite zip_with_app by (symmetry; by eapply Forall2_length).
    apply grouping_app. intros [d1 l1] [d2 l2] Hp1 Hp2. cbn [fst].
    intros <-.
    pose proof (zip_fields _ _ _ _ Hids1 _ Hp1) as Hd1.
    pose proof (zip_fields _ _ _ _ Hids2 _ Hp2) as Hd2.
    apply elem_of_zip_r in Hp1, Hp2.
    by apply (Hdisjoint l1 l2 d1). }
  split.
  - intros (ck & dk' & ok & pc & ids & ss & exts & Hck & Hdk' & Hok & Hpc
            & Hids & Hss & Hexts & -> & -> & _)%execute_Ok.
    assert (dk' = dk) as -> by congruence.
    apply Forall2_app_inv_l in Hids as (ids1 & ids2 & Hids1 & Hids2 & ->).
    rewrite (Hgrouping _ _ Hids1 Hids2) in Hss.
    apply Forall2_app_inv_l in Hss as (ss1 & ss2 & Hss1 & Hss2 & ->).
    apply Forall2_app_inv_l in Hexts as (exts1 & exts2 & Hexts1 & Hexts2 & ->).
    exists (seq (length h) (length (concat exts1))),
           (seq (length (h ++ concat exts1)) (length (concat exts2))),
           (h ++ concat exts1).
    split; [|split].
    + by eapply execute_intro.
    + rewrite concat_app, app_assoc.
      eapply execute_intro; try done.
      * eapply Forall2_impl; [exact Hids2|].
        intros l d (r & Hr & Hd)%field_Some. apply field_Some.
        exists r. split; [by apply lookup_app_l_Some|done].
      * eapply Forall2_impl; [exact Hss2|].
        intros g s. apply sorted_from_grow.
      * eapply Forall2_impl; [exact Hexts2|].
        intros s ext. apply group_copies_grow.
    + rewrite concat_app, !length_app, seq_app. done.
  - intros (outs1 & outs2 & h1 & Hrun1 & Hrun2 & ->).
    apply execute_Ok in Hrun1
      as (ck & dk1 & ok & pc & ids1 & ss1 & exts1 & Hck & Hdk1 & Hok & Hpc
          & Hids1 & Hss1 & Hexts1 & -> & -> & _).
    apply execute_Ok in Hrun2
      as (ck' & dk2 & ok' & pc' & ids2 & ss2 & exts2 & Hck' & Hdk2 & Hok' & Hpc'
          & Hids2 & Hss2 & Hexts2 & -> & -> & _).
    assert (ck' = ck) as -> by congruence.
    assert (ok' = ok) as -> by congruence.
    assert (pc' = pc) as -> by congruence.
    assert (dk1 = dk) as -> by congruence.
    assert (dk2 = dk) as -> by congruence.
    assert (Forall2 (λ l d, field h dk l = Some d) input2 ids2) as Hids2'.
    { apply Forall2_same_length_lookup. split; [by eapply Forall2_length|].
      intros i l d Hl Hd.
      pose proof (Forall2_lookup_lr _ _ _ _ _ _ Hids2 Hl Hd) as Hfield.
      cbv beta in Hfield. rewrite field_app in Hfield; [done|].
      rewrite Forall_forall in Hlt2. apply Hlt2.
      by eapply list_elem_of_lookup_2. }
    assert (∀ g l, g ∈ grouping (zip ids2 input2) → l ∈ g.2 →
                   (l < length h)%nat) as Hmembers.
    { intros g l Hg Hl. rewrite Forall_forall in Hlt2. apply Hlt2.
      by eapply grouping_members. }
    assert (Forall2 (λ g s, sorted_from h ok g.2 s)
                    (grouping (zip ids2 input2)) ss2) as Hss2'.
    { apply Forall2_same_length_lookup. split; [by eapply Forall2_length|].
      intros i g s Hg Hs.
      pose proof (Forall2_lookup_lr _ _ _ _ _ _ Hss2 Hg Hs) as Hsorted.
      eapply sorted_from_app; [|exact Hsorted].
      apply Forall_forall. intros l Hl. eapply Hmembers; [|exact Hl].
      by eapply list_elem_of_lookup_2. }
    assert (Forall2 (group_copies h pc ck ok (start_marker cfg)
                                  (end_marker cfg)) ss2 exts2) as Hexts2'.
    { apply Forall2_same_length_lookup. split; [by eapply Forall2_length|].
      intros i s ext Hs Hext.
      pose proof (Forall2_lookup_lr _ _ _ _ _ _ Hexts2 Hs Hext) as Hcopies.
      eapply group_copies_app; [|exact Hcopies].
      destruct (Forall2_lookup_r _ _ _ _ _ Hss2' Hs) as (g & Hg & Hsorted).
      apply sorted_from_length in Hsorted. rewrite Hsorted.
      apply Forall_forall. intros l Hl. eapply Hmembers; [|exact Hl].
      by eapply list_elem_of_lookup_2. }
    rewrite (execute_intro cfg _ h ck dk ok pc (ids1 ++ ids2) (ss1 ++ ss2)
               (exts1 ++ exts2)); try done.
    + rewrite concat_app, !length_app, seq_app, app_assoc. done.
    + by apply Forall2_app.
    + rewrite (Hgrouping _ _ Hids1 Hids2'). by apply Forall2_app.
    + by apply Forall2_app.
Qed.

Lemma X21_documents_independent_witness :
  ∃ outs1 outs2 h1,
    execute cfg_plain [0%nat] [chunk_of "d1" 1 "a"; chunk_of "d2" 1 "b"]
    = Ok ((outs1, 0), h1) ∧
    outs1 ++ outs2 = [2; 3]%nat.
Proof.
  assert (Forall (λ l, is_Some ([chunk_of "d1" 1 "a"; chunk_of "d2" 1 "b"] !! l))
                 ([0%nat] ++ [1%nat])) as Hvalid.
  { repeat constructor; by eexists. }
  assert (∀ l1 l2 d, l1 ∈ [0%nat] → l2 ∈ [1%nat] →
            field [chunk_of "d1" 1 "a"; chunk_of "d2" 1 "b"] (PStr "doc") l1
            = Some d →
            field [chunk_of "d1" 1 "a"; chunk_of "d2" 1 "b"] (PStr "doc") l2
            ≠ Some d) as Hdisjoint.
  { intros l1 l2 d ->%list_elem_of_singleton ->%list_elem_of_singleton.
    by intros [= <-]. }
  destruct (proj1 (X21_documents_independent cfg_plain [0%nat] [1%nat]
                     [chunk_of "d1" 1 "a"; chunk_of "d2" 1 "b"] (PStr "doc")
                     [2; 3]%nat
                     (snd (default (([], 0), [])
                             (match execute cfg_plain [0; 1]%nat
                                      [chunk_of "d1" 1 "a"; chunk_of "d2" 1 "b"]
                              with Ok r => Some r | Err _ => None end)))
                     eq_refl Hvalid Hdisjoint))
    as (outs1 & outs2 & h1 & Hrun1 & _ & Houts).
  - vm_compute. reflexivity.
  - exists outs1, outs2, h1. split; [exact Hrun1|by symmetry].
Defined.

